(** * The API catalog generator of Data-Config/generate_api_catalog.py

    A shallow embedding of the script's matching, validation, schema path
    rewriting and two-pass catalog construction, and the properties of the
    catalog specification proved (or refuted) over it.

    Strings are byte strings ([string]); Python dictionaries, which iterate
    in insertion order, are association lists; the set of processed services
    is a finite set of strings. *)

From Stdlib Require Import String Ascii List Bool Arith Lia.
From stdpp Require Import base list strings gmap.

Open Scope string_scope.
Open Scope list_scope.

(** ** Python built-ins used by the script *)

Module Py.

(** [s.startswith(p)] *)
Definition startswith (s p : string) : bool := String.prefix p s.

(** [s.lower()], on the ASCII letters (bytes outside A-Z are kept). *)
Definition lower_ascii (c : ascii) : ascii :=
  let n := nat_of_ascii c in
  if ((65 <=? n) && (n <=? 90))%nat then ascii_of_nat (n + 32) else c.

Fixpoint lower (s : string) : string :=
  match s with
  | EmptyString => EmptyString
  | String c t => String (lower_ascii c) (lower t)
  end.

(** [c in s] for a one-character string [c]. *)
Fixpoint str_in (c : ascii) (s : string) : bool :=
  match s with
  | EmptyString => false
  | String a t => Ascii.eqb a c || str_in c t
  end.

(** [s.rsplit(c, 1)]: the split at the last [c]; a string without [c]
    is returned whole. *)
Fixpoint rsplit1 (c : ascii) (s : string) : list string :=
  match s with
  | EmptyString => [EmptyString]
  | String a t =>
      match rsplit1 c t with
      | [h; r] => [String a h; r]
      | _ => if Ascii.eqb a c then [EmptyString; t] else [String a t]
      end
  end.

(** [parts[i]] on a list of strings (the script only indexes in range). *)
Definition index (parts : list string) (i : nat) : string :=
  nth i parts EmptyString.

(** Truth value of a string: the empty string is false. *)
Definition truthy (s : string) : bool :=
  match s with EmptyString => false | _ => true end.

(** *** Dictionaries with string keys, in insertion order *)

Definition dict (V : Type) : Type := list (string * V).

Section Dict.
Context {V : Type}.

(** [d.get(k)] *)
Fixpoint get (k : string) (d : dict V) : option V :=
  match d with
  | [] => None
  | (k', v) :: t => if decide (k' = k) then Some v else get k t
  end.

(** [d.get(k, dflt)] *)
Definition get_default (k : string) (dflt : V) (d : dict V) : V :=
  match get k d with Some v => v | None => dflt end.

(** [k in d] *)
Definition contains (k : string) (d : dict V) : bool :=
  match get k d with Some _ => true | None => false end.

(** [d[k] = v]: an existing key keeps its position, a new key goes
    last. *)
Fixpoint setitem (k : string) (v : V) (d : dict V) : dict V :=
  match d with
  | [] => [(k, v)]
  | (k', v') :: t =>
      if decide (k' = k) then (k, v) :: t else (k', v') :: setitem k v t
  end.

(** [d.keys()] and [d.items()] *)
Definition keys (d : dict V) : list string := map fst d.
Definition items (d : dict V) : list (string * V) := d.

(** What a dictionary is: no key occurs twice. *)
Definition wf (d : dict V) : Prop := NoDup (keys d).
End Dict.

End Py.

Import Py.

(** ** Data model *)

(** A service definition of services.json: a JSON object with string
    values, read through the keys "API Name", "Url", "Schema Location" and
    "tag". *)
Definition service : Type := dict string.

(** An entry of the catalog: the dictionary literal with the four keys
    "API Name", "Url", "Schema Location" and "tag". *)
Record api_entry : Type := ApiEntry {
  API_Name : string;
  Url : string;
  Schema_Location : string;
  tag : string
}.

#[global] Instance api_entry_eq_dec : EqDecision api_entry.
Proof. solve_decision. Defined.

(** ** Registry construction and matching *)

(** The body of the loop of [convert_services_to_dict], lines 17-19. *)
Definition convert_step (services_dict : dict service) (svc : service)
  : dict service :=
  match get "API Name" svc with
  | Some api_name =>
      if truthy api_name then setitem api_name svc services_dict
      else services_dict
  | None => services_dict
  end.

(** [convert_services_to_dict], lines 13-20. *)
Definition convert_services_to_dict (services_array : list service)
  : dict service :=
  foldl convert_step [] services_array.

(** [find_matching_services], lines 22-38. *)
Definition find_matching_services (service_name : string)
    (services_dict : dict service) : list (string * service) :=
  match get service_name services_dict with
  | Some service_info => [(service_name, service_info)]
  | None =>
      foldl (fun matches '(api_name, service_info) =>
               if startswith api_name (service_name +:+ " ")
               then matches ++ [(api_name, service_info)]
               else matches) [] (items services_dict)
  end.

(** The test of the prefix search on an item of the registry. *)
Definition name_matches (service_name : string) (item : string * service)
  : bool :=
  startswith (fst item) (service_name +:+ " ").

(** ** Validation *)

(** The local list [missing_keys] of [validate_keys] when its loop ends,
    lines 42-47. *)
Definition missing_keys (service_function_ids : dict (list string))
    (services_dict : dict service) : list string :=
  foldl (fun missing_keys key =>
           match find_matching_services key services_dict with
           | [] => missing_keys ++ [key]
           | _ :: _ => missing_keys
           end) [] (keys service_function_ids).

(** [sorted(l)] on strings: insertion in byte-wise lexicographic order. *)
Fixpoint insert_sorted (x : string) (l : list string) : list string :=
  match l with
  | [] => [x]
  | y :: t => if String.leb x y then x :: y :: t else y :: insert_sorted x t
  end.

Definition sorted (l : list string) : list string :=
  foldr insert_sorted [] l.

(** [validate_keys], lines 40-56: the value returned... *)
Definition validate_keys (service_function_ids : dict (list string))
    (services_dict : dict service) : bool :=
  match missing_keys service_function_ids services_dict with
  | [] => true
  | _ :: _ => false
  end.

(** ...and the keys it prints, one line each, when it returns [False]. *)
Definition validate_keys_report (service_function_ids : dict (list string))
    (services_dict : dict service) : list string :=
  sorted (missing_keys service_function_ids services_dict).

(** ** Schema path rewriting *)

(** The new file name, lines 125-129: the function identifier goes
    before the last "." of the name, or at its end. *)
Definition new_filename (filename function_id : string) : string :=
  if str_in "." filename then
    let parts := rsplit1 "." filename in
    let name_part := index parts 0 in
    let ext := index parts 1 in
    name_part +:+ "-" +:+ function_id +:+ "." +:+ ext
  else
    filename +:+ "-" +:+ function_id.

(** The computation of [modified_schema] from a service's schema location
    and a function identifier, lines 113-137. *)
Definition modified_schema (original_schema function_id : string) : string :=
  if truthy original_schema then
    let '(path_part, filename) :=
      if str_in "/" original_schema then
        let parts := rsplit1 "/" original_schema in
        (index parts 0, index parts 1)
      else
        ("", original_schema) in
    let new_filename := new_filename filename function_id in
    if truthy path_part then path_part +:+ "/" +:+ new_filename
    else new_filename
  else "".

(** ** The catalog *)

Inductive category : Type := REST | SOAP.

#[global] Instance category_eq_dec : EqDecision category.
Proof. solve_decision. Defined.

(** A category of the catalog: group key to the entries of the group. *)
Definition groups : Type := dict (list api_entry).

(** [catalog = {"REST": {}, "SOAP": {}}] *)
Record catalog : Type := Catalog {
  catalog_REST : groups;
  catalog_SOAP : groups
}.

Definition empty_catalog : catalog := Catalog [] [].

(** [catalog[category]] *)
Definition cat_get (c : category) (cat : catalog) : groups :=
  match c with REST => catalog_REST cat | SOAP => catalog_SOAP cat end.

Definition cat_update (c : category) (f : groups -> groups) (cat : catalog)
  : catalog :=
  match c with
  | REST => Catalog (f (catalog_REST cat)) (catalog_SOAP cat)
  | SOAP => Catalog (catalog_REST cat) (f (catalog_SOAP cat))
  end.

(** The category chosen for a lower-cased tag, lines 87-93 and 156-161. *)
Definition category_of (tag : string) : category :=
  if decide (tag = "rest") then REST
  else if decide (tag = "soap") then SOAP
  else REST.

(** [if service_name not in catalog[category]:
       catalog[category][service_name] = []] *)
Definition ensure_group (c : category) (service_name : string)
    (cat : catalog) : catalog :=
  if contains service_name (cat_get c cat) then cat
  else cat_update c (setitem service_name []) cat.

(** [catalog[category][service_name].append(api_entry)]; the script
    reaches it only after [ensure_group], a missing key (a KeyError in
    Python) leaves the catalog as it is. *)
Definition append_entry (c : category) (service_name : string)
    (api_entry : api_entry) (cat : catalog) : catalog :=
  match get service_name (cat_get c cat) with
  | Some l => cat_update c (setitem service_name (l ++ [api_entry])) cat
  | None => cat
  end.

(** The entry built when there is no function identifier, lines 102-107
    and 168-173. *)
Definition plain_entry (matched_service_name : string)
    (service_info : service) (tag : string) : api_entry :=
  {| API_Name := matched_service_name;
     Url := get_default "Url" "" service_info;
     Schema_Location := get_default "Schema Location" "" service_info;
     tag := tag |}.

(** The entry built for one function identifier, lines 113-144. *)
Definition function_entry (matched_service_name : string)
    (service_info : service) (tag function_id : string) : api_entry :=
  {| API_Name := matched_service_name +:+ " " +:+ function_id;
     Url := get_default "Url" "" service_info;
     Schema_Location :=
       modified_schema (get_default "Schema Location" "" service_info)
         function_id;
     tag := tag |}.

(** The state of the two loops of [generate_api_catalog]. *)
Record builder : Type := Builder {
  the_catalog : catalog;
  processed_services : gset string
}.

(** The body of the loop over the matches, lines 79-147. *)
Definition process_match (service_name : string)
    (function_ids : list string) (st : builder)
    (m : string * service) : builder :=
  let '(matched_service_name, service_info) := m in
  let processed := processed_services st ∪ {[ matched_service_name ]} in
  let tag := lower (get_default "tag" "" service_info) in
  let category := category_of tag in
  let cat := ensure_group category service_name (the_catalog st) in
  match function_ids with
  | [] =>
      Builder
        (append_entry category service_name
           (plain_entry matched_service_name service_info tag) cat)
        processed
  | _ :: _ =>
      Builder
        (foldl (fun cat function_id =>
                  append_entry category service_name
                    (function_entry matched_service_name service_info tag
                       function_id) cat)
           cat function_ids)
        processed
  end.

(** The body of the first loop, lines 70-147. *)
Definition process_key (services_dict : dict service) (st : builder)
    (item : string * list string) : builder :=
  let '(service_name, function_ids) := item in
  match find_matching_services service_name services_dict with
  | [] => st
  | matches => foldl (process_match service_name function_ids) st matches
  end.

(** The first loop, over the items of service_function_ids.json. *)
Definition first_pass (service_function_ids : dict (list string))
    (services_dict : dict service) : builder :=
  foldl (process_key services_dict) (Builder empty_catalog ∅)
    (items service_function_ids).

(** The body of the second loop, lines 150-175. *)
Definition process_unmapped (st : builder) (item : string * service)
  : builder :=
  let '(service_name, service_info) := item in
  if bool_decide (service_name ∈ processed_services st) then st
  else
    let tag := lower (get_default "tag" "" service_info) in
    let category := category_of tag in
    let cat := ensure_group category service_name (the_catalog st) in
    Builder
      (append_entry category service_name
         (plain_entry service_name service_info tag) cat)
      (processed_services st).

(** [generate_api_catalog], lines 58-175: the catalog handed to
    [json.dump]. *)
Definition generate_api_catalog (service_function_ids : dict (list string))
    (services_dict : dict service) : catalog :=
  the_catalog
    (foldl process_unmapped
       (first_pass service_function_ids services_dict)
       (items services_dict)).

(** ** The log of appends

    Which entry the two loops append to which group, and for which service
    of the registry: the catalog is the replay of this log (see
    [generate_api_catalog_replay]). *)

Inductive pass : Type := Matched | Unmapped.

#[global] Instance pass_eq_dec : EqDecision pass.
Proof. solve_decision. Defined.

Record append : Type := Append {
  ap_pass : pass;
  ap_category : category;
  ap_group : string;
  ap_service : string;
  ap_entry : api_entry
}.

(** The category of a service definition. *)
Definition service_category (service_info : service) : category :=
  category_of (lower (get_default "tag" "" service_info)).

(** The entries one match contributes for a list of function
    identifiers. *)
Definition entries_for (matched_service_name : string)
    (service_info : service) (function_ids : list string)
  : list api_entry :=
  let tag := lower (get_default "tag" "" service_info) in
  match function_ids with
  | [] => [plain_entry matched_service_name service_info tag]
  | _ :: _ =>
      map (function_entry matched_service_name service_info tag)
        function_ids
  end.

Definition match_appends (service_name : string)
    (function_ids : list string) (m : string * service) : list append :=
  map (Append Matched (service_category (snd m)) service_name (fst m))
    (entries_for (fst m) (snd m) function_ids).

Definition key_appends (services_dict : dict service)
    (item : string * list string) : list append :=
  flat_map (match_appends (fst item) (snd item))
    (find_matching_services (fst item) services_dict).

Definition matched_appends (service_function_ids : dict (list string))
    (services_dict : dict service) : list append :=
  flat_map (key_appends services_dict) (items service_function_ids).

(** The names put into [processed_services] by the first loop. *)
Definition matched_names (service_function_ids : dict (list string))
    (services_dict : dict service) : list string :=
  flat_map (fun item =>
              map fst (find_matching_services (fst item) services_dict))
    (items service_function_ids).

Definition unmapped_append (processed : gset string)
    (item : string * service) : list append :=
  if bool_decide (fst item ∈ processed) then []
  else [Append Unmapped (service_category (snd item)) (fst item) (fst item)
          (plain_entry (fst item) (snd item)
             (lower (get_default "tag" "" (snd item))))].

Definition unmapped_appends (service_function_ids : dict (list string))
    (services_dict : dict service) : list append :=
  flat_map
    (unmapped_append
       (list_to_set (matched_names service_function_ids services_dict)))
    (items services_dict).

Definition appends (service_function_ids : dict (list string))
    (services_dict : dict service) : list append :=
  matched_appends service_function_ids services_dict
  ++ unmapped_appends service_function_ids services_dict.

(** One append on the catalog, and the replay of a log. *)
Definition apply_append (cat : catalog) (a : append) : catalog :=
  append_entry (ap_category a) (ap_group a) (ap_entry a)
    (ensure_group (ap_category a) (ap_group a) cat).

Definition replay (log : list append) : catalog :=
  foldl apply_append empty_catalog log.

(** The entries of a group of a category; a missing group has none. *)
Definition group_entries (c : category) (group : string) (cat : catalog)
  : list api_entry :=
  match get group (cat_get c cat) with Some l => l | None => [] end.

(** The appends of a log that go to one group. *)
Definition to_group (c : category) (group : string) (log : list append)
  : list append :=
  List.filter
    (fun a => bool_decide (ap_category a = c ∧ ap_group a = group)) log.

(** ** The statistics and the entry point of the generator *)

(** [sum(len(apis) for apis in catalog[c].values())], lines 182-183. *)
Definition api_count (g : groups) : nat :=
  sum_list_with (fun item => length (snd item)) g.

(** The numbers printed by [generate_api_catalog], lines 182-188. *)
Record statistics : Type := Statistics {
  rest_services : nat;
  rest_count : nat;
  soap_services : nat;
  soap_count : nat;
  total_apis : nat
}.

Definition catalog_statistics (cat : catalog) : statistics :=
  let rest_count := api_count (catalog_REST cat) in
  let soap_count := api_count (catalog_SOAP cat) in
  {| rest_services := length (catalog_REST cat);
     rest_count := rest_count;
     soap_services := length (catalog_SOAP cat);
     soap_count := soap_count;
     total_apis := rest_count + soap_count |}.

(** [main], lines 190-219, on the two parsed JSON files: the catalog that
    is written, or [None] when validation fails and the script exits with
    status 1 before generating anything. *)
Definition main (service_function_ids : dict (list string))
    (services_array : list service) : option catalog :=
  let services_dict := convert_services_to_dict services_array in
  if validate_keys service_function_ids services_dict
  then Some (generate_api_catalog service_function_ids services_dict)
  else None.

(** What the loops keep true of a category of the catalog: no group key
    twice, no group empty. *)
Definition groups_ok (g : groups) : Prop :=
  wf g ∧ ∀ k l, get k g = Some l → l ≠ [].

(** ** convert_keys.py: renaming the keys of the mapping file *)

(** The state of the first loop of [convert_json], lines 138-149, with
    the warnings it prints. *)
Record conversion : Type := Conversion {
  new_data : dict (list string);
  used_mapped_keys : gset string;
  not_found : list (string * string)
}.

(** The body of the loop over the rows of the table, lines 143-149. *)
Definition convert_row (data : dict (list string)) (st : conversion)
    (row : string * string) : conversion :=
  let '(original_name, mapped_name) := row in
  match get mapped_name data with
  | Some v =>
      Conversion (setitem original_name v (new_data st))
        (used_mapped_keys st ∪ {[ mapped_name ]}) (not_found st)
  | None =>
      Conversion (setitem original_name [] (new_data st))
        (used_mapped_keys st)
        (not_found st ++ [(mapped_name, original_name)])
  end.

Definition convert_rows (data : dict (list string))
    (mapping : list (string * string)) : conversion :=
  foldl (convert_row data) (Conversion [] ∅ []) mapping.

(** [convert_json], lines 134-167: the dictionary written to the output
    file... *)
Definition convert_json (data : dict (list string))
    (mapping : list (string * string)) : dict (list string) :=
  new_data (convert_rows data mapping).

(** ...and the keys of the input reported as not mapped, lines 152-154. *)
Definition convert_json_skipped (data : dict (list string))
    (mapping : list (string * string)) : list string :=
  List.filter
    (fun key =>
       bool_decide (key ∉ used_mapped_keys (convert_rows data mapping)))
    (keys data).

(** ** More Python string built-ins *)

(** The line feed, "\n". *)
Definition LF : string := String "010"%char EmptyString.

(** [p in s] for strings. *)
Fixpoint substr_in (p s : string) : bool :=
  String.prefix p s
  || match s with
     | EmptyString => false
     | String _ t => substr_in p t
     end.

(** [s.split(sep)[0]] for a non-empty [sep]: what precedes the first
    occurrence of [sep], or all of [s]. *)
Fixpoint split_head (sep s : string) : string :=
  if String.prefix sep s then EmptyString
  else match s with
       | EmptyString => EmptyString
       | String a t => String a (split_head sep t)
       end.

(** [c.isspace()] on the ASCII characters: tab to carriage return, the
    four separators 28 to 31, and the space. *)
Definition isspace (c : ascii) : bool :=
  let n := nat_of_ascii c in
  (((9 <=? n) && (n <=? 13)) || ((28 <=? n) && (n <=? 32)))%nat.

(** [s.lstrip()], [s.rstrip()] and [s.strip()] *)
Fixpoint lstrip (s : string) : string :=
  match s with
  | EmptyString => EmptyString
  | String a t => if isspace a then lstrip t else s
  end.

Fixpoint rstrip (s : string) : string :=
  match s with
  | EmptyString => EmptyString
  | String a t =>
      match rstrip t with
      | EmptyString => if isspace a then EmptyString else String a EmptyString
      | r => String a r
      end
  end.

Definition strip (s : string) : string := rstrip (lstrip s).

(** ** update_target_url.py *)

(** The variables of the loop of [update_target_url], lines 16-19. *)
Record url_state : Type := UrlState {
  new_lines : list string;
  in_target_url : bool;
  in_value_block : bool;
  updated : bool
}.

(** The body of the loop, lines 21-56. *)
Definition update_line (new_url : string) (st : url_state) (line : string)
  : url_state :=
  if substr_in "target-url:" line then
    UrlState (new_lines st ++ [line]) true (in_value_block st) (updated st)
  else if in_target_url st && substr_in "value:" line then
    if substr_in ">-" line then
      UrlState (new_lines st ++ [line]) (in_target_url st) true (updated st)
    else
      let indent := split_head "value:" line in
      UrlState (new_lines st ++ [indent +:+ "value: " +:+ new_url +:+ LF])
        false (in_value_block st) true
  else if in_value_block st then
    let indent :=
      substring 0 (String.length line - String.length (lstrip line)) line in
    UrlState (new_lines st ++ [indent +:+ new_url +:+ LF]) false false true
  else
    UrlState (new_lines st ++ [line]) (in_target_url st) (in_value_block st)
      (updated st).

(** [update_target_url], lines 10-63, on the lines read from the file: the
    lines written back and the value returned. *)
Definition update_target_url (lines : list string) (new_url : string)
  : list string * nat :=
  let st := foldl (update_line new_url) (UrlState [] false false false) lines
  in
  (new_lines st, if updated st then 0 else 1).

(** Each line gives one line: itself, or the new URL after the
    indentation taken from it. *)
Definition line_rewritten (new_url old new : string) : Prop :=
  new = old
  ∨ (substr_in "target-url:" old = false
     ∧ (new = split_head "value:" old +:+ "value: " +:+ new_url +:+ LF
        ∨ new
          = substring 0 (String.length old - String.length (lstrip old)) old
            +:+ new_url +:+ LF)).

(** ** merge_apis.py *)

(** [merge_apis], lines 39-46. *)
Definition merge_apis (new_api_list : list string)
    (existing_apis : dict bool) : list string :=
  let merged_apis :=
    foldl (fun (merged_apis : gset string) api =>
             if truthy api && truthy (strip api)
             then merged_apis ∪ {[ strip api ]}
             else merged_apis)
      (list_to_set (keys existing_apis)) new_api_list in
  sorted (elements merged_apis).

(** Adjacent elements in ascending order, for the order of [sorted]. *)
Fixpoint ascending (l : list string) : Prop :=
  match l with
  | [] => True
  | x :: t =>
      match t with
      | [] => True
      | y :: _ => String.leb x y = true
      end ∧ ascending t
  end.

(** ** Data-Config/check_missing_services.py *)

(** [{s['API Name'] for s in services}], line 14; a service without the
    key stops the script with a KeyError ([None]). *)
Fixpoint services_names (services : list service) : option (gset string) :=
  match services with
  | [] => Some ∅
  | s :: t =>
      match get "API Name" s with
      | Some api_name =>
          match services_names t with
          | Some names => Some ({[ api_name ]} ∪ names)
          | None => None
          end
      | None => None
      end
  end.

(** What the script prints: three totals and three sorted lists. *)
Record missing_report : Type := MissingReport {
  total_services : nat;
  total_function_ids : nat;
  total_catalog : nat;
  missing_from_catalog : list string;
  missing_from_function_ids : list string;
  empty_services : list string
}.

(** The script, lines 13-45, on the three parsed JSON files. *)
Definition check_missing_services (services : list service)
    (service_function_ids : dict (list string)) (cat : catalog)
  : option missing_report :=
  match services_names services with
  | None => None
  | Some services_names =>
      let function_ids_names : gset string :=
        list_to_set (keys service_function_ids) in
      let catalog_rest_names : gset string :=
        list_to_set (keys (catalog_REST cat)) in
      let catalog_soap_names : gset string :=
        list_to_set (keys (catalog_SOAP cat)) in
      let catalog_all_names := catalog_rest_names ∪ catalog_soap_names in
      let missing_from_catalog := services_names ∖ catalog_all_names in
      let missing_from_function_ids :=
        services_names ∖ function_ids_names in
      let empty_services :=
        map fst
          (List.filter (fun item => Nat.eqb (length (snd item)) 0)
             (items service_function_ids)) in
      Some
        {| total_services := size services_names;
           total_function_ids := size function_ids_names;
           total_catalog := size catalog_all_names;
           missing_from_catalog := sorted (elements missing_from_catalog);
           missing_from_function_ids :=
             sorted (elements missing_from_function_ids);
           empty_services := sorted empty_services |}
  end.

(** [s.split(c)] for a one-character separator [c], and [sep.join(l)]. *)
Fixpoint split_char (c : ascii) (s : string) : list string :=
  match s with
  | EmptyString => [EmptyString]
  | String a t =>
      if Ascii.eqb a c then EmptyString :: split_char c t
      else match split_char c t with
           | h :: r => String a h :: r
           | [] => [String a EmptyString]
           end
  end.

Fixpoint join (sep : string) (l : list string) : string :=
  match l with
  | [] => EmptyString
  | x :: t =>
      match t with
      | [] => x
      | _ :: _ => x +:+ sep +:+ join sep t
      end
  end.

(** ** parse_json_services.py *)

(** What [parse_services] does with a JSON array: the lines it prints, or
    the number it prints, and its exit status (0 when it returns). *)
Inductive parse_output : Type :=
  | PrintedLines (lines : list string)
  | PrintedCount (n : nat)
  | UnknownMode.

(** The loop of the mode 'names', lines 38-41. *)
Definition names_lines (services : list service) : list string :=
  flat_map
    (fun service =>
       let api_name := get_default "API Name" "" service in
       if truthy api_name && negb (String.eqb api_name "null")
       then [api_name] else [])
    services.

(** The loop of the mode 'full', lines 45-58. *)
Definition full_lines (services : list service) : list string :=
  flat_map
    (fun service =>
       let api_name := get_default "API Name" "" service in
       let url := get_default "Url" "" service in
       let schema := get_default "Schema Location" "" service in
       let tag := get_default "tag" "rest" service in
       if negb (truthy api_name) || String.eqb api_name "null" then []
       else if negb (truthy url) || String.eqb url "null" then []
       else [api_name +:+ "|" +:+ url +:+ "|" +:+ schema +:+ "|" +:+ tag])
    services.

(** [parse_services], lines 9-62, once the file holds a JSON array. *)
Definition parse_services (services : list service) (mode : string)
  : parse_output * nat :=
  if String.eqb mode "validate" then (PrintedCount (length services), 0)
  else if String.eqb mode "count" then (PrintedCount (length services), 0)
  else if String.eqb mode "names" then (PrintedLines (names_lines services), 0)
  else if String.eqb mode "full" then (PrintedLines (full_lines services), 0)
  else (UnknownMode, 1).

(** ** parse_services.py *)

(** The body of the loop of [parse_services_file], lines 16-42, on the
    services and the warnings so far. *)
Definition parse_services_line (st : list service * list string)
    (line : string) : list service * list string :=
  let line := strip line in
  if negb (truthy line) || startswith line "#" then st
  else
    let parts := map strip (split_char "|" line) in
    if Nat.eqb (length parts) 3 then
      let schema_location := index parts 2 in
      let tag :=
        if substr_in "soap" (lower schema_location) then "soap" else "rest" in
      (fst st
       ++ [[("API Name", index parts 0); ("Url", index parts 1);
            ("Schema Location", schema_location); ("tag", tag)]],
       snd st)
    else (fst st, snd st ++ [line]).

(** [parse_services_file], lines 3-44, on the lines of the file: the
    services returned and the lines reported as malformed. *)
Definition parse_services_file (lines : list string)
  : list service * list string :=
  foldl parse_services_line ([], []) lines.


Definition service_of_fields (row : string * string * string) : service :=
  let '(name, url, schema) := row in
  [("API Name", name); ("Url", url); ("Schema Location", schema);
   ("tag", if substr_in "soap" (lower schema) then "soap" else "rest")].


(** ** convert_keys.py: reading the table *)

(** [s.split()]: the maximal runs of characters that are not white space.
    [split_ws_go s] is the run [s] starts with (empty when [s] starts with
    white space) and the runs after it. *)
Fixpoint split_ws_go (s : string) : string * list string :=
  match s with
  | EmptyString => (EmptyString, [])
  | String a t =>
      let '(w, ws) := split_ws_go t in
      if isspace a then (EmptyString, if truthy w then w :: ws else ws)
      else (String a w, ws)
  end.

Definition split_ws (s : string) : list string :=
  let '(w, ws) := split_ws_go s in
  if truthy w then w :: ws else ws.

(** The body of the loop of [parse_mapping], lines 124-131. *)
Definition parse_mapping_line (mapping : list (string * string))
    (line : string) : list (string * string) :=
  let parts := split_ws line in
  if Nat.ltb (length parts) 3 then mapping
  else
    let mapped_name := List.last parts EmptyString in
    let original_name := join " " (List.removelast (List.tl parts)) in
    mapping ++ [(original_name, mapped_name)].

(** [parse_mapping], lines 119-132. *)
Definition parse_mapping (text : string) : list (string * string) :=
  foldl parse_mapping_line [] (split_char "010" (strip text)).

(** A token of the table: not empty, no white space. *)
Fixpoint has_space (s : string) : bool :=
  match s with
  | EmptyString => false
  | String a t => isspace a || has_space t
  end.

Definition is_token (w : string) : Prop :=
  w ≠ EmptyString ∧ has_space w = false.

(** A row of the table (index, words of the original name, mapped name),
    its line, and the text of a table between two line feeds. *)
Definition row_line (row : string * list string * string) : string :=
  let '(index, words, mapped_name) := row in
  join " " (index :: words ++ [mapped_name]).

Definition table_text (rows : list (string * list string * string))
  : string :=
  LF +:+ join LF (map row_line rows) +:+ LF.

(** A string that is not empty and has no white space at its left end,
    or at its right end. *)
Definition starts_clean (s : string) : Prop := lstrip s = s ∧ s ≠ "".
Definition ends_clean (s : string) : Prop := rstrip s = s ∧ s ≠ "".

(** The pair [parse_mapping] builds from a row. *)
Definition row_pair (row : string * list string * string)
  : string * string :=
  let '(_, words, mapped_name) := row in (join " " words, mapped_name).

(** A row that can be written and read back: its index, its words and its
    mapped name are tokens, and it has at least one word. *)
Definition row_ok (row : string * list string * string) : Prop :=
  let '(index, words, mapped_name) := row in
  is_token index ∧ words ≠ [] ∧ (∀ w, w ∈ words → is_token w)
  ∧ is_token mapped_name.

(** ** convert_json_to_yaml.py *)

(** A parsed JSON value. The type of the numbers and their rendering by
    an f-string are parameters of the development. *)
Set Warnings "-register-all".
Inductive json (number : Type) : Type :=
  | JNull
  | JBool (b : bool)
  | JNumber (n : number)
  | JString (s : string)
  | JList (items : list (json number))
  | JDict (members : list (string * json number)).

Arguments JNull {number}.
Arguments JBool {number} b.
Arguments JNumber {number} n.
Arguments JString {number} s.
Arguments JList {number} items.
Arguments JDict {number} members.

(** ['  ' * indent] *)
Fixpoint spaces_of (indent : nat) : string :=
  match indent with
  | O => EmptyString
  | S n => "  " +:+ spaces_of n
  end.

(** The set [excluded_props], line 22, and the list [property_order],
    lines 27-51. *)
Definition excluded_props : list string :=
  ["$schema"; "$id"; "$comment"; "definitions"; "$defs"].

Definition property_order : list string :=
  ["type"; "format"; "title"; "description"; "required"; "enum"; "default";
   "example"; "minimum"; "maximum"; "exclusiveMinimum"; "exclusiveMaximum";
   "minLength"; "maxLength"; "minItems"; "maxItems"; "pattern";
   "properties"; "items"; "additionalProperties"; "allOf"; "oneOf";
   "anyOf"].

Definition mem (x : string) (l : list string) : bool :=
  existsb (String.eqb x) l.

Arguments mem : simpl never.

(** The list [all_keys] for an object with the given keys, lines 54-63.
    *)
Definition yaml_keys (obj_keys : list string) : list string :=
  let all_keys :=
    List.filter (fun prop => mem prop obj_keys && negb (mem prop excluded_props))
      property_order in
  let remaining :=
    sorted
      (List.filter
         (fun k => negb (mem k all_keys) && negb (mem k excluded_props))
         obj_keys) in
  all_keys ++ remaining.

(** The test for quoting a string value, line 78. *)
Definition needs_quotes (value : string) : bool :=
  substr_in ":" value || substr_in "#" value
  || startswith value "*" || startswith value "&" || startswith value "!"
  || String.eqb value EmptyString.

(** The lines of a nested item of a list, lines 90-98, from the lines of
    the item. *)
Definition nested_item_lines (spaces : string) (nested : list string)
  : list string :=
  match nested with
  | [] => [spaces +:+ "-"]
  | first :: others =>
      (spaces +:+ "- " +:+ strip first)
      :: map (fun nested_line => spaces +:+ "  " +:+ strip nested_line) others
  end.

Section JsonToYaml.
Context {number : Type} (str_number : number -> string).

(** The lines for a key of an object, lines 66-85; [nested] gives the
    lines of a nested value. *)
Definition value_lines (nested : json number -> list string)
    (spaces key : string) (value : json number) : list string :=
  match value with
  | JDict _ | JList _ => (spaces +:+ key +:+ ":") :: nested value
  | JBool b => [spaces +:+ key +:+ ": " +:+ (if b then "true" else "false")]
  | JString s =>
      if needs_quotes s then [spaces +:+ key +:+ ": '" +:+ s +:+ "'"]
      else [spaces +:+ key +:+ ": " +:+ s]
  | JNull => [spaces +:+ key +:+ ": null"]
  | JNumber n => [spaces +:+ key +:+ ": " +:+ str_number n]
  end.

(** [value = obj[key]] followed by the lines for the key. *)
Fixpoint dict_entry (nested : json number -> list string) (spaces : string)
    (members : list (string * json number)) (key : string) : list string :=
  match members with
  | [] => []
  | (k, value) :: t =>
      if decide (k = key) then value_lines nested spaces key value
      else dict_entry nested spaces t key
  end.

(** The lines for an item of an array, lines 89-104. *)
Definition item_lines (nested : json number -> list string)
    (spaces : string) (item : json number) : list string :=
  match item with
  | JDict _ | JList _ => nested_item_lines spaces (nested item)
  | JString s => [spaces +:+ "- " +:+ s]
  | JNull => [spaces +:+ "- None"]
  | JBool b => [spaces +:+ "- " +:+ (if b then "True" else "False")]
  | JNumber n => [spaces +:+ "- " +:+ str_number n]
  end.

(** [json_to_yaml], lines 12-106. *)
Fixpoint json_to_yaml (obj : json number) (indent : nat) {struct obj}
  : list string :=
  let spaces := spaces_of indent in
  match obj with
  | JDict members =>
      flat_map
        (dict_entry (fun value => json_to_yaml value (S indent)) spaces
           members)
        (yaml_keys (map fst members))
  | JList items =>
      flat_map
        (item_lines (fun item => json_to_yaml item (S indent)) spaces)
        items
  | _ => []
  end.

End JsonToYaml.

(** The value without the JSON-Schema-only properties, at every depth. *)
Fixpoint prune {number : Type} (obj : json number) : json number :=
  match obj with
  | JDict members =>
      JDict
        (flat_map
           (fun m =>
              if mem (fst m) excluded_props then []
              else [(fst m, prune (snd m))])
           members)
  | JList items => JList (map prune items)
  | _ => obj
  end.

(** A dictionary or a list. *)
Definition is_container {number : Type} (obj : json number) : bool :=
  match obj with
  | JDict _ | JList _ => true
  | _ => false
  end.


(** * Properties *)

(** ** Dictionaries *)

Section DictFacts.
Context {V : Type}.
Implicit Types (d : dict V) (k : string) (v : V).

Lemma get_setitem_eq k v d : get k (setitem k v d) = Some v.
Proof.
  induction d as [|[k' v'] t IH]; simpl.
  - by rewrite decide_True.
  - destruct (decide (k' = k)) as [->|Hne]; simpl.
    + by rewrite decide_True.
    + by rewrite decide_False.
Qed.

Lemma get_setitem_ne k k' v d :
  k ≠ k' → get k' (setitem k v d) = get k' d.
Proof.
  intros Hne. induction d as [|[k0 v0] t IH]; simpl.
  - by rewrite decide_False.
  - destruct (decide (k0 = k)) as [->|Hne0]; simpl.
    + by rewrite !decide_False.
    + destruct (decide (k0 = k')); auto.
Qed.

Lemma get_None k d : get k d = None ↔ k ∉ keys d.
Proof.
  induction d as [|[k' v'] t IH]; simpl.
  - split; [intros _; apply not_elem_of_nil | done].
  - rewrite not_elem_of_cons. destruct (decide (k' = k)) as [->|Hne].
    + split; [done | intros [? _]; done].
    + rewrite IH. split; [intros ?; split; [congruence | done] | tauto].
Qed.

Lemma get_Some_elem k v d : get k d = Some v → (k, v) ∈ d.
Proof.
  induction d as [|[k' v'] t IH]; simpl; [done|].
  destruct (decide (k' = k)) as [->|Hne].
  - intros [= ->]. left.
  - intros H. right. auto.
Qed.

Lemma elem_keys k v d : (k, v) ∈ d → k ∈ keys d.
Proof. intros H. apply (list_elem_of_fmap_2 fst) in H. exact H. Qed.

Lemma elem_get k v d : wf d → (k, v) ∈ d → get k d = Some v.
Proof.
  unfold wf. induction d as [|[k' v'] t IH]; simpl.
  - intros _ H. by apply elem_of_nil in H.
  - intros Hnd H. apply NoDup_cons in Hnd as [Hnotin Hnd].
    apply elem_of_cons in H as [[= -> ->]|H].
    + by rewrite decide_True.
    + rewrite decide_False; [auto|].
      intros ->. apply Hnotin. eapply elem_keys; eauto.
Qed.

Lemma contains_true k d : contains k d = true ↔ k ∈ keys d.
Proof.
  unfold contains. destruct (get k d) eqn:E.
  - split; [intros _|done]. apply get_Some_elem in E.
    eapply elem_keys; eauto.
  - apply get_None in E. split; [done | intros; contradiction].
Qed.

Lemma keys_setitem k v d :
  keys (setitem k v d) = if contains k d then keys d else keys d ++ [k].
Proof.
  unfold contains. induction d as [|[k' v'] t IH]; simpl; [done|].
  destruct (decide (k' = k)) as [->|Hne]; simpl; [done|].
  rewrite IH. by destruct (get k t).
Qed.

Lemma wf_setitem k v d : wf d → wf (setitem k v d).
Proof.
  unfold wf. intros Hnd. rewrite keys_setitem.
  destruct (contains k d) eqn:E; [done|].
  apply NoDup_app. split; [done|]. split; [|apply NoDup_singleton].
  intros x Hx Hx'. apply list_elem_of_singleton in Hx' as ->.
  apply contains_true in Hx. congruence.
Qed.

End DictFacts.

(** ** Strings and loops that collect *)

Lemma prefix_append (p s : string) :
  String.prefix p s = true ↔ ∃ r, s = p +:+ r.
Proof.
  revert s. induction p as [|a p IH]; intros s; simpl.
  - split; [intros _; by exists s | by destruct s].
  - destruct s as [|b s]; simpl.
    + split; [done | intros [r Hr]; discriminate Hr].
    + destruct (ascii_dec a b) as [->|Hne].
      * rewrite IH. split; intros [r Hr]; exists r.
        -- by rewrite Hr.
        -- by injection Hr.
      * split; [done | intros [r Hr]; injection Hr; congruence].
Qed.

Lemma startswith_append (s p : string) :
  startswith s p = true ↔ ∃ r, s = p +:+ r.
Proof. apply prefix_append. Qed.

Lemma elem_of_List_filter {A : Type} (f : A → bool) (l : list A) (x : A) :
  x ∈ List.filter f l ↔ x ∈ l ∧ f x = true.
Proof. rewrite !list_elem_of_In. apply filter_In. Qed.

(** ** The matcher *)

Lemma collect_matches (K : string) (l acc : list (string * service)) :
  foldl (fun matches '(api_name, service_info) =>
           if startswith api_name (K +:+ " ")
           then matches ++ [(api_name, service_info)]
           else matches) acc l
  = acc ++ List.filter (name_matches K) l.
Proof.
  revert acc. induction l as [|[n i] t IH]; intros acc; simpl.
  - by rewrite app_nil_r.
  - rewrite IH. unfold name_matches at 2; simpl.
    destruct (startswith n (K +:+ " ")); [by rewrite <- app_assoc | done].
Qed.

Lemma find_matching_services_prefix (K : string) (d : dict service) :
  get K d = None →
  find_matching_services K d = List.filter (name_matches K) (items d).
Proof.
  intros HK. unfold find_matching_services. rewrite HK.
  apply collect_matches.
Qed.

Lemma find_matching_services_elem (K : string) (d : dict service) n info :
  (n, info) ∈ find_matching_services K d → (n, info) ∈ d.
Proof.
  destruct (get K d) as [i|] eqn:E.
  - unfold find_matching_services. rewrite E.
    intros H. apply list_elem_of_singleton in H as [= -> ->].
    by apply get_Some_elem.
  - rewrite find_matching_services_prefix by done.
    rewrite elem_of_List_filter. by intros [? _].
Qed.

(** C1. A key that is the name of a registered service resolves to that
    service alone, whatever other names have it as a prefix. *)
Theorem find_matching_services_exact (K : string) (d : dict service)
    (info : service) :
  get K d = Some info →
  find_matching_services K d = [(K, info)].
Proof. intros H. unfold find_matching_services. by rewrite H. Qed.

(** C1 at a key that is a registered name and a prefix of two others. *)
Lemma find_matching_services_exact_witness :
  let d := [("Get Card", [("Url", "u1")]);
            ("Get Card Bin", [("Url", "u2")]);
            ("Get Card Info", [("Url", "u3")])] in
  get "Get Card" d = Some [("Url", "u1")]
  ∧ name_matches "Get Card" ("Get Card Bin", [("Url", "u2")]) = true
  ∧ find_matching_services "Get Card" d = [("Get Card", [("Url", "u1")])].
Proof.
  split; [reflexivity|]. split; [reflexivity|].
  apply (find_matching_services_exact "Get Card"). reflexivity.
Defined.

(** C2. A key with no exact match resolves to the services whose name
    starts with the key followed by one space, in the order of the
    registry: a service is returned if and only if its name is the key and
    a space followed by a remainder; a name that only starts with the raw
    key is not returned, and without a name of that form the result is
    empty. *)
Theorem find_matching_services_word_prefix (K : string) (d : dict service) :
  get K d = None →
  find_matching_services K d
  = List.filter (fun item => startswith (fst item) (K +:+ " ")) (items d)
  ∧ (∀ n info, (n, info) ∈ find_matching_services K d
               ↔ (n, info) ∈ items d ∧ ∃ r, n = (K +:+ " ") +:+ r)
  ∧ (∀ n info, (n, info) ∈ items d → startswith n K = true →
               startswith n (K +:+ " ") = false →
               (n, info) ∉ find_matching_services K d)
  ∧ ((∀ n, n ∈ keys d → startswith n (K +:+ " ") = false) →
     find_matching_services K d = []).
Proof.
  intros HK. pose proof (find_matching_services_prefix K d HK) as Heq.
  split; [exact Heq|]. split; [|split].
  - intros n info. rewrite Heq, elem_of_List_filter.
    unfold name_matches; simpl. by rewrite startswith_append.
  - intros n info _ _ Hno. rewrite Heq, elem_of_List_filter.
    unfold name_matches; simpl. intros [_ H]. congruence.
  - intros Hnone. rewrite Heq. unfold items.
    assert (∀ l : list (string * service), (∀ x, x ∈ l → x ∈ d) →
              List.filter (name_matches K) l = []) as Hall.
    { induction l as [|[n i] t IH]; intros Hsub; simpl; [done|].
      unfold name_matches at 1; simpl.
      rewrite (Hnone n).
      - apply IH. intros x Hx. apply Hsub. by right.
      - eapply elem_keys. apply Hsub. left. }
    by apply Hall.
Qed.

(** C2 at the key "Get Card": "Get Cards" starts with the raw key only and
    is left out. *)
Lemma find_matching_services_word_prefix_witness :
  let d := [("Get Card Bin Product List", [("Url", "u1")]);
            ("Get Cards", [("Url", "u2")]);
            ("Get Card Info", [("Url", "u3")])] in
  get "Get Card" d = None
  ∧ find_matching_services "Get Card" d
    = [("Get Card Bin Product List", [("Url", "u1")]);
       ("Get Card Info", [("Url", "u3")])].
Proof.
  split; [reflexivity|].
  destruct (find_matching_services_word_prefix "Get Card"
              [("Get Card Bin Product List", [("Url", "u1")]);
               ("Get Cards", [("Url", "u2")]);
               ("Get Card Info", [("Url", "u3")])]) as [H _];
    [reflexivity|].
  rewrite H. reflexivity.
Defined.

(** ** The validator *)

Lemma missing_keys_loop (d : dict service) (l acc : list string) :
  foldl (fun missing_keys key =>
           match find_matching_services key d with
           | [] => missing_keys ++ [key]
           | _ :: _ => missing_keys
           end) acc l
  = acc ++ filter (λ key, find_matching_services key d = []) l.
Proof.
  revert acc. induction l as [|k l IH]; intros acc; simpl.
  - by rewrite app_nil_r.
  - rewrite IH. destruct (find_matching_services k d) eqn:E.
    + rewrite filter_cons_True by done. by rewrite <- app_assoc.
    + rewrite filter_cons_False; [done|]. by rewrite E.
Qed.

Lemma insert_sorted_perm (x : string) (l : list string) :
  insert_sorted x l ≡ₚ x :: l.
Proof.
  induction l as [|y l IH]; simpl; [done|].
  destruct (String.leb x y); [done|].
  rewrite IH. apply Permutation_swap.
Qed.

Lemma sorted_perm (l : list string) : sorted l ≡ₚ l.
Proof.
  induction l as [|x l IH]; simpl; [done|].
  unfold sorted in *. by rewrite insert_sorted_perm, IH.
Qed.

(** C3. The validator tests every key: its failure list is the keys
    without a match, all of them and in the order of the mapping; it
    passes exactly when that list is empty; the keys it reports are those
    of the list; and for the keys A, B, C against a registry that holds
    only B the list is A, C. *)
Theorem validate_keys_exhaustive (m : dict (list string))
    (d : dict service) :
  missing_keys m d
  = filter (λ key, find_matching_services key d = []) (keys m)
  ∧ (∀ key, key ∈ missing_keys m d
            ↔ key ∈ keys m ∧ find_matching_services key d = [])
  ∧ (validate_keys m d = true ↔ missing_keys m d = [])
  ∧ validate_keys_report m d ≡ₚ missing_keys m d
  ∧ (∀ info : service,
       missing_keys [("A", []); ("B", []); ("C", [])] [("B", info)]
       = ["A"; "C"]
       ∧ validate_keys [("A", []); ("B", []); ("C", [])] [("B", info)]
         = false
       ∧ validate_keys_report [("A", []); ("B", []); ("C", [])]
           [("B", info)] = ["A"; "C"]).
Proof.
  assert (missing_keys m d
          = filter (λ key, find_matching_services key d = []) (keys m))
    as Heq by apply (missing_keys_loop d (keys m) []).
  split; [exact Heq|]. split; [|split; [|split]].
  - intros key. rewrite Heq, list_elem_of_filter. tauto.
  - unfold validate_keys. destruct (missing_keys m d); split; done.
  - apply sorted_perm.
  - intros info. repeat split; reflexivity.
Qed.

(** ** The registry *)

Lemma convert_snoc (arr : list service) (e : service) :
  convert_services_to_dict (arr ++ [e])
  = convert_step (convert_services_to_dict arr) e.
Proof. unfold convert_services_to_dict. by rewrite foldl_app. Qed.

Lemma truthy_true (s : string) : truthy s = true ↔ s ≠ "".
Proof. destruct s; simpl; split; done. Qed.

Lemma get_convert_step (D : dict service) (e : service) (X : string) :
  get X (convert_step D e)
  = if decide (get "API Name" e = Some X ∧ X ≠ "") then Some e
    else get X D.
Proof.
  unfold convert_step. destruct (get "API Name" e) as [n|] eqn:En.
  - destruct (truthy n) eqn:Et.
    + apply truthy_true in Et. destruct (decide (n = X)) as [->|Hne].
      * rewrite get_setitem_eq. by rewrite decide_True.
      * rewrite get_setitem_ne by done. rewrite decide_False; [done|].
        intros [[= ?] _]. done.
    + rewrite decide_False; [done|]. intros [[= ->] HX].
      apply truthy_true in HX. congruence.
  - rewrite decide_False; [done|]. intros [? _]. done.
Qed.

Lemma wf_convert (arr : list service) : wf (convert_services_to_dict arr).
Proof.
  induction arr as [|e arr IH] using rev_ind.
  - apply NoDup_nil_2.
  - rewrite convert_snoc. unfold convert_step.
    destruct (get "API Name" e); [|done].
    destruct (truthy s); [|done]. by apply wf_setitem.
Qed.

Lemma get_convert_last (arr : list service) (X : string) (e : service) :
  get X (convert_services_to_dict arr) = Some e →
  ∃ before after,
    arr = before ++ e :: after
    ∧ get "API Name" e = Some X ∧ X ≠ ""
    ∧ ∀ e', e' ∈ after → get "API Name" e' ≠ Some X.
Proof.
  induction arr as [|e0 arr IH] using rev_ind.
  - done.
  - rewrite convert_snoc, get_convert_step.
    destruct (decide _) as [[Hn HX]|Hno].
    + intros [= ->]. exists arr, []. repeat split; try done.
      intros e' He'. by apply elem_of_nil in He'.
    + intros H. destruct (IH H) as (before & after & -> & Hn & HX & Hlast).
      exists before, (after ++ [e0]). rewrite <- app_assoc. simpl.
      repeat split; try done.
      intros e' He'. apply elem_of_app in He' as [He'|He'].
      * by apply Hlast.
      * apply list_elem_of_singleton in He' as ->.
        intros Hn'. apply Hno. done.
Qed.

Lemma contains_convert (arr : list service) (X : string) :
  contains X (convert_services_to_dict arr) = true
  ↔ X ≠ "" ∧ ∃ e, e ∈ arr ∧ get "API Name" e = Some X.
Proof.
  unfold contains. induction arr as [|e0 arr IH] using rev_ind.
  - simpl. split; [done|]. intros [_ (e & He & _)].
    by apply elem_of_nil in He.
  - rewrite convert_snoc, get_convert_step.
    destruct (decide _) as [[Hn HX]|Hno].
    + split; [intros _|done]. split; [done|]. exists e0.
      split; [|done]. apply elem_of_app. right. left.
    + rewrite IH. split.
      * intros [HX (e & He & Hn)]. split; [done|]. exists e.
        split; [|done]. apply elem_of_app. by left.
      * intros [HX (e & He & Hn)]. split; [done|].
        apply elem_of_app in He as [He|He]; [by exists e|].
        apply list_elem_of_singleton in He as ->. exfalso. by apply Hno.
Qed.

(** ** The schema path rewriter *)

Lemma rsplit1_absent (c : ascii) (s : string) :
  str_in c s = false → rsplit1 c s = [s].
Proof.
  induction s as [|a t IH]; simpl; [done|].
  intros H. apply orb_false_iff in H as [Ha Ht].
  rewrite (IH Ht), Ha. done.
Qed.

Lemma rsplit1_last (c : ascii) (h r : string) :
  str_in c r = false → rsplit1 c (h +:+ String c r) = [h; r].
Proof.
  intros Hr. induction h as [|a h IH]; simpl.
  - rewrite (rsplit1_absent c r Hr). by rewrite Ascii.eqb_refl.
  - by rewrite IH.
Qed.

Lemma str_in_middle (c : ascii) (h r : string) :
  str_in c (h +:+ String c r) = true.
Proof.
  induction h as [|a h IH]; simpl.
  - by rewrite Ascii.eqb_refl.
  - rewrite IH. apply orb_true_r.
Qed.

Lemma str_in_split (c : ascii) (s : string) :
  str_in c s = true →
  ∃ h r, s = h +:+ String c r ∧ str_in c r = false.
Proof.
  induction s as [|a t IH]; simpl; [done|].
  destruct (str_in c t) eqn:Et.
  - intros _. destruct (IH eq_refl) as (h & r & -> & Hr).
    by exists (String a h), r.
  - rewrite orb_false_r. intros Ha. apply Ascii.eqb_eq in Ha as ->.
    by exists "", t.
Qed.

Lemma truthy_append (h : string) (c : ascii) (r : string) :
  truthy (h +:+ String c r) = true.
Proof. by destruct h. Qed.

(** The new file name: the identifier goes before the extension that
    follows the last ".", or at the end of a name without ".". *)
Lemma new_filename_ext (stem ext F : string) :
  str_in "." ext = false →
  new_filename (stem +:+ "." +:+ ext) F
  = stem +:+ "-" +:+ F +:+ "." +:+ ext.
Proof.
  intros Hext. unfold new_filename.
  change (stem +:+ "." +:+ ext) with (stem +:+ String "." ext).
  by rewrite str_in_middle, rsplit1_last.
Qed.

Lemma new_filename_plain (filename F : string) :
  str_in "." filename = false →
  new_filename filename F = filename +:+ "-" +:+ F.
Proof. intros H. unfold new_filename. by rewrite H. Qed.

(** What the rewriter returns, by the shape of the base location. *)
Lemma modified_schema_empty (F : string) : modified_schema "" F = "".
Proof. reflexivity. Qed.

Lemma modified_schema_file (B F : string) :
  B ≠ "" → str_in "/" B = false →
  modified_schema B F = new_filename B F.
Proof.
  intros HB Hno. unfold modified_schema. rewrite Hno.
  apply truthy_true in HB. by rewrite HB.
Qed.

Lemma modified_schema_dir (dir filename F : string) :
  dir ≠ "" → str_in "/" filename = false →
  modified_schema (dir +:+ "/" +:+ filename) F
  = dir +:+ "/" +:+ new_filename filename F.
Proof.
  intros Hdir Hno. unfold modified_schema.
  change (dir +:+ "/" +:+ filename) with (dir +:+ String "/" filename).
  rewrite truthy_append, str_in_middle, rsplit1_last by done.
  destruct dir as [|a dir]; [done|]. reflexivity.
Qed.

Lemma modified_schema_root (filename F : string) :
  str_in "/" filename = false →
  modified_schema ("/" +:+ filename) F = new_filename filename F.
Proof.
  intros Hno. unfold modified_schema.
  change ("/" +:+ filename) with ("" +:+ String "/" filename).
  rewrite truthy_append, str_in_middle, rsplit1_last by done.
  reflexivity.
Qed.

(** A base location with a "/" splits at its last "/"; the directory part
    is put back only when it is not empty. *)
Lemma modified_schema_split (B F : string) :
  str_in "/" B = true →
  ∃ dir filename,
    B = dir +:+ "/" +:+ filename ∧ str_in "/" filename = false
    ∧ modified_schema B F
      = if truthy dir then dir +:+ "/" +:+ new_filename filename F
        else new_filename filename F.
Proof.
  intros H. destruct (str_in_split "/" B H) as (dir & filename & -> & Hno).
  exists dir, filename. split; [done|]. split; [done|].
  destruct dir as [|a dir].
  - exact (modified_schema_root filename F Hno).
  - by apply (modified_schema_dir (String a dir) filename F).
Qed.

(** C5. The examples of the specification hold, but a base location whose
    only "/" is its first character loses it: the empty directory part is
    taken for no directory part. *)
Theorem modified_schema_drops_root_slash :
  modified_schema "a/b/c.xsd" "007" = "a/b/c-007.xsd"
  ∧ modified_schema "c.xsd" "007" = "c-007.xsd"
  ∧ modified_schema "c" "007" = "c-007"
  ∧ modified_schema "" "007" = ""
  ∧ str_in "/" "/c.xsd" = true
  ∧ modified_schema "/c.xsd" "007" = "c-007.xsd"
  ∧ modified_schema "/c.xsd" "007" ≠ "" +:+ "/" +:+ "c-007.xsd".
Proof. repeat split; try reflexivity. discriminate. Qed.

(** ** The catalog as the replay of the appends *)

Lemma cat_get_update (c c' : category) (f : groups → groups)
    (cat : catalog) :
  cat_get c' (cat_update c f cat)
  = if decide (c = c') then f (cat_get c' cat) else cat_get c' cat.
Proof. by destruct c, c', cat. Qed.

Lemma ensure_group_contains (c : category) (k : string) (cat : catalog) :
  contains k (cat_get c (ensure_group c k cat)) = true.
Proof.
  unfold ensure_group. destruct (contains k (cat_get c cat)) eqn:E; [done|].
  rewrite cat_get_update, decide_True by done.
  unfold contains. by rewrite get_setitem_eq.
Qed.

Lemma ensure_group_present (c : category) (k : string) (cat : catalog) :
  contains k (cat_get c cat) = true → ensure_group c k cat = cat.
Proof. intros H. unfold ensure_group. by rewrite H. Qed.

Lemma append_entry_contains (c : category) (k : string) (e : api_entry)
    (cat : catalog) :
  contains k (cat_get c cat) = true →
  contains k (cat_get c (append_entry c k e cat)) = true.
Proof.
  intros H. unfold append_entry.
  destruct (get k (cat_get c cat)) eqn:E; [|done].
  rewrite cat_get_update, decide_True by done.
  unfold contains. by rewrite get_setitem_eq.
Qed.

Lemma group_entries_ensure (c c' : category) (k k' : string)
    (cat : catalog) :
  group_entries c' k' (ensure_group c k cat) = group_entries c' k' cat.
Proof.
  unfold ensure_group, group_entries.
  destruct (contains k (cat_get c cat)) eqn:E; [done|].
  rewrite cat_get_update. destruct (decide (c = c')) as [->|]; [|done].
  destruct (decide (k = k')) as [->|Hne].
  - rewrite get_setitem_eq. unfold contains in E.
    by destruct (get k' (cat_get c' cat)).
  - by rewrite get_setitem_ne.
Qed.

Lemma group_entries_append (c c' : category) (k k' : string)
    (e : api_entry) (cat : catalog) :
  contains k (cat_get c cat) = true →
  group_entries c' k' (append_entry c k e cat)
  = group_entries c' k' cat
    ++ (if bool_decide (c = c' ∧ k = k') then [e] else []).
Proof.
  unfold contains, append_entry, group_entries.
  destruct (get k (cat_get c cat)) as [l|] eqn:E; [intros _|done].
  rewrite cat_get_update. destruct (decide (c = c')) as [->|Hc].
  - destruct (decide (k = k')) as [->|Hk].
    + rewrite get_setitem_eq, E. by rewrite bool_decide_eq_true_2.
    + rewrite get_setitem_ne by done.
      rewrite bool_decide_eq_false_2; [by rewrite app_nil_r|].
      intros [_ ?]. done.
  - rewrite bool_decide_eq_false_2; [by rewrite app_nil_r|].
    intros [? _]. done.
Qed.

Lemma group_entries_apply (c : category) (k : string) (cat : catalog)
    (a : append) :
  group_entries c k (apply_append cat a)
  = group_entries c k cat
    ++ (if bool_decide (ap_category a = c ∧ ap_group a = k)
        then [ap_entry a] else []).
Proof.
  unfold apply_append.
  rewrite group_entries_append by apply ensure_group_contains.
  by rewrite group_entries_ensure.
Qed.

Lemma group_entries_foldl (c : category) (k : string) (log : list append)
    (cat : catalog) :
  group_entries c k (foldl apply_append cat log)
  = group_entries c k cat ++ map ap_entry (to_group c k log).
Proof.
  revert cat. induction log as [|a log IH]; intros cat; simpl.
  - by rewrite app_nil_r.
  - rewrite IH, group_entries_apply, <- app_assoc. f_equal.
    by destruct (bool_decide _).
Qed.

(** The entries of a group of the replayed catalog are the entries of the
    appends that go to it, in the order of the log. *)
Lemma group_entries_replay (c : category) (k : string) (log : list append) :
  group_entries c k (replay log) = map ap_entry (to_group c k log).
Proof. unfold replay. rewrite group_entries_foldl. by destruct c. Qed.

(** Once the group is there, the appends of a match need no test. *)
Lemma foldl_apply_present (p : pass) (c : category) (k s : string)
    (es : list api_entry) (cat : catalog) :
  contains k (cat_get c cat) = true →
  foldl apply_append cat (map (Append p c k s) es)
  = foldl (fun cat e => append_entry c k e cat) cat es.
Proof.
  revert cat. induction es as [|e es IH]; intros cat H; simpl; [done|].
  unfold apply_append at 2; simpl.
  rewrite ensure_group_present by done.
  apply IH. by apply append_entry_contains.
Qed.

Lemma foldl_apply_ensure (p : pass) (c : category) (k s : string)
    (es : list api_entry) (cat : catalog) :
  es ≠ [] →
  foldl apply_append cat (map (Append p c k s) es)
  = foldl (fun cat e => append_entry c k e cat) (ensure_group c k cat) es.
Proof.
  destruct es as [|e es]; [done|]. intros _. simpl.
  unfold apply_append at 2; simpl.
  apply foldl_apply_present, append_entry_contains, ensure_group_contains.
Qed.

Lemma foldl_map {A B C : Type} (f : A → C → A) (g : B → C) (l : list B)
    (a : A) :
  foldl f a (map g l) = foldl (fun a x => f a (g x)) a l.
Proof. revert a. induction l; intros; simpl; auto. Qed.

Lemma foldl_flat_map {A B C : Type} (f : A → C → A) (g : B → list C)
    (l : list B) (a : A) :
  foldl f a (flat_map g l) = foldl (fun a x => foldl f a (g x)) a l.
Proof.
  revert a. induction l as [|x l IH]; intros a; simpl; [done|].
  by rewrite foldl_app, IH.
Qed.

Lemma process_match_replay (k : string) (fids : list string) (st : builder)
    (m : string * service) :
  the_catalog (process_match k fids st m)
  = foldl apply_append (the_catalog st) (match_appends k fids m)
  ∧ processed_services (process_match k fids st m)
    = processed_services st ∪ {[ fst m ]}.
Proof.
  destruct m as [s info]. unfold process_match, match_appends, entries_for.
  simpl. destruct fids as [|f fids]; split; try reflexivity.
  unfold service_category.
  rewrite foldl_apply_ensure by done. by rewrite foldl_map.
Qed.

Lemma process_matches_replay (k : string) (fids : list string)
    (l : list (string * service)) (st : builder) :
  the_catalog (foldl (process_match k fids) st l)
  = foldl apply_append (the_catalog st) (flat_map (match_appends k fids) l)
  ∧ processed_services (foldl (process_match k fids) st l)
    = processed_services st ∪ list_to_set (map fst l).
Proof.
  revert st. induction l as [|m l IH]; intros st; simpl.
  - split; [done|]. by rewrite (right_id_L ∅ (∪)).
  - destruct (IH (process_match k fids st m)) as [-> ->].
    destruct (process_match_replay k fids st m) as [-> ->].
    split; [by rewrite foldl_app|]. by rewrite (assoc_L (∪)).
Qed.

Lemma process_key_replay (d : dict service) (st : builder)
    (item : string * list string) :
  the_catalog (process_key d st item)
  = foldl apply_append (the_catalog st) (key_appends d item)
  ∧ processed_services (process_key d st item)
    = processed_services st
      ∪ list_to_set (map fst (find_matching_services (fst item) d)).
Proof.
  destruct item as [k fids]. unfold process_key, key_appends. simpl.
  destruct (find_matching_services k d) as [|m l] eqn:E.
  - simpl. split; [done|]. by rewrite (right_id_L ∅ (∪)).
  - apply (process_matches_replay k fids (m :: l) st).
Qed.

Lemma process_keys_replay (d : dict service) (l : list (string * list string))
    (st : builder) :
  the_catalog (foldl (process_key d) st l)
  = foldl apply_append (the_catalog st) (flat_map (key_appends d) l)
  ∧ processed_services (foldl (process_key d) st l)
    = processed_services st
      ∪ list_to_set
          (flat_map
             (fun item => map fst (find_matching_services (fst item) d)) l).
Proof.
  revert st. induction l as [|item l IH]; intros st; simpl.
  - split; [done|]. by rewrite (right_id_L ∅ (∪)).
  - destruct (IH (process_key d st item)) as [-> ->].
    destruct (process_key_replay d st item) as [-> ->].
    split; [by rewrite foldl_app|].
    by rewrite list_to_set_app_L, (assoc_L (∪)).
Qed.

(** The first loop: its catalog and its set of processed services. *)
Lemma first_pass_replay (m : dict (list string)) (d : dict service) :
  the_catalog (first_pass m d) = replay (matched_appends m d)
  ∧ processed_services (first_pass m d) = list_to_set (matched_names m d).
Proof.
  unfold first_pass, replay, matched_appends, matched_names.
  destruct (process_keys_replay d (items m) (Builder empty_catalog ∅))
    as [-> ->].
  split; [done|]. simpl. by rewrite (left_id_L ∅ (∪)).
Qed.

Lemma process_unmapped_replay (st : builder) (item : string * service) :
  the_catalog (process_unmapped st item)
  = foldl apply_append (the_catalog st)
      (unmapped_append (processed_services st) item)
  ∧ processed_services (process_unmapped st item) = processed_services st.
Proof.
  destruct item as [s info]. unfold process_unmapped, unmapped_append.
  simpl. by destruct (bool_decide (s ∈ processed_services st)).
Qed.

Lemma process_unmapped_all_replay (l : list (string * service))
    (st : builder) :
  the_catalog (foldl process_unmapped st l)
  = foldl apply_append (the_catalog st)
      (flat_map (unmapped_append (processed_services st)) l).
Proof.
  revert st. induction l as [|item l IH]; intros st; simpl; [done|].
  rewrite IH. destruct (process_unmapped_replay st item) as [-> ->].
  by rewrite foldl_app.
Qed.

(** The catalog of [generate_api_catalog] is the replay of the log. *)
Lemma generate_api_catalog_replay (m : dict (list string))
    (d : dict service) :
  generate_api_catalog m d = replay (appends m d).
Proof.
  unfold generate_api_catalog, appends, unmapped_appends.
  rewrite process_unmapped_all_replay.
  destruct (first_pass_replay m d) as [-> ->].
  unfold replay. by rewrite foldl_app.
Qed.

Lemma group_entries_generate (m : dict (list string)) (d : dict service)
    (c : category) (k : string) :
  group_entries c k (generate_api_catalog m d)
  = map ap_entry (to_group c k (appends m d)).
Proof. by rewrite generate_api_catalog_replay, group_entries_replay. Qed.

(** ** The appends of the log *)

Lemma elem_of_flat_map {A B : Type} (f : A → list B) (l : list A) (y : B) :
  y ∈ flat_map f l ↔ ∃ x, x ∈ l ∧ y ∈ f x.
Proof.
  rewrite list_elem_of_In, in_flat_map.
  split; intros (x & Hx & Hy); exists x; by rewrite ?list_elem_of_In in *.
Qed.

Lemma elem_of_map {A B : Type} (f : A → B) (l : list A) (y : B) :
  y ∈ map f l ↔ ∃ x, y = f x ∧ x ∈ l.
Proof. apply (list_elem_of_fmap f l y). Qed.

Lemma keys_elem {V : Type} (k : string) (d : dict V) :
  k ∈ keys d → ∃ v, (k, v) ∈ d.
Proof.
  unfold keys. rewrite elem_of_map. intros ([k' v] & -> & H). by exists v.
Qed.

Lemma entries_for_length (s : string) (info : service)
    (fids : list string) :
  length (entries_for s info fids)
  = match fids with [] => 1 | _ :: _ => length fids end.
Proof.
  unfold entries_for. destruct fids; [done|]. by rewrite length_map.
Qed.

Lemma entries_for_shape (s : string) (info : service) (fids : list string)
    (e : api_entry) :
  e ∈ entries_for s info fids →
  e = plain_entry s info (lower (get_default "tag" "" info))
  ∨ ∃ f, f ∈ fids
         ∧ e = function_entry s info (lower (get_default "tag" "" info)) f.
Proof.
  unfold entries_for. destruct fids as [|f0 fids].
  - intros H. apply list_elem_of_singleton in H. by left.
  - rewrite elem_of_map. intros (f & -> & Hf). right. by exists f.
Qed.

Lemma elem_of_matched_appends (m : dict (list string)) (d : dict service)
    (a : append) :
  a ∈ matched_appends m d
  ↔ ∃ k fids s info e,
      (k, fids) ∈ m ∧ (s, info) ∈ find_matching_services k d
      ∧ e ∈ entries_for s info fids
      ∧ a = Append Matched (service_category info) k s e.
Proof.
  unfold matched_appends, items. rewrite elem_of_flat_map. split.
  - intros ([k fids] & Hm & Ha). unfold key_appends in Ha. simpl in Ha.
    apply elem_of_flat_map in Ha as ([s info] & Hs & Ha).
    unfold match_appends in Ha. simpl in Ha.
    apply elem_of_map in Ha as (e & -> & He).
    by exists k, fids, s, info, e.
  - intros (k & fids & s & info & e & Hm & Hs & He & ->).
    exists (k, fids). split; [done|]. unfold key_appends. simpl.
    apply elem_of_flat_map. exists (s, info). split; [done|].
    unfold match_appends. simpl. apply elem_of_map. by exists e.
Qed.

Lemma elem_of_matched_names (m : dict (list string)) (d : dict service)
    (s : string) :
  s ∈ matched_names m d
  ↔ ∃ k fids info, (k, fids) ∈ m ∧ (s, info) ∈ find_matching_services k d.
Proof.
  unfold matched_names, items. rewrite elem_of_flat_map. split.
  - intros ([k fids] & Hm & Hs). simpl in Hs.
    apply elem_of_map in Hs as ([s' info] & -> & Hs).
    by exists k, fids, info.
  - intros (k & fids & info & Hm & Hs). exists (k, fids).
    split; [done|]. simpl. apply elem_of_map. by exists (s, info).
Qed.

Lemma elem_of_unmapped_appends (m : dict (list string)) (d : dict service)
    (a : append) :
  a ∈ unmapped_appends m d
  ↔ ∃ s info,
      (s, info) ∈ d ∧ (s ∉ matched_names m d)
      ∧ a = Append Unmapped (service_category info) s s
              (plain_entry s info (lower (get_default "tag" "" info))).
Proof.
  unfold unmapped_appends, items. rewrite elem_of_flat_map. split.
  - intros ([s info] & Hd & Ha). unfold unmapped_append in Ha. simpl in Ha.
    destruct (bool_decide _) eqn:E.
    + by apply elem_of_nil in Ha.
    + apply bool_decide_eq_false in E. rewrite elem_of_list_to_set in E.
      apply list_elem_of_singleton in Ha. by exists s, info.
  - intros (s & info & Hd & Hs & ->). exists (s, info). split; [done|].
    unfold unmapped_append. simpl.
    rewrite bool_decide_eq_false_2; [left|].
    by rewrite elem_of_list_to_set.
Qed.

Lemma elem_of_appends (m : dict (list string)) (d : dict service)
    (a : append) :
  a ∈ appends m d ↔ a ∈ matched_appends m d ∨ a ∈ unmapped_appends m d.
Proof. unfold appends. apply elem_of_app. Qed.

(** Every append comes from a service of the registry, and its entry is
    one of the two entries the script builds from that service. *)
Lemma appends_from_registry (m : dict (list string)) (d : dict service)
    (a : append) :
  a ∈ appends m d →
  ∃ info,
    (ap_service a, info) ∈ d
    ∧ ap_category a = service_category info
    ∧ (ap_entry a
       = plain_entry (ap_service a) info (lower (get_default "tag" "" info))
       ∨ ∃ f, ap_entry a
              = function_entry (ap_service a) info
                  (lower (get_default "tag" "" info)) f).
Proof.
  rewrite elem_of_appends, elem_of_matched_appends,
    elem_of_unmapped_appends.
  intros [(k & fids & s & info & e & Hm & Hs & He & ->)
         |(s & info & Hd & Hs & ->)]; exists info; simpl.
  - split; [by eapply find_matching_services_elem|]. split; [done|].
    apply entries_for_shape in He as [->|(f & _ & ->)]; [by left|].
    right. by exists f.
  - repeat split; try done. by left.
Qed.

Lemma elem_of_to_group (c : category) (k : string) (log : list append)
    (a : append) :
  a ∈ to_group c k log ↔ a ∈ log ∧ ap_category a = c ∧ ap_group a = k.
Proof.
  unfold to_group. rewrite elem_of_List_filter, bool_decide_eq_true. tauto.
Qed.

(** An entry of a group of the catalog is the entry of an append to that
    group. *)
Lemma group_entries_elem (m : dict (list string)) (d : dict service)
    (c : category) (k : string) (e : api_entry) :
  e ∈ group_entries c k (generate_api_catalog m d)
  ↔ ∃ a, a ∈ appends m d ∧ ap_category a = c ∧ ap_group a = k
         ∧ ap_entry a = e.
Proof.
  rewrite group_entries_generate, elem_of_map. split.
  - intros (a & -> & Ha). apply elem_of_to_group in Ha as (? & ? & ?).
    by exists a.
  - intros (a & Ha & Hc & Hk & <-). exists a. split; [done|].
    by apply elem_of_to_group.
Qed.

(** ** The registry and the catalog *)

(** C10. The registry built from the services array has a key X exactly
    when some element has the non-empty "API Name" X, and maps X to the
    last such element; an element whose "API Name" is absent or empty is
    no value of the registry, so every match of a key and every entry of
    the catalog comes from an element with a non-empty "API Name". *)
Theorem convert_services_to_dict_registry (services_array : list service) :
  let registry := convert_services_to_dict services_array in
  (∀ X, contains X registry = true
        ↔ X ≠ "" ∧ ∃ e, e ∈ services_array ∧ get "API Name" e = Some X)
  ∧ (∀ X e, get X registry = Some e →
       ∃ before after,
         services_array = before ++ e :: after
         ∧ get "API Name" e = Some X
         ∧ ∀ e', e' ∈ after → get "API Name" e' ≠ Some X)
  ∧ (∀ X e, (X, e) ∈ items registry →
       get "API Name" e = Some X ∧ X ≠ "")
  ∧ (∀ key name info,
       (name, info) ∈ find_matching_services key registry →
       info ∈ services_array
       ∧ get "API Name" info = Some name ∧ name ≠ "")
  ∧ (∀ m c k entry,
       entry ∈ group_entries c k (generate_api_catalog m registry) →
       ∃ name info,
         info ∈ services_array
         ∧ get "API Name" info = Some name ∧ name ≠ ""
         ∧ (entry
            = plain_entry name info (lower (get_default "tag" "" info))
            ∨ ∃ f, entry
                   = function_entry name info
                       (lower (get_default "tag" "" info)) f)).
Proof.
  intros registry.
  assert (∀ X e, (X, e) ∈ items registry →
            e ∈ services_array ∧ get "API Name" e = Some X ∧ X ≠ "")
    as Hitems.
  { intros X e He. apply elem_get in He; [|apply wf_convert].
    apply get_convert_last in He as (before & after & -> & Hn & HX & _).
    split; [|done]. apply elem_of_app. right. left. }
  split; [apply contains_convert|]. split; [|split; [|split]].
  - intros X e He.
    apply get_convert_last in He as (before & after & -> & Hn & HX & Hl).
    by exists before, after.
  - intros X e He. by apply Hitems in He as (_ & ? & ?).
  - intros key name info Hm.
    apply find_matching_services_elem in Hm. by apply Hitems.
  - intros m c k entry He.
    apply group_entries_elem in He as (a & Ha & _ & _ & <-).
    apply appends_from_registry in Ha as (info & Hd & _ & Hshape).
    apply Hitems in Hd as (Hin & Hn & Hne).
    by exists (ap_service a), info.
Qed.

(** ** Entries of the catalog and services of the registry *)

(** C7, as stated, fails: the tag of an entry is the lower-cased tag of
    the service, so a service tagged "REST" gives an entry tagged "rest". *)
Lemma tag_not_copied_unmodified :
  ¬ (∀ (m : dict (list string)) (d : dict service) (c : category)
       (k : string) (e : api_entry),
       e ∈ group_entries c k (generate_api_catalog m d) →
       ∃ s info, (s, info) ∈ d
                 ∧ Url e = get_default "Url" "" info
                 ∧ tag e = get_default "tag" "" info).
Proof.
  intros H.
  destruct (H [] [("A", [("API Name", "A"); ("Url", "u"); ("tag", "REST")])]
              REST "A" (ApiEntry "A" "u" "" "rest"))
    as (s & info & Hd & _ & Ht).
  - replace (group_entries _ _ _) with [ApiEntry "A" "u" "" "rest"]
      by reflexivity.
    left.
  - apply list_elem_of_singleton in Hd as [= -> ->]. discriminate Ht.
Qed.

(** C9. The scenario of the specification: the service "Get LOV" with the
    function identifier 47. *)
Theorem get_lov_scenario :
  let registry :=
    convert_services_to_dict
      [[("API Name", "Get LOV"); ("Url", "https://x");
        ("Schema Location", "s/lov.xsd"); ("tag", "rest")]] in
  validate_keys [("Get LOV", ["47"])] registry = true
  ∧ generate_api_catalog [("Get LOV", ["47"])] registry
    = {| catalog_REST :=
           [("Get LOV",
             [{| API_Name := "Get LOV 47"; Url := "https://x";
                 Schema_Location := "s/lov-47.xsd"; tag := "rest" |}])];
         catalog_SOAP := [] |}.
Proof. split; reflexivity. Qed.

(** ** The entries of a key of the mapping *)

Lemma List_filter_all {A : Type} (f : A → bool) (l : list A) :
  (∀ x, x ∈ l → f x = true) → List.filter f l = l.
Proof.
  induction l as [|x l IH]; intros H; simpl; [done|].
  rewrite (H x) by left. f_equal. apply IH. intros y Hy. apply H. by right.
Qed.

Lemma List_filter_none {A : Type} (f : A → bool) (l : list A) :
  (∀ x, x ∈ l → f x = false) → List.filter f l = [].
Proof.
  induction l as [|x l IH]; intros H; simpl; [done|].
  rewrite (H x) by left. apply IH. intros y Hy. apply H. by right.
Qed.

Lemma to_group_app (c : category) (k : string) (l1 l2 : list append) :
  to_group c k (l1 ++ l2) = to_group c k l1 ++ to_group c k l2.
Proof. apply List.filter_app. Qed.

Lemma to_group_other (c : category) (k : string) (log : list append) :
  (∀ a, a ∈ log → ap_group a ≠ k) → to_group c k log = [].
Proof.
  intros H. apply List_filter_none. intros a Ha.
  apply bool_decide_eq_false_2. intros [_ Hk]. by apply (H a).
Qed.

Lemma to_group_match (c : category) (K : string) (fids : list string)
    (x : string * service) :
  map ap_entry (to_group c K (match_appends K fids x))
  = if bool_decide (service_category (snd x) = c)
    then entries_for (fst x) (snd x) fids else [].
Proof.
  unfold match_appends. destruct (bool_decide _) eqn:E.
  - apply bool_decide_eq_true in E. unfold to_group.
    rewrite List_filter_all.
    + rewrite map_map. simpl. apply map_id.
    + intros a Ha. apply elem_of_map in Ha as (e & -> & _). simpl.
      by apply bool_decide_eq_true_2.
  - apply bool_decide_eq_false in E. unfold to_group.
    rewrite List_filter_none; [done|].
    intros a Ha. apply elem_of_map in Ha as (e & -> & _). simpl.
    apply bool_decide_eq_false_2. intros [? _]. done.
Qed.

Lemma to_group_key (c : category) (K : string) (fids : list string)
    (d : dict service) :
  map ap_entry (to_group c K (key_appends d (K, fids)))
  = flat_map (fun x => entries_for (fst x) (snd x) fids)
      (List.filter (fun x => bool_decide (service_category (snd x) = c))
         (find_matching_services K d)).
Proof.
  unfold key_appends. simpl.
  induction (find_matching_services K d) as [|x l IH]; simpl; [done|].
  rewrite to_group_app, map_app, IH, to_group_match.
  by destruct (bool_decide _).
Qed.

Lemma key_appends_group (d : dict service) (item : string * list string)
    (a : append) :
  a ∈ key_appends d item → ap_group a = fst item.
Proof.
  unfold key_appends. rewrite elem_of_flat_map. intros (x & _ & Ha).
  unfold match_appends in Ha. by apply elem_of_map in Ha as (e & -> & _).
Qed.

Lemma to_group_absent_key (c : category) (K : string)
    (m : dict (list string)) (d : dict service) :
  K ∉ keys m → to_group c K (matched_appends m d) = [].
Proof.
  intros HK. apply to_group_other. intros a Ha.
  apply elem_of_flat_map in Ha as ([k fids] & Hm & Ha).
  apply key_appends_group in Ha as ->. simpl. intros ->.
  apply HK. eapply elem_keys; eauto.
Qed.

Lemma to_group_matched (c : category) (K : string) (fids : list string)
    (m : dict (list string)) (d : dict service) :
  wf m → (K, fids) ∈ m →
  to_group c K (matched_appends m d)
  = to_group c K (key_appends d (K, fids)).
Proof.
  unfold wf. induction m as [|[k f] m IH]; simpl; intros Hnd Hin.
  - by apply elem_of_nil in Hin.
  - apply NoDup_cons in Hnd as [Hk Hnd].
    change (matched_appends ((k, f) :: m) d)
      with (key_appends d (k, f) ++ matched_appends m d).
    rewrite to_group_app.
    apply elem_of_cons in Hin as [[= <- <-]|Hin].
    + rewrite (to_group_absent_key c K m d Hk). by rewrite app_nil_r.
    + rewrite (IH Hnd Hin). rewrite to_group_other; [done|].
      intros a Ha. apply key_appends_group in Ha as ->. simpl.
      intros ->. apply Hk. eapply elem_keys; eauto.
Qed.

Lemma to_group_unmapped (c : category) (K : string) (fids : list string)
    (m : dict (list string)) (d : dict service) :
  (K, fids) ∈ m → to_group c K (unmapped_appends m d) = [].
Proof.
  intros Hin. apply to_group_other. intros a Ha.
  apply elem_of_unmapped_appends in Ha as (s & info & Hd & Hs & ->).
  simpl. intros ->. apply Hs. apply elem_of_matched_names.
  destruct (get K d) as [v|] eqn:E.
  - exists K, fids, v. split; [done|].
    unfold find_matching_services. rewrite E. left.
  - apply get_None in E. exfalso. apply E. eapply elem_keys; eauto.
Qed.

(** The group of a key of the mapping holds what the matches of the key
    contribute, match after match. *)
Lemma group_entries_key (m : dict (list string)) (d : dict service)
    (K : string) (fids : list string) (c : category) :
  wf m → (K, fids) ∈ m →
  group_entries c K (generate_api_catalog m d)
  = flat_map (fun x => entries_for (fst x) (snd x) fids)
      (List.filter (fun x => bool_decide (service_category (snd x) = c))
         (find_matching_services K d)).
Proof.
  intros Hwf Hin. rewrite group_entries_generate. unfold appends.
  rewrite to_group_app, (to_group_unmapped c K fids m d Hin), app_nil_r.
  rewrite (to_group_matched c K fids m d Hwf Hin). apply to_group_key.
Qed.

Lemma flat_map_by_category {A : Type} (f : string * service → list A)
    (n : nat) (l : list (string * service)) :
  (∀ x, length (f x) = n) →
  length
    (flat_map f
       (List.filter (fun x => bool_decide (service_category (snd x) = REST))
          l))
  + length
      (flat_map f
         (List.filter
            (fun x => bool_decide (service_category (snd x) = SOAP)) l))
  = length l * n.
Proof.
  intros Hn. induction l as [|x l IH]; simpl; [done|].
  destruct (service_category (snd x)); simpl;
    rewrite length_app, Hn; lia.
Qed.

(** C6, as stated, fails where a key has several matches: the key "Get"
    with one function identifier and two matches gives two entries. *)
Lemma two_matches_double_the_entries :
  ¬ (∀ (m : dict (list string)) (d : dict service) (K : string)
       (fids : list string),
       wf m → (K, fids) ∈ m → fids ≠ [] →
       length (group_entries REST K (generate_api_catalog m d))
       + length (group_entries SOAP K (generate_api_catalog m d))
       = length fids).
Proof.
  intros H.
  specialize (H [("Get", ["1"])]
                [("Get A", [("API Name", "Get A"); ("tag", "rest")]);
                 ("Get B", [("API Name", "Get B"); ("tag", "rest")])]
                "Get" ["1"]).
  assert (2 = 1) as Habs; [|discriminate Habs].
  apply H.
  - apply NoDup_singleton.
  - left.
  - discriminate.
Qed.

(** C6, amended. A key of the mapping with N function identifiers gives N
    entries for each of its matches, so N times the number of matches in
    all, each named by the matched service, a space and the identifier,
    with the rewritten schema location; a key without function identifiers
    gives one entry for each match, named by the matched service, with the
    schema location as it is. *)
Theorem key_entries_per_match (m : dict (list string)) (d : dict service)
    (K : string) (fids : list string) :
  wf m → (K, fids) ∈ m →
  let cat := generate_api_catalog m d in
  let matches := find_matching_services K d in
  let of_category c :=
    List.filter (fun x => bool_decide (service_category (snd x) = c))
      matches in
  (∀ c, fids = [] →
     group_entries c K cat
     = map (fun x =>
              {| API_Name := fst x;
                 Url := get_default "Url" "" (snd x);
                 Schema_Location := get_default "Schema Location" "" (snd x);
                 tag := lower (get_default "tag" "" (snd x)) |})
         (of_category c))
  ∧ (∀ c, fids ≠ [] →
       group_entries c K cat
       = flat_map
           (fun x =>
              map (fun function_id =>
                     {| API_Name := fst x +:+ " " +:+ function_id;
                        Url := get_default "Url" "" (snd x);
                        Schema_Location :=
                          modified_schema
                            (get_default "Schema Location" "" (snd x))
                            function_id;
                        tag := lower (get_default "tag" "" (snd x)) |})
                fids)
           (of_category c))
  ∧ length (group_entries REST K cat) + length (group_entries SOAP K cat)
    = length matches * match fids with [] => 1 | _ :: _ => length fids end.
Proof.
  intros Hwf Hin cat matches of_category.
  assert (∀ c, group_entries c K cat
               = flat_map (fun x => entries_for (fst x) (snd x) fids)
                   (of_category c)) as Hgroup.
  { intros c. by apply group_entries_key. }
  split; [|split].
  - intros c ->. rewrite Hgroup.
    induction (of_category c) as [|x l IH]; [done|].
    change (flat_map ?f (x :: l)) with (f x ++ flat_map f l).
    rewrite IH. reflexivity.
  - intros c Hne. rewrite Hgroup. destruct fids as [|f fids]; [done|].
    reflexivity.
  - rewrite !Hgroup. apply flat_map_by_category.
    intros x. apply entries_for_length.
Qed.

(** ** Groups of the replayed catalog *)

Lemma get_ensure_group (c c' : category) (k k' : string) (cat : catalog) :
  get k' (cat_get c' (ensure_group c k cat))
  = if bool_decide (c = c' ∧ k = k')
    then Some (group_entries c' k' cat)
    else get k' (cat_get c' cat).
Proof.
  unfold ensure_group, group_entries, contains.
  destruct (get k (cat_get c cat)) as [l|] eqn:E.
  - destruct (bool_decide _) eqn:B; [|done].
    apply bool_decide_eq_true in B as [-> ->]. by rewrite E.
  - rewrite cat_get_update. destruct (decide (c = c')) as [->|Hc].
    + destruct (decide (k = k')) as [->|Hk].
      * rewrite get_setitem_eq, E. by rewrite bool_decide_eq_true_2.
      * rewrite get_setitem_ne by done.
        rewrite bool_decide_eq_false_2; [done|]. by intros [_ ?].
    + rewrite bool_decide_eq_false_2; [done|]. by intros [? _].
Qed.

Lemma get_append_entry (c c' : category) (k k' : string) (e : api_entry)
    (cat : catalog) :
  contains k (cat_get c cat) = true →
  get k' (cat_get c' (append_entry c k e cat))
  = if bool_decide (c = c' ∧ k = k')
    then Some (group_entries c' k' cat ++ [e])
    else get k' (cat_get c' cat).
Proof.
  unfold append_entry, group_entries, contains.
  destruct (get k (cat_get c cat)) as [l|] eqn:E; [intros _|done].
  rewrite cat_get_update. destruct (decide (c = c')) as [->|Hc].
  - destruct (decide (k = k')) as [->|Hk].
    + rewrite get_setitem_eq, E. by rewrite bool_decide_eq_true_2.
    + rewrite get_setitem_ne by done.
      rewrite bool_decide_eq_false_2; [done|]. by intros [_ ?].
  - rewrite bool_decide_eq_false_2; [done|]. by intros [? _].
Qed.

Lemma get_apply_append (c : category) (k : string) (cat : catalog)
    (a : append) :
  get k (cat_get c (apply_append cat a))
  = if bool_decide (ap_category a = c ∧ ap_group a = k)
    then Some (group_entries c k cat ++ [ap_entry a])
    else get k (cat_get c cat).
Proof.
  unfold apply_append.
  rewrite get_append_entry by apply ensure_group_contains.
  rewrite group_entries_ensure, get_ensure_group.
  destruct (bool_decide _); done.
Qed.

Lemma keys_cat_update (c c' : category) (k : string) (v : list api_entry)
    (cat : catalog) :
  keys (cat_get c' (cat_update c (setitem k v) cat))
  = if decide (c = c')
    then (if contains k (cat_get c' cat) then keys (cat_get c' cat)
          else keys (cat_get c' cat) ++ [k])
    else keys (cat_get c' cat).
Proof.
  rewrite cat_get_update. destruct (decide (c = c')); [|done].
  apply keys_setitem.
Qed.

Lemma keys_apply_append (c : category) (cat : catalog) (a : append) :
  keys (cat_get c (apply_append cat a))
  = if bool_decide (ap_category a = c)
       && negb (contains (ap_group a) (cat_get c cat))
    then keys (cat_get c cat) ++ [ap_group a]
    else keys (cat_get c cat).
Proof.
  unfold apply_append, append_entry.
  pose proof (ensure_group_contains (ap_category a) (ap_group a) cat) as Hc.
  unfold contains in Hc.
  destruct (get (ap_group a) (cat_get (ap_category a) (ensure_group _ _ cat)))
    as [l|] eqn:E; [clear Hc|done].
  rewrite keys_cat_update.
  destruct (decide (ap_category a = c)) as [<-|Hne].
  - rewrite bool_decide_eq_true_2 by done. simpl.
    rewrite (ensure_group_contains (ap_category a) (ap_group a) cat).
    unfold ensure_group.
    destruct (contains (ap_group a) (cat_get (ap_category a) cat)) eqn:C;
      [done|].
    simpl. rewrite keys_cat_update, decide_True by done. by rewrite C.
  - rewrite bool_decide_eq_false_2 by done. simpl.
    unfold ensure_group.
    destruct (contains (ap_group a) (cat_get (ap_category a) cat)); [done|].
    by rewrite keys_cat_update, decide_False.
Qed.

Lemma cat_get_ensure_other (c c' : category) (k : string) (cat : catalog) :
  c ≠ c' → cat_get c' (ensure_group c k cat) = cat_get c' cat.
Proof.
  intros Hne. unfold ensure_group.
  destruct (contains k (cat_get c cat)); [done|].
  by rewrite cat_get_update, decide_False.
Qed.

Lemma cat_get_append_other (c c' : category) (k : string) (e : api_entry)
    (cat : catalog) :
  c ≠ c' → cat_get c' (append_entry c k e cat) = cat_get c' cat.
Proof.
  intros Hne. unfold append_entry.
  destruct (get k (cat_get c cat)); [|done].
  by rewrite cat_get_update, decide_False.
Qed.

Lemma api_count_setitem (k : string) (v : list api_entry) (g : groups) :
  api_count (setitem k v g)
  + match get k g with Some l => length l | None => 0 end
  = api_count g + length v.
Proof.
  unfold api_count. induction g as [|[k' l'] g IH]; simpl; [lia|].
  destruct (decide (k' = k)) as [->|Hne]; simpl; lia.
Qed.

Lemma api_count_apply_append (c : category) (cat : catalog) (a : append) :
  api_count (cat_get c (apply_append cat a))
  = api_count (cat_get c cat)
    + (if bool_decide (ap_category a = c) then 1 else 0).
Proof.
  unfold apply_append.
  destruct (decide (ap_category a = c)) as [<-|Hne].
  - rewrite bool_decide_eq_true_2 by done.
    set (cat1 := ensure_group (ap_category a) (ap_group a) cat).
    assert (api_count (cat_get (ap_category a) cat1)
            = api_count (cat_get (ap_category a) cat)) as Hens.
    { unfold cat1, ensure_group, contains.
      destruct (get (ap_group a) (cat_get (ap_category a) cat)) eqn:E;
        [done|].
      rewrite cat_get_update, decide_True by done.
      pose proof (api_count_setitem (ap_group a) []
                    (cat_get (ap_category a) cat)) as H.
      rewrite E in H. simpl in H. lia. }
    pose proof (ensure_group_contains (ap_category a) (ap_group a) cat)
      as Hc.
    fold cat1 in Hc. unfold contains in Hc. unfold append_entry.
    destruct (get (ap_group a) (cat_get (ap_category a) cat1)) as [l|] eqn:E;
      [|done].
    rewrite cat_get_update, decide_True by done.
    pose proof (api_count_setitem (ap_group a) (l ++ [ap_entry a])
                  (cat_get (ap_category a) cat1)) as H.
    rewrite E, length_app in H. simpl in H. lia.
  - rewrite bool_decide_eq_false_2 by done.
    rewrite cat_get_append_other, cat_get_ensure_other by done. lia.
Qed.

Lemma api_count_foldl (c : category) (log : list append) (cat : catalog) :
  api_count (cat_get c (foldl apply_append cat log))
  = api_count (cat_get c cat)
    + length (List.filter (fun a => bool_decide (ap_category a = c)) log).
Proof.
  revert cat. induction log as [|a log IH]; intros cat; simpl; [lia|].
  rewrite IH, api_count_apply_append.
  destruct (bool_decide (ap_category a = c)); simpl; lia.
Qed.

Lemma groups_ok_apply_append (c : category) (cat : catalog) (a : append) :
  groups_ok (cat_get c cat) → groups_ok (cat_get c (apply_append cat a)).
Proof.
  intros [Hwf Hne]. split.
  - unfold wf. rewrite keys_apply_append.
    destruct (bool_decide _ && negb _) eqn:B; [|exact Hwf].
    apply andb_true_iff in B as [_ B]. apply negb_true_iff in B.
    apply NoDup_app. split; [exact Hwf|]. split; [|apply NoDup_singleton].
    intros x Hx Hx'. apply list_elem_of_singleton in Hx' as ->.
    apply contains_true in Hx. congruence.
  - intros k l. rewrite get_apply_append.
    destruct (bool_decide _); [|apply Hne].
    intros [= <-]. by destruct (group_entries c k cat).
Qed.

Lemma groups_ok_foldl (c : category) (log : list append) (cat : catalog) :
  groups_ok (cat_get c cat) →
  groups_ok (cat_get c (foldl apply_append cat log)).
Proof.
  revert cat. induction log as [|a log IH]; intros cat H; simpl; [done|].
  by apply IH, groups_ok_apply_append.
Qed.

Lemma groups_ok_generate (m : dict (list string)) (d : dict service)
    (c : category) :
  groups_ok (cat_get c (generate_api_catalog m d)).
Proof.
  rewrite generate_api_catalog_replay. apply groups_ok_foldl.
  split; [destruct c; apply NoDup_nil_2 | by destruct c].
Qed.

Lemma elem_keys_foldl (c : category) (k : string) (log : list append)
    (cat : catalog) :
  k ∈ keys (cat_get c (foldl apply_append cat log))
  ↔ k ∈ keys (cat_get c cat)
    ∨ ∃ a, a ∈ log ∧ ap_category a = c ∧ ap_group a = k.
Proof.
  revert cat. induction log as [|a log IH]; intros cat; simpl.
  - split; [by left|]. intros [?|(a & Ha & _)]; [done|].
    by apply elem_of_nil in Ha.
  - rewrite IH, keys_apply_append. split.
    + intros [H|(a' & Ha' & Hc & Hk)].
      * destruct (bool_decide _ && negb _) eqn:B; [|by left].
        apply andb_true_iff in B as [B _]. apply bool_decide_eq_true in B.
        apply elem_of_app in H as [H|H]; [by left|].
        apply list_elem_of_singleton in H as ->. right. exists a.
        split; [left|done].
      * right. exists a'. split; [by right|done].
    + intros [H|(a' & Ha' & Hc & Hk)].
      * left. destruct (bool_decide _ && negb _); [|done].
        apply elem_of_app. by left.
      * apply elem_of_cons in Ha' as [->|Ha'].
        -- left. rewrite bool_decide_eq_true_2 by done. simpl.
           destruct (contains (ap_group a) (cat_get c cat)) eqn:C; simpl.
           ++ subst k. by apply contains_true.
           ++ apply elem_of_app. right. subst k. left.
        -- right. by exists a'.
Qed.

Lemma elem_keys_generate (m : dict (list string)) (d : dict service)
    (c : category) (k : string) :
  k ∈ keys (cat_get c (generate_api_catalog m d))
  ↔ ∃ a, a ∈ appends m d ∧ ap_category a = c ∧ ap_group a = k.
Proof.
  rewrite generate_api_catalog_replay. unfold replay.
  rewrite elem_keys_foldl. split; [|by right].
  intros [H|H]; [|done]. destruct c; by apply elem_of_nil in H.
Qed.

Lemma entries_for_nonempty (s : string) (info : service)
    (fids : list string) :
  ∃ e, e ∈ entries_for s info fids.
Proof.
  pose proof (entries_for_length s info fids) as Hlen.
  destruct (entries_for s info fids) as [|e es].
  - destruct fids; simpl in Hlen; lia.
  - exists e. left.
Qed.

(** ** Where the entries of a group come from *)

Lemma entries_for_cases (s : string) (info : service) (fids : list string)
    (e : api_entry) :
  e ∈ entries_for s info fids
  ↔ (fids = []
     ∧ e = {| API_Name := s;
              Url := get_default "Url" "" info;
              Schema_Location := get_default "Schema Location" "" info;
              tag := lower (get_default "tag" "" info) |})
    ∨ (∃ function_id,
         function_id ∈ fids
         ∧ e = {| API_Name := s +:+ " " +:+ function_id;
                  Url := get_default "Url" "" info;
                  Schema_Location :=
                    modified_schema
                      (get_default "Schema Location" "" info) function_id;
                  tag := lower (get_default "tag" "" info) |}).
Proof.
  unfold entries_for. destruct fids as [|f0 fids].
  - rewrite list_elem_of_singleton. split.
    + intros ->. by left.
    + intros [[_ ->]|(f & Hf & _)]; [done|]. by apply elem_of_nil in Hf.
  - rewrite elem_of_map. split.
    + intros (f & -> & Hf). right. by exists f.
    + intros [[? _]|(f & Hf & ->)]; [done|]. by exists f.
Qed.

Lemma matched_names_keys (m : dict (list string)) (d : dict service)
    (s : string) :
  s ∈ matched_names m d
  ↔ ∃ key, key ∈ keys m ∧ s ∈ map fst (find_matching_services key d).
Proof.
  rewrite elem_of_matched_names. split.
  - intros (k & fids & info & Hm & Hs). exists k.
    split; [by eapply elem_keys|]. apply elem_of_map. by exists (s, info).
  - intros (k & Hk & Hs). apply keys_elem in Hk as [fids Hm].
    apply elem_of_map in Hs as ([s' info] & -> & Hs).
    by exists k, fids, info.
Qed.

(** An entry of a group comes from a match of the group's key, or from
    the service the group is named after when no key matches it. *)
Lemma group_entries_source (m : dict (list string)) (d : dict service)
    (c : category) (k : string) (e : api_entry) :
  e ∈ group_entries c k (generate_api_catalog m d)
  ↔ (∃ fids s info,
       (k, fids) ∈ m ∧ (s, info) ∈ find_matching_services k d
       ∧ service_category info = c ∧ e ∈ entries_for s info fids)
    ∨ (∃ info,
         (k, info) ∈ d ∧ (k ∉ matched_names m d)
         ∧ service_category info = c
         ∧ e = plain_entry k info (lower (get_default "tag" "" info))).
Proof.
  rewrite group_entries_elem. split.
  - intros (a & Ha & Hc & Hk & He). apply elem_of_appends in Ha as [Ha|Ha].
    + apply elem_of_matched_appends in Ha
        as (k' & fids & s & info & e' & Hm & Hs & He' & ->).
      simpl in *. subst. left. by exists fids, s, info.
    + apply elem_of_unmapped_appends in Ha as (s & info & Hd & Hs & ->).
      simpl in *. subst. right. by exists info.
  - intros [(fids & s & info & Hm & Hs & Hc & He)|(info & Hd & Hs & Hc & ->)].
    + exists (Append Matched (service_category info) k s e).
      split; [|done]. apply elem_of_appends. left.
      apply elem_of_matched_appends. by exists k, fids, s, info, e.
    + eexists. split.
      * apply elem_of_appends. right. apply elem_of_unmapped_appends.
        by exists k, info.
      * done.
Qed.

(** A group of the catalog is a key of the mapping with a match, or the
    name of a service that no key matches. *)
Lemma group_key_source (m : dict (list string)) (d : dict service)
    (c : category) (k : string) :
  k ∈ keys (cat_get c (generate_api_catalog m d)) →
  (∃ fids s info,
     (k, fids) ∈ m ∧ (s, info) ∈ find_matching_services k d
     ∧ service_category info = c)
  ∨ (∃ info,
       (k, info) ∈ d ∧ (k ∉ matched_names m d)
       ∧ service_category info = c).
Proof.
  rewrite elem_keys_generate. intros (a & Ha & Hc & Hk).
  apply elem_of_appends in Ha as [Ha|Ha].
  - apply elem_of_matched_appends in Ha
      as (k' & fids & s & info & e & Hm & Hs & He & ->).
    simpl in *. subst. left. by exists fids, s, info.
  - apply elem_of_unmapped_appends in Ha as (s & info & Hd & Hs & ->).
    simpl in *. subst. right. by exists info.
Qed.

Lemma get_group_entries (c : category) (k : string) (cat : catalog)
    (e : api_entry) (l : list api_entry) :
  group_entries c k cat = e :: l → get k (cat_get c cat) = Some (e :: l).
Proof.
  unfold group_entries. destruct (get k (cat_get c cat)); [|done].
  by intros ->.
Qed.

(** A key of the mapping that names a service of the registry matches
    it. *)
Lemma key_in_registry_matched (m : dict (list string)) (d : dict service)
    (s : string) :
  s ∈ keys m → s ∈ keys d → s ∈ matched_names m d.
Proof.
  intros Hm Hd. apply matched_names_keys. exists s. split; [done|].
  unfold find_matching_services. destruct (get s d) as [info|] eqn:E.
  - left.
  - by apply get_None in E.
Qed.

Lemma NoDup_keys_filter {V : Type} (f : string * V → bool) (d : dict V) :
  NoDup (map fst d) → NoDup (map fst (List.filter f d)).
Proof.
  induction d as [|[k v] d IH]; simpl; intros H; [done|].
  apply NoDup_cons in H as [Hk H]. destruct (f (k, v)); [|by apply IH].
  simpl. apply NoDup_cons. split; [|by apply IH].
  rewrite elem_of_map. intros ([k' v'] & Heq & Hin). simpl in Heq. subst k'.
  apply elem_of_List_filter in Hin as [Hin _].
  apply Hk. apply elem_of_map. by exists (k, v').
Qed.

(** The matches of a key name a service at most once. *)
Lemma NoDup_find_matching_services (K : string) (d : dict service) :
  wf d → NoDup (map fst (find_matching_services K d)).
Proof.
  intros Hwf. destruct (get K d) as [info|] eqn:E.
  - unfold find_matching_services. rewrite E. apply NoDup_singleton.
  - rewrite find_matching_services_prefix by done.
    by apply NoDup_keys_filter.
Qed.

(** The second pass appends to the group of a name for the service of
    that name only. *)
Lemma to_group_unmapped_own (P : gset string) (c : category) (s : string)
    (info : service) (d : dict service) :
  wf d → (s, info) ∈ d →
  to_group c s (flat_map (unmapped_append P) d)
  = to_group c s (unmapped_append P (s, info)).
Proof.
  unfold wf. induction d as [|[k v] d IH]; simpl; intros Hnd Hin.
  - by apply elem_of_nil in Hin.
  - apply NoDup_cons in Hnd as [Hk Hnd]. rewrite to_group_app.
    apply elem_of_cons in Hin as [[= <- <-]|Hin].
    + rewrite (to_group_other c s (flat_map _ d)); [by rewrite app_nil_r|].
      intros a Ha Hs.
      apply elem_of_flat_map in Ha as ([k' v'] & Hd & Ha).
      unfold unmapped_append in Ha. simpl in Ha.
      destruct (bool_decide _); [by apply elem_of_nil in Ha|].
      apply list_elem_of_singleton in Ha as ->. simpl in Hs. subst k'.
      apply Hk. eapply elem_keys; eauto.
    + rewrite (IH Hnd Hin). rewrite (to_group_other c s); [done|].
      intros a Ha Hs. unfold unmapped_append in Ha. simpl in Ha.
      destruct (bool_decide _); [by apply elem_of_nil in Ha|].
      apply list_elem_of_singleton in Ha as ->. simpl in Hs. subst k.
      apply Hk. eapply elem_keys; eauto.
Qed.

(** The group of a service that no key matches. *)
Lemma group_entries_unmatched (m : dict (list string)) (d : dict service)
    (c : category) (s : string) (info : service) :
  wf d → (s, info) ∈ d → s ∉ matched_names m d →
  group_entries c s (generate_api_catalog m d)
  = if bool_decide (service_category info = c)
    then [plain_entry s info (lower (get_default "tag" "" info))]
    else [].
Proof.
  intros Hwf Hin Hs. rewrite group_entries_generate. unfold appends.
  rewrite to_group_app, to_group_absent_key, app_nil_l.
  - unfold unmapped_appends, items.
    rewrite (to_group_unmapped_own _ c s info d Hwf Hin).
    unfold unmapped_append. simpl.
    rewrite bool_decide_eq_false_2 by by rewrite elem_of_list_to_set.
    unfold to_group. simpl.
    destruct (decide (service_category info = c)) as [Hc|Hc].
    + by rewrite !bool_decide_eq_true_2.
    + rewrite !bool_decide_eq_false_2; [done|done|]. by intros [? _].
  - intros Hk. apply Hs. apply key_in_registry_matched; [done|].
    by eapply elem_keys.
Qed.

(** ** Entries and their service definitions *)

(** C7, amended. Every entry of a group of the catalog, of either pass,
    is built from a service definition of the registry that is tied to the
    group and to the entry's name: a match of the group's key in the first
    pass, the entry being named after that match (with a function
    identifier of the key appended when the key has some), or, in the
    second pass, the service the group is named after, which no key
    matches; its schema location is the one computed from that definition.
    The entry has the "Url" of that definition unmodified (the
    empty string when the definition has none) and its "tag" in lower case
    (the empty string when it has none), and sits in the category of that
    tag. *)
Theorem entry_url_and_tag (m : dict (list string)) (d : dict service)
    (c : category) (k : string) (e : api_entry) :
  e ∈ group_entries c k (generate_api_catalog m d) →
  ∃ s info,
    (s, info) ∈ items d
    ∧ ((∃ fids,
          (k, fids) ∈ items m
          ∧ (s, info) ∈ find_matching_services k d
          ∧ (fids = [] ∧ API_Name e = s
               ∧ Schema_Location e = get_default "Schema Location" "" info
             ∨ ∃ function_id,
                 function_id ∈ fids
                 ∧ API_Name e = s +:+ " " +:+ function_id
                 ∧ Schema_Location e
                   = modified_schema
                       (get_default "Schema Location" "" info) function_id))
       ∨ (k = s ∧ API_Name e = s
          ∧ Schema_Location e = get_default "Schema Location" "" info
          ∧ ∀ key, key ∈ keys m →
              s ∉ map fst (find_matching_services key d)))
    ∧ Url e = get_default "Url" "" info
    ∧ tag e = lower (get_default "tag" "" info)
    ∧ c = category_of (tag e).
Proof.
  rewrite group_entries_source.
  intros [(fids & s & info & Hm & Hs & Hc & He)|(info & Hd & Hs & Hc & ->)].
  - exists s, info. split; [by eapply find_matching_services_elem|].
    apply entries_for_cases in He as [[-> ->]|(f & Hf & ->)]; simpl.
    + split; [|done]. left. exists []. split; [done|]. split; [done|].
      by left.
    + split; [|done]. left. exists fids. split; [done|]. split; [done|].
      right. by exists f.
  - exists k, info. split; [done|]. simpl. split; [|done]. right.
    split; [done|]. split; [done|]. split; [done|].
    intros key Hkey Hin. apply Hs.
    apply matched_names_keys. by exists key.
Qed.

(** C7, amended, at the entry of a prefix match tagged "REST". *)
Lemma entry_url_and_tag_witness :
  let m := [("Get", ["1"])] in
  let info := [("API Name", "Get A"); ("Url", "u"); ("tag", "REST")] in
  let d := [("Get A", info);
            ("B", [("API Name", "B"); ("Url", "v"); ("tag", "Soap")])] in
  let e := ApiEntry "Get A 1" "u" "" "rest" in
  e ∈ group_entries REST "Get" (generate_api_catalog m d)
  ∧ ∃ s info,
      (s, info) ∈ items d
      ∧ ((∃ fids,
            ("Get", fids) ∈ items m
            ∧ (s, info) ∈ find_matching_services "Get" d
            ∧ (fids = [] ∧ API_Name e = s
                 ∧ Schema_Location e = get_default "Schema Location" "" info
               ∨ ∃ function_id,
                   function_id ∈ fids
                   ∧ API_Name e = s +:+ " " +:+ function_id
                   ∧ Schema_Location e
                     = modified_schema
                         (get_default "Schema Location" "" info)
                         function_id))
         ∨ ("Get" = s ∧ API_Name e = s
            ∧ Schema_Location e = get_default "Schema Location" "" info
            ∧ ∀ key, key ∈ keys m →
                s ∉ map fst (find_matching_services key d)))
      ∧ Url e = get_default "Url" "" info
      ∧ tag e = lower (get_default "tag" "" info)
      ∧ REST = category_of (tag e).
Proof.
  assert (ApiEntry "Get A 1" "u" "" "rest"
          ∈ group_entries REST "Get"
              (generate_api_catalog [("Get", ["1"])]
                 [("Get A",
                   [("API Name", "Get A"); ("Url", "u"); ("tag", "REST")]);
                  ("B", [("API Name", "B"); ("Url", "v"); ("tag", "Soap")])]))
    as Hin.
  { replace (group_entries _ _ _) with [ApiEntry "Get A 1" "u" "" "rest"]
      by reflexivity.
    left. }
  split; [exact Hin|].
  exact (entry_url_and_tag _ _ _ _ _ Hin).
Defined.

(** ** Every service is in the catalog *)

(** C8. Every service of the registry appears in the catalog, under its
    category: with one entry for each function identifier (or one entry
    when there is none) under every key of the mapping that matches it,
    and with one standalone entry under its own name when no key matches
    it; so every service has at least one entry built from its definition.
    Every entry of the catalog is built from the definition of a service
    of the registry.  Hence the services the catalog refers to are exactly
    those of the registry, and any duplicate-free list of them has the
    length of the registry. *)
Theorem every_service_in_catalog (m : dict (list string))
    (d : dict service) :
  wf d →
  let cat := generate_api_catalog m d in
  let category_of_service (info : service) : category :=
    category_of (lower (get_default "tag" "" info)) in
  let standalone (s : string) (info : service) : api_entry :=
    {| API_Name := s;
       Url := get_default "Url" "" info;
       Schema_Location := get_default "Schema Location" "" info;
       tag := lower (get_default "tag" "" info) |} in
  let expanded (s : string) (info : service) (function_id : string)
    : api_entry :=
    {| API_Name := s +:+ " " +:+ function_id;
       Url := get_default "Url" "" info;
       Schema_Location :=
         modified_schema (get_default "Schema Location" "" info) function_id;
       tag := lower (get_default "tag" "" info) |} in
  let built_from (e : api_entry) (s : string) (info : service) : Prop :=
    e = standalone s info ∨ ∃ function_id, e = expanded s info function_id in
  let referenced (s : string) : Prop :=
    ∃ info c k e,
      get s d = Some info ∧ e ∈ group_entries c k cat ∧ built_from e s info in
  (∀ s info key fids,
     (s, info) ∈ items d → (key, fids) ∈ items m →
     (s, info) ∈ find_matching_services key d →
     (fids = [] →
        standalone s info ∈ group_entries (category_of_service info) key cat)
     ∧ (∀ function_id, function_id ∈ fids →
          expanded s info function_id
          ∈ group_entries (category_of_service info) key cat))
  ∧ (∀ s info,
       (s, info) ∈ items d →
       (∀ key, key ∈ keys m → s ∉ map fst (find_matching_services key d)) →
       standalone s info ∈ group_entries (category_of_service info) s cat)
  ∧ (∀ s info,
       (s, info) ∈ items d →
       ∃ k e,
         e ∈ group_entries (category_of_service info) k cat
         ∧ built_from e s info
         ∧ ((∃ fids, (k, fids) ∈ items m
                     ∧ (s, info) ∈ find_matching_services k d)
            ∨ (k = s ∧ e = standalone s info
               ∧ ∀ key, key ∈ keys m →
                   s ∉ map fst (find_matching_services key d))))
  ∧ (∀ c k e,
       e ∈ group_entries c k cat →
       ∃ s info,
         get s d = Some info ∧ c = category_of_service info
         ∧ built_from e s info)
  ∧ (∀ s, referenced s ↔ s ∈ keys d)
  ∧ (∀ l, NoDup l → (∀ s, s ∈ l ↔ referenced s) → length l = length d).
Proof.
  intros Hwf cat category_of_service standalone expanded built_from
    referenced.
  assert (∀ s info fids e,
            e ∈ entries_for s info fids → built_from e s info) as Hbuilt.
  { intros s info fids e He.
    apply entries_for_cases in He as [[_ ->]|(f & _ & ->)]; [by left|].
    right. by exists f. }
  assert (∀ s info key fids e,
            (key, fids) ∈ m → (s, info) ∈ find_matching_services key d →
            e ∈ entries_for s info fids →
            e ∈ group_entries (category_of_service info) key cat) as Hfirst.
  { intros s info key fids e Hm Hs He. apply group_entries_source. left.
    by exists fids, s, info. }
  assert (∀ s info,
            (s, info) ∈ d → (s ∉ matched_names m d) →
            standalone s info ∈ group_entries (category_of_service info) s cat)
    as Hsecond.
  { intros s info Hd Hs. apply group_entries_source. right. by exists info. }
  assert (∀ s info,
            (s, info) ∈ d →
            ∃ k e,
              e ∈ group_entries (category_of_service info) k cat
              ∧ built_from e s info
              ∧ ((∃ fids, (k, fids) ∈ m
                          ∧ (s, info) ∈ find_matching_services k d)
                 ∨ (k = s ∧ e = standalone s info
                    ∧ ∀ key, key ∈ keys m →
                        s ∉ map fst (find_matching_services key d))))
    as Hsome.
  { intros s info Hd. destruct (decide (s ∈ matched_names m d)) as [Hs|Hs].
    - apply elem_of_matched_names in Hs as (k & fids & info' & Hm & Hf).
      assert (info' = info) as ->.
      { apply find_matching_services_elem in Hf.
        apply (elem_get _ _ _ Hwf) in Hd, Hf. congruence. }
      destruct (entries_for_nonempty s info fids) as [e He].
      exists k, e. split; [by eapply Hfirst|]. split; [by eapply Hbuilt|].
      left. by exists fids.
    - exists s, (standalone s info). split; [by apply Hsecond|].
      split; [by left|]. right. split; [done|]. split; [done|].
      intros key Hkey Hin. apply Hs. apply matched_names_keys.
      by exists key. }
  assert (∀ c k e,
            e ∈ group_entries c k cat →
            ∃ s info,
              get s d = Some info ∧ c = category_of_service info
              ∧ built_from e s info) as Hsound.
  { intros c k e He. apply group_entries_source in He
      as [(fids & s & info & Hm & Hs & Hc & He)|(info & Hd & Hs & Hc & ->)].
    - exists s, info. split.
      + apply elem_get; [done|]. by eapply find_matching_services_elem.
      + split; [done|]. by eapply Hbuilt.
    - exists k, info. split; [by apply elem_get|]. split; [done|]. by left. }
  assert (∀ s, referenced s ↔ s ∈ keys d) as Hset.
  { intros s. split.
    - intros (info & c & k & e & Hget & _).
      apply get_Some_elem in Hget. by eapply elem_keys.
    - intros Hs. apply keys_elem in Hs as [info Hd].
      destruct (Hsome s info Hd) as (k & e & He & Hb & _).
      exists info, (category_of_service info), k, e.
      split; [by apply elem_get|done]. }
  split; [|split; [|split; [exact Hsome|split; [exact Hsound|split]]]].
  - intros s info key fids Hd Hm Hs. split.
    + intros ->. apply (Hfirst s info key []); [done|done|left].
    + intros f Hf. apply (Hfirst s info key fids); [done|done|].
      apply entries_for_cases. right. by exists f.
  - intros s info Hd Hno. apply Hsecond; [done|].
    rewrite matched_names_keys. intros (key & Hkey & Hin).
    by apply (Hno key).
  - exact Hset.
  - intros l Hl Hiff. rewrite <- (length_map fst d).
    apply Permutation_length, NoDup_Permutation.
    + exact Hl.
    + exact Hwf.
    + intros s. rewrite Hiff. apply Hset.
Qed.

(** ** Where a service appears *)

(** C4, as stated, fails: two keys of a mapping that passes validation
    may match the same service, which is then expanded under both. *)
Lemma service_under_two_keys :
  let m := [("Get", []); ("Get Card", [])] in
  let d := [("Get Card Info",
             [("API Name", "Get Card Info"); ("Url", "u"); ("tag", "rest")])]
  in
  let e := {| API_Name := "Get Card Info"; Url := "u";
              Schema_Location := ""; tag := "rest" |} in
  wf m ∧ wf d ∧ validate_keys m d = true
  ∧ generate_api_catalog m d
    = {| catalog_REST := [("Get", [e]); ("Get Card", [e])];
         catalog_SOAP := [] |}
  ∧ e ∈ group_entries REST "Get" (generate_api_catalog m d)
  ∧ e ∈ group_entries REST "Get Card" (generate_api_catalog m d)
  ∧ "Get" ≠ "Get Card".
Proof.
  simpl. split; [|split; [apply NoDup_singleton|]].
  - apply NoDup_cons. split; [|apply NoDup_singleton].
    rewrite list_elem_of_singleton. discriminate.
  - split; [reflexivity|]. split; [reflexivity|].
    split; [left|]. split; [left|]. discriminate.
Qed.

(** C4, amended. Where a service of the registry appears in the catalog.
    The group of a key of the mapping holds, for each match of the key in
    turn (those of the group's category), the entries expanded from that
    match, and nothing else; a service occurs at most once among the
    matches of a key, with its definition of the registry.  So a service
    is expanded exactly once under every key that matches it, in the group
    of that key in its category, and under no other key.  A service that no key matches is no key of the mapping and has
    exactly one entry, standalone, in the group of its own name in its
    category, and no group of that name in the other category.  A service
    that some key matches has no standalone entry: unless its name is
    itself a key of the mapping (whose group is as said above), no group
    has its name.  There is no other group: a group that is no key of the
    mapping is named after a service that no key matches. *)
Theorem service_placements (m : dict (list string)) (d : dict service)
    (s : string) (info : service) :
  wf m → wf d → (s, info) ∈ items d →
  let cat := generate_api_catalog m d in
  let category_of_service (info : service) : category :=
    category_of (lower (get_default "tag" "" info)) in
  let standalone (s : string) (info : service) : api_entry :=
    {| API_Name := s;
       Url := get_default "Url" "" info;
       Schema_Location := get_default "Schema Location" "" info;
       tag := lower (get_default "tag" "" info) |} in
  let expanded (fids : list string) (x : string * service)
    : list api_entry :=
    match fids with
    | [] => [standalone (fst x) (snd x)]
    | _ :: _ =>
        map (fun function_id =>
               {| API_Name := fst x +:+ " " +:+ function_id;
                  Url := get_default "Url" "" (snd x);
                  Schema_Location :=
                    modified_schema
                      (get_default "Schema Location" "" (snd x)) function_id;
                  tag := lower (get_default "tag" "" (snd x)) |})
          fids
    end in
  let matched (s : string) : Prop :=
    ∃ key, key ∈ keys m ∧ s ∈ map fst (find_matching_services key d) in
  (∀ c key fids,
     (key, fids) ∈ items m →
     group_entries c key cat
     = flat_map (expanded fids)
         (List.filter
            (fun x => bool_decide (category_of_service (snd x) = c))
            (find_matching_services key d)))
  ∧ (∀ key fids,
       (key, fids) ∈ items m →
       s ∈ map fst (find_matching_services key d) →
       ∃ before after,
         find_matching_services key d = before ++ (s, info) :: after
         ∧ (s ∉ map fst before) ∧ (s ∉ map fst after)
         ∧ group_entries (category_of_service info) key cat
           = flat_map (expanded fids)
               (List.filter
                  (fun x =>
                     bool_decide
                       (category_of_service (snd x)
                        = category_of_service info))
                  before)
             ++ expanded fids (s, info)
             ++ flat_map (expanded fids)
                  (List.filter
                     (fun x =>
                        bool_decide
                          (category_of_service (snd x)
                           = category_of_service info))
                     after))
  ∧ (¬ matched s →
       (s ∉ keys m)
       ∧ get s (cat_get (category_of_service info) cat)
         = Some [standalone s info]
       ∧ ∀ c, c ≠ category_of_service info → get s (cat_get c cat) = None)
  ∧ (matched s → s ∉ keys m → ∀ c, get s (cat_get c cat) = None)
  ∧ (∀ c k,
       k ∈ keys (cat_get c cat) →
       k ∈ keys m ∨ ∃ info', (k, info') ∈ items d ∧ ¬ matched k).
Proof.
  intros Hm Hd Hin cat category_of_service standalone expanded matched.
  assert (∀ x, matched x ↔ x ∈ matched_names m d) as Hmatched.
  { intros x. symmetry. apply matched_names_keys. }
  assert (∀ c key fids,
            (key, fids) ∈ m →
            group_entries c key cat
            = flat_map (expanded fids)
                (List.filter
                   (fun x => bool_decide (category_of_service (snd x) = c))
                   (find_matching_services key d))) as Hgroup.
  { intros c key fids Hkey. unfold cat.
    rewrite (group_entries_key m d key fids c Hm Hkey). reflexivity. }
  split; [exact Hgroup|]. split; [|split; [|split]].
  - intros key fids Hkey Hs.
    apply elem_of_map in Hs as ([s' info'] & Heq & Hs). simpl in Heq.
    subst s'.
    assert (info' = info) as ->.
    { apply find_matching_services_elem in Hs.
      apply (elem_get _ _ _ Hd) in Hin, Hs. congruence. }
    pose proof (NoDup_find_matching_services key d Hd) as Hnd.
    apply list_elem_of_split in Hs as (before & after & Heq).
    exists before, after. split; [done|].
    rewrite Heq, map_app in Hnd. simpl in Hnd.
    apply NoDup_app in Hnd as (_ & Hdisj & Hnd).
    apply NoDup_cons in Hnd as [Hafter _].
    split; [intros Hb; apply (Hdisj s Hb); left|]. split; [done|].
    rewrite (Hgroup _ key fids Hkey), Heq.
    rewrite List.filter_app, flat_map_app. simpl.
    by rewrite bool_decide_eq_true_2.
  - intros Hno. rewrite Hmatched in Hno.
    assert (s ∉ keys m) as Hkey.
    { intros Hk. apply Hno. apply key_in_registry_matched; [done|].
      by eapply elem_keys. }
    split; [exact Hkey|]. split.
    + apply get_group_entries. unfold cat.
      rewrite (group_entries_unmatched m d _ s info Hd Hin Hno).
      by rewrite bool_decide_eq_true_2.
    + intros c Hc. apply get_None. intros Hk.
      apply group_key_source in Hk
        as [(fids & s' & info' & Hk & _)|(info' & Hin' & _ & Hc')].
      * apply Hkey. by eapply elem_keys.
      * apply Hc. rewrite <- Hc'.
        assert (info' = info) as ->; [|done].
        apply (elem_get _ _ _ Hd) in Hin, Hin'. congruence.
  - intros Hyes Hkey c. rewrite Hmatched in Hyes. apply get_None. intros Hk.
    apply group_key_source in Hk
      as [(fids & s' & info' & Hk & _)|(info' & _ & Hno & _)].
    + apply Hkey. by eapply elem_keys.
    + done.
  - intros c k Hk.
    apply group_key_source in Hk
      as [(fids & s' & info' & Hk & _)|(info' & Hin' & Hno & _)].
    + left. by eapply elem_keys.
    + right. exists info'. split; [done|]. by rewrite Hmatched.
Qed.

(** ** The theorems at concrete inputs *)

(** C6, amended, at a key with two function identifiers and two matches,
    one in each category: four entries. *)
Lemma key_entries_per_match_witness :
  let m := [("Get", ["1"; "2"])] in
  let d := [("Get A", [("API Name", "Get A"); ("tag", "rest")]);
            ("Get B", [("API Name", "Get B"); ("tag", "SOAP")])] in
  wf m ∧ ("Get", ["1"; "2"]) ∈ m
  ∧ length (group_entries REST "Get" (generate_api_catalog m d))
    + length (group_entries SOAP "Get" (generate_api_catalog m d))
    = 2 * 2.
Proof.
  assert (wf [("Get", ["1"; "2"])]) as Hwf by apply NoDup_singleton.
  assert (("Get", ["1"; "2"]) ∈ [("Get", ["1"; "2"])]) as Hin by left.
  split; [exact Hwf|]. split; [exact Hin|].
  exact (proj2 (proj2
    (key_entries_per_match [("Get", ["1"; "2"])]
       [("Get A", [("API Name", "Get A"); ("tag", "rest")]);
        ("Get B", [("API Name", "Get B"); ("tag", "SOAP")])]
       "Get" ["1"; "2"] Hwf Hin))).
Defined.

(** C8 at a registry of two services: "Get A" is expanded under the key
    "Get", "Other" stands alone under its own name. *)
Lemma every_service_in_catalog_witness :
  let m := [("Get", ["1"; "2"])] in
  let d := [("Get A",
             [("API Name", "Get A"); ("Url", "a");
              ("Schema Location", "x/a.xsd"); ("tag", "rest")]);
            ("Other", [("API Name", "Other"); ("Url", "o"); ("tag", "SOAP")])]
  in
  wf d
  ∧ {| API_Name := "Get A 2"; Url := "a";
       Schema_Location := "x/a-2.xsd"; tag := "rest" |}
    ∈ group_entries REST "Get" (generate_api_catalog m d)
  ∧ {| API_Name := "Other"; Url := "o";
       Schema_Location := ""; tag := "soap" |}
    ∈ group_entries SOAP "Other" (generate_api_catalog m d).
Proof.
  assert (wf [("Get A",
               [("API Name", "Get A"); ("Url", "a");
                ("Schema Location", "x/a.xsd"); ("tag", "rest")]);
              ("Other",
               [("API Name", "Other"); ("Url", "o"); ("tag", "SOAP")])])
    as Hwf.
  { apply NoDup_cons. split; [|apply NoDup_singleton].
    rewrite list_elem_of_singleton. discriminate. }
  destruct (every_service_in_catalog [("Get", ["1"; "2"])] _ Hwf)
    as (Hfirst & Hsecond & _).
  split; [exact Hwf|]. split.
  - apply (proj2 (Hfirst "Get A" _ "Get" ["1"; "2"]
                    ltac:(left) ltac:(left) ltac:(left)) "2").
    right. left.
  - apply (Hsecond "Other" _ ltac:(right; left)).
    intros key Hkey. apply list_elem_of_singleton in Hkey as ->.
    change (find_matching_services "Get" _)
      with [("Get A",
             [("API Name", "Get A"); ("Url", "a");
              ("Schema Location", "x/a.xsd"); ("tag", "rest")])].
    simpl. rewrite list_elem_of_singleton. discriminate.
Defined.

(** C4, amended, at a service matched by one key, which is expanded under
    that key and has no group of its own, and at a service that no key
    matches, which has its one entry under its own name. *)
Lemma service_placements_witness :
  let m := [("Get", ["1"; "2"])] in
  let info := [("API Name", "Get A"); ("Url", "a"); ("tag", "rest")] in
  let d := [("Get A", info);
            ("Other", [("API Name", "Other"); ("Url", "o"); ("tag", "soap")])]
  in
  wf m ∧ wf d ∧ ("Get A", info) ∈ items d
  ∧ (∃ key, key ∈ keys m
            ∧ "Get A" ∈ map fst (find_matching_services key d))
  ∧ ("Get A" ∉ keys m)
  ∧ group_entries REST "Get" (generate_api_catalog m d)
    = [ {| API_Name := "Get A 1"; Url := "a";
           Schema_Location := ""; tag := "rest" |};
        {| API_Name := "Get A 2"; Url := "a";
           Schema_Location := ""; tag := "rest" |} ]
  ∧ (∀ c, get "Get A" (cat_get c (generate_api_catalog m d)) = None)
  ∧ get "Other" (cat_get SOAP (generate_api_catalog m d))
    = Some [ {| API_Name := "Other"; Url := "o";
                Schema_Location := ""; tag := "soap" |} ]
  ∧ get "Other" (cat_get REST (generate_api_catalog m d)) = None.
Proof.
  assert (wf [("Get", ["1"; "2"])]) as Hm by apply NoDup_singleton.
  assert (wf [("Get A",
               [("API Name", "Get A"); ("Url", "a"); ("tag", "rest")]);
              ("Other",
               [("API Name", "Other"); ("Url", "o"); ("tag", "soap")])])
    as Hd.
  { apply NoDup_cons. split; [|apply NoDup_singleton].
    rewrite list_elem_of_singleton. discriminate. }
  assert (∃ key, key ∈ keys [("Get", ["1"; "2"])]
                 ∧ "Get A"
                   ∈ map fst
                       (find_matching_services key
                          [("Get A",
                            [("API Name", "Get A"); ("Url", "a");
                             ("tag", "rest")]);
                           ("Other",
                            [("API Name", "Other"); ("Url", "o");
                             ("tag", "soap")])])) as Hmatched.
  { exists "Get". split; left. }
  assert ("Get A" ∉ keys [("Get", ["1"; "2"])]) as Hkey.
  { simpl. rewrite list_elem_of_singleton. discriminate. }
  destruct (service_placements [("Get", ["1"; "2"])] _ "Get A" _ Hm Hd
              ltac:(left)) as (Hgroup & _ & _ & Hnone & _).
  split; [exact Hm|]. split; [exact Hd|]. split; [left|].
  destruct (service_placements [("Get", ["1"; "2"])] _ "Other" _ Hm Hd
              ltac:(right; left)) as (_ & _ & Halone & _).
  destruct Halone as (_ & Hown & Hother).
  { intros (key & Hk & Hin). apply list_elem_of_singleton in Hk as ->.
    apply list_elem_of_singleton in Hin. discriminate Hin. }
  split; [exact Hmatched|]. split; [exact Hkey|].
  split; [exact (Hgroup REST "Get" ["1"; "2"] ltac:(left))|].
  split; [exact (Hnone Hmatched Hkey)|].
  split; [exact Hown|]. by apply Hother.
Defined.

(** * Further properties of the generator *)

Lemma length_matched_appends (m : dict (list string)) (d : dict service) :
  length (matched_appends m d)
  = sum_list_with
      (fun item =>
         length (find_matching_services (fst item) d)
         * match snd item with [] => 1 | _ :: _ => length (snd item) end)
      m.
Proof.
  unfold matched_appends, items.
  induction m as [|[k fids] m IH]; simpl; [done|].
  rewrite length_app, IH. f_equal. unfold key_appends. simpl.
  induction (find_matching_services k d) as [|x l IHl]; simpl; [done|].
  rewrite length_app, IHl. unfold match_appends.
  by rewrite length_map, entries_for_length.
Qed.

Lemma length_unmapped_by (N : list string) (l : list (string * service)) :
  length (flat_map (unmapped_append (list_to_set N)) l)
  = length (List.filter (fun item => bool_decide (fst item ∉ N)) l).
Proof.
  induction l as [|[s info] l IH]; simpl; [done|].
  rewrite length_app, IH. unfold unmapped_append. simpl.
  destruct (decide (s ∈ N)) as [Hs|Hs].
  - rewrite bool_decide_eq_true_2 by by rewrite elem_of_list_to_set.
    by rewrite bool_decide_eq_false_2 by by intros H.
  - rewrite bool_decide_eq_false_2 by by rewrite elem_of_list_to_set.
    by rewrite bool_decide_eq_true_2.
Qed.

Lemma length_unmapped_appends (m : dict (list string)) (d : dict service) :
  length (unmapped_appends m d)
  = length
      (List.filter
         (fun item => bool_decide (fst item ∉ matched_names m d))
         (items d)).
Proof. apply length_unmapped_by. Qed.

Lemma length_by_category (log : list append) :
  length (List.filter (fun a => bool_decide (ap_category a = REST)) log)
  + length (List.filter (fun a => bool_decide (ap_category a = SOAP)) log)
  = length log.
Proof.
  induction log as [|a log IH]; simpl; [done|].
  destruct (ap_category a); simpl; lia.
Qed.

(** X1. In the catalog, whatever the inputs, no group key occurs twice in
    a category and no group is empty, so the number of services printed
    for a category never exceeds its number of APIs. *)
Theorem catalog_groups_nonempty (m : dict (list string)) (d : dict service)
    (c : category) :
  let g := cat_get c (generate_api_catalog m d) in
  wf g
  ∧ (∀ k l, (k, l) ∈ items g → l ≠ [])
  ∧ (length g ≤ api_count g)%nat.
Proof.
  intros g. destruct (groups_ok_generate m d c) as [Hwf Hne]. fold g in Hwf, Hne.
  assert (∀ k l, (k, l) ∈ items g → l ≠ []) as Hitems.
  { intros k l H. apply (Hne k). by apply elem_get. }
  split; [exact Hwf|]. split; [exact Hitems|].
  clear Hwf Hne. unfold api_count, items in *.
  induction g as [|[k l] g IH]; simpl; [lia|].
  assert (l ≠ []) as Hl by (apply (Hitems k); left).
  assert (length g ≤ sum_list_with (fun item => length (snd item)) g)%nat
    as IH'.
  { apply IH. intros k' l' H. apply (Hitems k'). by right. }
  destruct l; [done|]. simpl. lia.
Qed.

(** X2. The total number of APIs printed is, summed over the keys of the
    mapping, the number of matches of the key times its number of function
    identifiers (times one when it has none), plus the number of services
    of the registry that no key matches. *)
Theorem total_apis_count (m : dict (list string)) (d : dict service) :
  total_apis (catalog_statistics (generate_api_catalog m d))
  = sum_list_with
      (fun item =>
         length (find_matching_services (fst item) d)
         * match snd item with [] => 1 | _ :: _ => length (snd item) end)
      m
    + length
        (List.filter
           (fun item => bool_decide (fst item ∉ matched_names m d))
           (items d)).
Proof.
  unfold catalog_statistics. simpl.
  change (catalog_REST ?x) with (cat_get REST x).
  change (catalog_SOAP ?x) with (cat_get SOAP x).
  rewrite generate_api_catalog_replay. unfold replay.
  rewrite !api_count_foldl. simpl. rewrite length_by_category.
  unfold appends.
  by rewrite length_app, length_matched_appends, length_unmapped_appends.
Qed.

(** X3. A key is a group of a category of the catalog exactly when it is a
    key of the mapping with a match of that category, or the name of a
    service of that category that no key of the mapping matches. *)
Theorem catalog_group_keys (m : dict (list string)) (d : dict service)
    (c : category) (k : string) :
  k ∈ keys (cat_get c (generate_api_catalog m d))
  ↔ (∃ fids s info,
       (k, fids) ∈ items m ∧ (s, info) ∈ find_matching_services k d
       ∧ service_category info = c)
    ∨ (∃ info,
         (k, info) ∈ items d ∧ service_category info = c
         ∧ ∀ key, key ∈ keys m →
             k ∉ map fst (find_matching_services key d)).
Proof.
  rewrite elem_keys_generate. split.
  - intros (a & Ha & Hc & Hk). apply elem_of_appends in Ha as [Ha|Ha].
    + apply elem_of_matched_appends in Ha
        as (k' & fids & s & info & e & Hm & Hs & He & ->).
      simpl in *. subst. left. by exists fids, s, info.
    + apply elem_of_unmapped_appends in Ha as (s & info & Hd & Hs & ->).
      simpl in *. subst. right. exists info. split; [done|].
      split; [done|]. intros key Hkey Hin. apply Hs.
      apply keys_elem in Hkey as [fids Hm].
      apply elem_of_map in Hin as ([s' info'] & -> & Hin).
      apply elem_of_matched_names. by exists key, fids, info'.
  - intros [(fids & s & info & Hm & Hs & Hc)|(info & Hd & Hc & Hno)].
    + destruct (entries_for_nonempty s info fids) as [e He].
      exists (Append Matched (service_category info) k s e).
      split; [|done]. apply elem_of_appends. left.
      apply elem_of_matched_appends. by exists k, fids, s, info, e.
    + eexists. split.
      * apply elem_of_appends. right. apply elem_of_unmapped_appends.
        exists k, info. split; [done|]. split; [|done].
        intros Hs. apply elem_of_matched_names in Hs
          as (key & fids & info' & Hm & Hs).
        apply (Hno key); [by eapply elem_keys|].
        apply elem_of_map. by exists (k, info').
      * done.
Qed.

(** X4. A key without a match leaves no trace in the catalog: it is no
    group of either category and has no entries. *)
Theorem unresolved_key_no_group (m : dict (list string)) (d : dict service)
    (K : string) (c : category) :
  find_matching_services K d = [] →
  (K ∉ keys (cat_get c (generate_api_catalog m d)))
  ∧ group_entries c K (generate_api_catalog m d) = [].
Proof.
  intros Hno.
  assert (∀ a, a ∈ appends m d → ap_group a ≠ K) as Hnone.
  { intros a Ha Hk. apply elem_of_appends in Ha as [Ha|Ha].
    - apply elem_of_matched_appends in Ha
        as (k' & fids & s & info & e & Hm & Hs & He & ->).
      simpl in Hk. subst k'. rewrite Hno in Hs. by apply elem_of_nil in Hs.
    - apply elem_of_unmapped_appends in Ha as (s & info & Hd & Hs & ->).
      simpl in Hk. subst s. unfold find_matching_services in Hno.
      destruct (get K d) eqn:E; [done|].
      apply get_None in E. apply E. by eapply elem_keys. }
  split.
  - rewrite elem_keys_generate. intros (a & Ha & _ & Hk).
    by apply (Hnone a).
  - rewrite group_entries_generate, to_group_other; [done|]. exact Hnone.
Qed.

(** X4 at a key that matches nothing in a registry of one service. *)
Lemma unresolved_key_no_group_witness :
  let m := [("Pay", ["1"])] in
  let d := [("Get A", [("API Name", "Get A"); ("tag", "rest")])] in
  find_matching_services "Pay" d = []
  ∧ ("Pay" ∉ keys (cat_get REST (generate_api_catalog m d)))
  ∧ group_entries REST "Pay" (generate_api_catalog m d) = [].
Proof.
  split; [reflexivity|].
  apply (unresolved_key_no_group [("Pay", ["1"])]
           [("Get A", [("API Name", "Get A"); ("tag", "rest")])]
           "Pay" REST).
  reflexivity.
Defined.

(** X5. The script generates a catalog exactly when every key of the
    mapping has a match; the catalog then has, for every key, a group with
    as many entries as the key has matches times its number of function
    identifiers (times one when it has none), at least one. *)
Theorem main_generates_after_validation (m : dict (list string))
    (services_array : list service) :
  let d := convert_services_to_dict services_array in
  (main m services_array = None
   ↔ ∃ key, key ∈ keys m ∧ find_matching_services key d = [])
  ∧ (∀ cat, main m services_array = Some cat →
       cat = generate_api_catalog m d
       ∧ (wf m → ∀ k fids, (k, fids) ∈ items m →
            (k ∈ keys (catalog_REST cat) ∨ k ∈ keys (catalog_SOAP cat))
            ∧ (1 ≤ length (find_matching_services k d))%nat
            ∧ length (group_entries REST k cat)
              + length (group_entries SOAP k cat)
              = length (find_matching_services k d)
                * match fids with [] => 1 | _ :: _ => length fids end)).
Proof.
  intros d. unfold main. fold d.
  assert (validate_keys m d = true
          ↔ ∀ key, key ∈ keys m → find_matching_services key d ≠ [])
    as Hval.
  { unfold validate_keys, missing_keys. rewrite missing_keys_loop. simpl.
    split.
    - intros H key Hkey Hno.
      assert (key ∈ filter (λ key, find_matching_services key d = [])
                (keys m)) as Hin by by apply list_elem_of_filter.
      destruct (filter _ (keys m)); [by apply elem_of_nil in Hin|done].
    - intros H.
      destruct (filter (λ key, find_matching_services key d = []) (keys m))
        as [|key l] eqn:E; [done|].
      assert (key ∈ filter (λ key, find_matching_services key d = [])
                (keys m)) as Hin by (rewrite E; left).
      apply list_elem_of_filter in Hin as [Hno Hkey].
      by destruct (H key Hkey). }
  split.
  - destruct (validate_keys m d) eqn:E.
    + split; [done|]. intros (key & Hkey & Hno). exfalso.
      by apply (proj1 Hval eq_refl key Hkey).
    + split; [intros _|done]. clear Hval.
      unfold validate_keys, missing_keys in E.
      rewrite missing_keys_loop in E. simpl in E.
      destruct (filter (λ key, find_matching_services key d = []) (keys m))
        as [|key l] eqn:Ef; [done|].
      assert (key ∈ filter (λ key, find_matching_services key d = [])
                (keys m)) as Hin by (rewrite Ef; left).
      apply list_elem_of_filter in Hin as [Hno Hkey]. by exists key.
  - intros cat. destruct (validate_keys m d) eqn:E; [|done].
    intros [= <-]. split; [done|]. intros Hwf k fids Hin.
    assert (find_matching_services k d ≠ []) as Hne.
    { apply (proj1 Hval eq_refl). by eapply elem_keys. }
    destruct (find_matching_services k d) as [|[s info] l] eqn:Em; [done|].
    split; [|split; [simpl; lia|]].
    + destruct (service_category info) eqn:Ec; [left|right].
      * change (k ∈ keys (cat_get REST (generate_api_catalog m d))).
        apply elem_keys_generate.
        destruct (entries_for_nonempty s info fids) as [e He].
        exists (Append Matched (service_category info) k s e).
        split; [|done]. apply elem_of_appends. left.
        apply elem_of_matched_appends. exists k, fids, s, info, e.
        rewrite Em. split; [done|]. split; [left|done].
      * change (k ∈ keys (cat_get SOAP (generate_api_catalog m d))).
        apply elem_keys_generate.
        destruct (entries_for_nonempty s info fids) as [e He].
        exists (Append Matched (service_category info) k s e).
        split; [|done]. apply elem_of_appends. left.
        apply elem_of_matched_appends. exists k, fids, s, info, e.
        rewrite Em. split; [done|]. split; [left|done].
    + rewrite !(group_entries_key m d k fids) by done. rewrite Em.
      apply flat_map_by_category. intros x. apply entries_for_length.
Qed.

(** * convert_keys.py *)

Lemma convert_rows_snoc (data : dict (list string))
    (mapping : list (string * string)) (row : string * string) :
  convert_rows data (mapping ++ [row])
  = convert_row data (convert_rows data mapping) row.
Proof. unfold convert_rows. by rewrite foldl_app. Qed.

Lemma new_data_convert_row (data : dict (list string)) (st : conversion)
    (original_name mapped_name : string) :
  new_data (convert_row data st (original_name, mapped_name))
  = setitem original_name (get_default mapped_name [] data) (new_data st).
Proof.
  unfold convert_row, get_default. by destruct (get mapped_name data).
Qed.

Lemma get_convert_json_snoc (data : dict (list string))
    (mapping : list (string * string)) (orig mapped X : string) :
  get X (convert_json data (mapping ++ [(orig, mapped)]))
  = if decide (orig = X) then Some (get_default mapped [] data)
    else get X (convert_json data mapping).
Proof.
  unfold convert_json. rewrite convert_rows_snoc, new_data_convert_row.
  destruct (decide (orig = X)) as [->|Hne].
  - apply get_setitem_eq.
  - by apply get_setitem_ne.
Qed.

Lemma keys_convert_json_snoc (data : dict (list string))
    (mapping : list (string * string)) (orig mapped : string) :
  keys (convert_json data (mapping ++ [(orig, mapped)]))
  = if bool_decide (orig ∈ keys (convert_json data mapping))
    then keys (convert_json data mapping)
    else keys (convert_json data mapping) ++ [orig].
Proof.
  unfold convert_json. rewrite convert_rows_snoc, new_data_convert_row.
  rewrite keys_setitem.
  destruct (contains orig (new_data (convert_rows data mapping))) eqn:E.
  - apply contains_true in E. by rewrite bool_decide_eq_true_2.
  - rewrite bool_decide_eq_false_2; [done|].
    intros H. apply contains_true in H. congruence.
Qed.

Lemma elem_keys_convert_json (data : dict (list string))
    (mapping : list (string * string)) (X : string) :
  X ∈ keys (convert_json data mapping) ↔ X ∈ map fst mapping.
Proof.
  induction mapping as [|[orig mapped] mapping IH] using rev_ind.
  - done.
  - rewrite keys_convert_json_snoc, map_app, elem_of_app. simpl.
    rewrite list_elem_of_singleton, <- IH.
    destruct (bool_decide _) eqn:B.
    + apply bool_decide_eq_true in B. split; [by left|].
      intros [H| ->]; done.
    + by rewrite elem_of_app, list_elem_of_singleton.
Qed.

Lemma wf_convert_json (data : dict (list string))
    (mapping : list (string * string)) :
  wf (convert_json data mapping).
Proof.
  unfold wf.
  induction mapping as [|[orig mapped] mapping IH] using rev_ind.
  - apply NoDup_nil_2.
  - rewrite keys_convert_json_snoc. destruct (bool_decide _) eqn:B; [done|].
    apply bool_decide_eq_false in B. apply NoDup_app.
    split; [done|]. split; [|apply NoDup_singleton].
    intros x Hx Hx'. by apply list_elem_of_singleton in Hx' as ->.
Qed.

Lemma get_convert_json (data : dict (list string))
    (mapping : list (string * string)) (X : string) (v : list string) :
  get X (convert_json data mapping) = Some v
  ↔ ∃ before mapped after,
      mapping = before ++ (X, mapped) :: after
      ∧ (X ∉ map fst after)
      ∧ v = get_default mapped [] data.
Proof.
  revert v. induction mapping as [|[orig mapped] mapping IH] using rev_ind;
    intros v.
  - split; [done|]. intros (before & mapped & after & H & _).
    by destruct before.
  - rewrite get_convert_json_snoc.
    destruct (decide (orig = X)) as [->|Hne].
    + split.
      * intros [= <-]. exists mapping, mapped, []. split; [done|].
        split; [apply not_elem_of_nil|done].
      * intros (before & mapped' & after & H & Hnot & ->).
        destruct after as [|r after] using rev_ind.
        -- apply app_inj_tail in H as [_ [= ->]]. done.
        -- exfalso.
           replace (before ++ (X, mapped') :: after ++ [r])
             with ((before ++ (X, mapped') :: after) ++ [r]) in H
             by (by rewrite <- app_assoc).
           apply app_inj_tail in H as [_ <-]. apply Hnot.
           rewrite map_app. apply elem_of_app. right. left.
    + rewrite IH. split.
      * intros (before & mapped' & after & -> & Hnot & ->).
        exists before, mapped', (after ++ [(orig, mapped)]).
        split; [by rewrite <- app_assoc|]. split; [|done].
        rewrite map_app. intros H. apply elem_of_app in H as [H|H]; [done|].
        simpl in H. apply list_elem_of_singleton in H. congruence.
      * intros (before & mapped' & after & H & Hnot & ->).
        destruct after as [|r after _] using rev_ind.
        -- apply app_inj_tail in H as [_ [= -> _]]. done.
        -- replace (before ++ (X, mapped') :: after ++ [r])
             with ((before ++ (X, mapped') :: after) ++ [r]) in H
             by (by rewrite <- app_assoc).
           apply app_inj_tail in H as [-> <-].
           exists before, mapped', after. split; [done|]. split; [|done].
           intros H. apply Hnot. rewrite map_app. apply elem_of_app.
           by left.
Qed.

(** X6. In the dictionary written by convert_json, an original name of the
    table holds the value that the input has under the mapped name of the
    last row with that original name, or the empty list when the input has
    no such key; a name that is no original name of the table is no key:
    the other keys of the input are dropped. *)
Theorem convert_json_lookup (data : dict (list string))
    (mapping : list (string * string)) (X : string) (v : list string) :
  get X (convert_json data mapping) = Some v
  ↔ ∃ before mapped after,
      mapping = before ++ (X, mapped) :: after
      ∧ (X ∉ map fst after)
      ∧ v = get_default mapped [] data.
Proof. apply get_convert_json. Qed.

(** X6 at a table with two rows for one original name. *)
Lemma convert_json_lookup_witness :
  let data := [("GetLOV", ["47"]); ("Other", ["9"])] in
  let mapping := [("Get LOV", "Missing"); ("Get LOV", "GetLOV")] in
  get "Get LOV" (convert_json data mapping) = Some ["47"]
  ∧ ∃ before mapped after,
      mapping = before ++ ("Get LOV", mapped) :: after
      ∧ ("Get LOV" ∉ map fst after)
      ∧ ["47"] = get_default mapped [] data.
Proof.
  assert (get "Get LOV"
            (convert_json [("GetLOV", ["47"]); ("Other", ["9"])]
               [("Get LOV", "Missing"); ("Get LOV", "GetLOV")])
          = Some ["47"]) as H by reflexivity.
  split; [exact H|].
  exact (proj1 (convert_json_lookup _ _ _ _) H).
Defined.

(** X7. The keys of the dictionary written by convert_json are the
    original names of the table, each once, in the order of their first
    row; when the table has no original name twice they are the original
    column as it is, and every row reads its own mapped name. *)
Theorem convert_json_keys (data : dict (list string))
    (mapping : list (string * string)) :
  wf (convert_json data mapping)
  ∧ keys (convert_json data mapping)
    = reverse (remove_dups (reverse (map fst mapping)))
  ∧ (NoDup (map fst mapping) →
       keys (convert_json data mapping) = map fst mapping
       ∧ ∀ orig mapped, (orig, mapped) ∈ mapping →
           get orig (convert_json data mapping)
           = Some (get_default mapped [] data)).
Proof.
  assert (keys (convert_json data mapping)
          = reverse (remove_dups (reverse (map fst mapping)))) as Hkeys.
  { induction mapping as [|[orig mapped] mapping IH] using rev_ind.
    - done.
    - rewrite keys_convert_json_snoc, map_app, reverse_app. simpl.
      destruct (decide_rel elem_of orig (reverse (map fst mapping)))
        as [Hin|Hin].
      + rewrite bool_decide_eq_true_2; [done|].
        apply elem_keys_convert_json. by apply elem_of_reverse.
      + rewrite bool_decide_eq_false_2.
        * by rewrite reverse_cons, IH.
        * rewrite elem_keys_convert_json. by rewrite <- elem_of_reverse. }
  split; [apply wf_convert_json|]. split; [exact Hkeys|].
  intros Hnd.
  assert (∀ l : list string, NoDup l → remove_dups l = l) as Hid.
  { induction l as [|x l IHl]; intros H; simpl; [done|].
    apply NoDup_cons in H as [Hx H].
    destruct (decide_rel elem_of x l); [done|]. by rewrite IHl. }
  split.
  - rewrite Hkeys, Hid, reverse_involutive; [done|].
    by rewrite reverse_Permutation.
  - intros orig mapped Hin. apply get_convert_json.
    apply list_elem_of_split in Hin as (before & after & ->).
    exists before, mapped, after. split; [done|]. split; [|done].
    rewrite map_app in Hnd. apply NoDup_app in Hnd as (_ & _ & Hnd).
    simpl in Hnd. by apply NoDup_cons in Hnd as [? _].
Qed.

(** X8. convert_json reports as not mapped exactly the keys of the input
    that no row of the table names, and warns about exactly the rows whose
    mapped name is no key of the input. *)
Theorem convert_json_reports (data : dict (list string))
    (mapping : list (string * string)) :
  (∀ key, key ∈ convert_json_skipped data mapping
          ↔ key ∈ keys data ∧ key ∉ map snd mapping)
  ∧ (∀ orig mapped, (mapped, orig) ∈ not_found (convert_rows data mapping)
                   ↔ (orig, mapped) ∈ mapping ∧ mapped ∉ keys data).
Proof.
  assert (∀ x, x ∈ used_mapped_keys (convert_rows data mapping)
               ↔ x ∈ map snd mapping ∧ x ∈ keys data) as Hused.
  { intros x. induction mapping as [|[orig mapped] mapping IH] using rev_ind.
    - split; [set_solver|]. intros [H _]. by apply elem_of_nil in H.
    - rewrite convert_rows_snoc, map_app, elem_of_app. simpl.
      rewrite list_elem_of_singleton. unfold convert_row.
      destruct (get mapped data) eqn:E; simpl.
      + rewrite elem_of_union, elem_of_singleton, IH.
        assert (mapped ∈ keys data) as Hin.
        { apply get_Some_elem in E. by eapply elem_keys. }
        split; [intros [[? ?]| ->]; auto | intros [[?| ->] ?]; auto].
      + rewrite IH. apply get_None in E.
        split; [intros [? ?]; auto | intros [[?| ->] ?]; [auto|done]]. }
  split.
  - intros key. unfold convert_json_skipped.
    rewrite elem_of_List_filter, bool_decide_eq_true, Hused. tauto.
  - clear Hused. intros orig0 mapped0.
    induction mapping as [|[orig mapped] mapping IH] using rev_ind.
    + split; [intros H; by apply elem_of_nil in H|].
      intros [H _]. by apply elem_of_nil in H.
    + rewrite convert_rows_snoc, elem_of_app, list_elem_of_singleton.
      unfold convert_row. destruct (get mapped data) eqn:E; simpl.
      * rewrite IH. split; [intros [? ?]; auto|].
        intros [[?|[= -> ->]] Hno]; [auto|].
        apply get_None in Hno. congruence.
      * rewrite elem_of_app, list_elem_of_singleton, IH.
        apply get_None in E.
        split; [intros [[? ?]|[= -> ->]]; auto|].
        intros [[?|[= -> ->]] ?]; auto.
Qed.

(** * update_target_url.py *)

Lemma update_lines_snoc (new_url : string) (st : url_state)
    (lines : list string) (line : string) :
  foldl (update_line new_url) st (lines ++ [line])
  = update_line new_url (foldl (update_line new_url) st lines) line.
Proof. by rewrite foldl_app. Qed.

Lemma update_line_new_lines (new_url : string) (st : url_state)
    (line : string) :
  ∃ new, new_lines (update_line new_url st line) = new_lines st ++ [new]
         ∧ line_rewritten new_url line new
         ∧ (updated (update_line new_url st line) = false →
            new = line ∧ updated st = false).
Proof.
  unfold update_line, line_rewritten.
  destruct (substr_in "target-url:" line) eqn:Et; simpl.
  { exists line. split; [done|]. split; [by left|done]. }
  destruct (in_target_url st && substr_in "value:" line) eqn:Ev; simpl.
  { destruct (substr_in ">-" line); simpl.
    - exists line. split; [done|]. split; [by left|done].
    - eexists. split; [done|]. split; [|done]. right. split; [done|].
      by left. }
  destruct (in_value_block st); simpl.
  - eexists. split; [done|]. split; [|done]. right. split; [done|].
    by right.
  - exists line. split; [done|]. split; [by left|done].
Qed.

Lemma update_lines_invariant (new_url : string) (lines : list string) :
  let st := foldl (update_line new_url) (UrlState [] false false false) lines
  in
  Forall2 (line_rewritten new_url) lines (new_lines st)
  ∧ (updated st = false → new_lines st = lines).
Proof.
  induction lines as [|line lines IH] using rev_ind; simpl.
  - split; [constructor|done].
  - rewrite update_lines_snoc. destruct IH as [IH1 IH2].
    destruct (update_line_new_lines new_url
                (foldl (update_line new_url) (UrlState [] false false false)
                   lines) line) as (new & -> & Hnew & Hup).
    split.
    + apply Forall2_app; [done|]. by constructor.
    + intros H. destruct (Hup H) as [-> Hu]. by rewrite IH2.
Qed.

Lemma update_lines_untouched (new_url : string) (lines : list string)
    (st : url_state) :
  in_target_url st = false → in_value_block st = false →
  (∀ line, line ∈ lines → substr_in "target-url:" line = false) →
  foldl (update_line new_url) st lines
  = UrlState (new_lines st ++ lines) false false (updated st).
Proof.
  revert st. induction lines as [|line lines IH]; intros st Ht Hb Hno; simpl.
  - rewrite app_nil_r. destruct st; simpl in *; by subst.
  - rewrite IH.
    + unfold update_line. rewrite (Hno line) by left. rewrite Ht, Hb. simpl.
      by rewrite <- app_assoc.
    + unfold update_line. rewrite (Hno line) by left. by rewrite Ht, Hb.
    + unfold update_line. rewrite (Hno line) by left. by rewrite Ht, Hb.
    + intros l Hl. apply Hno. by right.
Qed.

Lemma update_lines_waiting (new_url : string) (lines : list string)
    (st : url_state) :
  in_target_url st = true → in_value_block st = false →
  (∀ line, line ∈ lines →
     substr_in "target-url:" line = false ∧ substr_in "value:" line = false) →
  foldl (update_line new_url) st lines
  = UrlState (new_lines st ++ lines) true false (updated st).
Proof.
  revert st. induction lines as [|line lines IH]; intros st Ht Hb Hno; simpl.
  - rewrite app_nil_r. destruct st; simpl in *; by subst.
  - destruct (Hno line) as [H1 H2]; [left|].
    rewrite IH.
    + unfold update_line. rewrite H1, H2, Ht, Hb. simpl.
      by rewrite <- app_assoc.
    + unfold update_line. by rewrite H1, H2, Ht, Hb.
    + unfold update_line. by rewrite H1, H2, Ht, Hb.
    + intros l Hl. apply Hno. by right.
Qed.

(** X9. update_target_url writes back as many lines as it read; each line
    is the line read or, for a line without "target-url:", the new URL and
    a line feed after the indentation taken from that line (what precedes
    its "value:", followed by "value: ", or its leading white space). *)
Theorem update_target_url_line_by_line (lines : list string)
    (new_url : string) :
  Forall2 (line_rewritten new_url) lines
    (fst (update_target_url lines new_url))
  ∧ length (fst (update_target_url lines new_url)) = length lines.
Proof.
  destruct (update_lines_invariant new_url lines) as [H _].
  split; [exact H|]. symmetry. by eapply Forall2_length.
Qed.

(** X10. When update_target_url returns 1 (nothing updated), the lines it
    writes back are the lines it read. *)
Theorem update_target_url_failure_unchanged (lines : list string)
    (new_url : string) :
  snd (update_target_url lines new_url) = 1 →
  fst (update_target_url lines new_url) = lines.
Proof.
  destruct (update_lines_invariant new_url lines) as [_ H].
  unfold update_target_url. simpl.
  destruct (updated _) eqn:E; [done|]. intros _. by apply H.
Qed.

(** X10 at a file whose "value:" line precedes its "target-url:" line. *)
Lemma update_target_url_failure_unchanged_witness :
  let lines := ["  value: old" +:+ LF; "target-url:" +:+ LF] in
  snd (update_target_url lines "http://new") = 1
  ∧ fst (update_target_url lines "http://new") = lines.
Proof.
  split; [reflexivity|].
  apply (update_target_url_failure_unchanged
           ["  value: old" +:+ LF; "target-url:" +:+ LF] "http://new").
  reflexivity.
Defined.

(** X11. A file without a line containing "target-url:" is written back
    unchanged, with the value 1. *)
Theorem update_target_url_no_target (lines : list string)
    (new_url : string) :
  (∀ line, line ∈ lines → substr_in "target-url:" line = false) →
  update_target_url lines new_url = (lines, 1).
Proof.
  intros Hno. unfold update_target_url.
  by rewrite update_lines_untouched.
Qed.

(** X11 at a file of two lines with a "value:" but no "target-url:". *)
Lemma update_target_url_no_target_witness :
  let lines := ["name: x" +:+ LF; "  value: old" +:+ LF] in
  (∀ line, line ∈ lines → substr_in "target-url:" line = false)
  ∧ update_target_url lines "http://new" = (lines, 1).
Proof.
  assert (∀ line, line ∈ ["name: x" +:+ LF; "  value: old" +:+ LF] →
            substr_in "target-url:" line = false) as H.
  { intros line Hl. apply elem_of_cons in Hl as [->|Hl]; [reflexivity|].
    apply list_elem_of_singleton in Hl as ->. reflexivity. }
  split; [exact H|].
  exact (update_target_url_no_target _ "http://new" H).
Defined.

Lemma update_line_target (new_url : string) (st : url_state) (t : string) :
  substr_in "target-url:" t = true →
  update_line new_url st t
  = UrlState (new_lines st ++ [t]) true (in_value_block st) (updated st).
Proof. intros H. unfold update_line. by rewrite H. Qed.

Lemma update_line_inline (new_url : string) (st : url_state) (v : string) :
  in_target_url st = true →
  substr_in "target-url:" v = false → substr_in "value:" v = true →
  substr_in ">-" v = false →
  update_line new_url st v
  = UrlState
      (new_lines st
       ++ [split_head "value:" v +:+ "value: " +:+ new_url +:+ LF])
      false (in_value_block st) true.
Proof. intros Ht H1 H2 H3. unfold update_line. by rewrite H1, Ht, H2, H3. Qed.

Lemma update_line_block_start (new_url : string) (st : url_state)
    (v : string) :
  in_target_url st = true →
  substr_in "target-url:" v = false → substr_in "value:" v = true →
  substr_in ">-" v = true →
  update_line new_url st v
  = UrlState (new_lines st ++ [v]) true true (updated st).
Proof.
  intros Ht H1 H2 H3. unfold update_line. by rewrite H1, Ht, H2, H3.
Qed.

Lemma update_line_block_content (new_url : string) (st : url_state)
    (u : string) :
  in_value_block st = true →
  substr_in "target-url:" u = false → substr_in "value:" u = false →
  update_line new_url st u
  = UrlState
      (new_lines st
       ++ [substring 0 (String.length u - String.length (lstrip u)) u
           +:+ new_url +:+ LF])
      false false true.
Proof.
  intros Hb H1 H2. unfold update_line. rewrite H1, H2, Hb.
  by rewrite andb_false_r.
Qed.

Lemma foldl_one {A B : Type} (f : A → B → A) (a : A) (x : B) :
  foldl f a [x] = f a x.
Proof. reflexivity. Qed.

(** X12. The inline format: in a file with one "target-url:" line,
    followed, after lines without "value:", by a "value:" line without
    ">-", that line becomes its indentation, "value: ", the new URL and a
    line feed; every other line is kept and the value returned is 0. *)
Theorem update_target_url_inline (pre mid post : list string)
    (t v new_url : string) :
  (∀ line, line ∈ pre ++ post → substr_in "target-url:" line = false) →
  (∀ line, line ∈ mid →
     substr_in "target-url:" line = false
     ∧ substr_in "value:" line = false) →
  substr_in "target-url:" t = true →
  substr_in "target-url:" v = false → substr_in "value:" v = true →
  substr_in ">-" v = false →
  update_target_url (pre ++ [t] ++ mid ++ [v] ++ post) new_url
  = (pre ++ [t] ++ mid
       ++ [split_head "value:" v +:+ "value: " +:+ new_url +:+ LF] ++ post,
     0).
Proof.
  intros Hpp Hmid Ht Hv1 Hv2 Hv3. unfold update_target_url.
  rewrite !foldl_app, !foldl_one.
  rewrite (update_lines_untouched new_url pre) by
    (try done; intros l Hl; apply Hpp, elem_of_app; by left).
  rewrite (update_line_target new_url _ t) by done.
  rewrite (update_lines_waiting new_url mid) by done.
  rewrite (update_line_inline new_url _ v) by done.
  rewrite update_lines_untouched by
    (try done; intros l Hl; apply Hpp, elem_of_app; by right).
  cbn [new_lines updated]. by rewrite <- !app_assoc.
Qed.

(** X13. The block format: when the "value:" line after the "target-url:"
    line holds ">-", the line after it (without "target-url:" and
    "value:") becomes its leading white space, the new URL and a line feed;
    every other line is kept and the value returned is 0. *)
Theorem update_target_url_block (pre mid post : list string)
    (t v u new_url : string) :
  (∀ line, line ∈ pre ++ post → substr_in "target-url:" line = false) →
  (∀ line, line ∈ mid →
     substr_in "target-url:" line = false
     ∧ substr_in "value:" line = false) →
  substr_in "target-url:" t = true →
  substr_in "target-url:" v = false → substr_in "value:" v = true →
  substr_in ">-" v = true →
  substr_in "target-url:" u = false → substr_in "value:" u = false →
  update_target_url (pre ++ [t] ++ mid ++ [v] ++ [u] ++ post) new_url
  = (pre ++ [t] ++ mid
       ++ [v] ++
       [substring 0 (String.length u - String.length (lstrip u)) u
        +:+ new_url +:+ LF] ++ post,
     0).
Proof.
  intros Hpp Hmid Ht Hv1 Hv2 Hv3 Hu1 Hu2. unfold update_target_url.
  rewrite !foldl_app, !foldl_one.
  rewrite (update_lines_untouched new_url pre) by
    (try done; intros l Hl; apply Hpp, elem_of_app; by left).
  rewrite (update_line_target new_url _ t) by done.
  rewrite (update_lines_waiting new_url mid) by done.
  rewrite (update_line_block_start new_url _ v) by done.
  rewrite (update_line_block_content new_url _ u) by done.
  rewrite update_lines_untouched by
    (try done; intros l Hl; apply Hpp, elem_of_app; by right).
  cbn [new_lines updated]. by rewrite <- !app_assoc.
Qed.

Ltac each_line :=
  let line := fresh "line" in
  let Hl := fresh "Hl" in
  intros line Hl;
  repeat (apply elem_of_cons in Hl as [->|Hl]; [try split; reflexivity|]);
  by apply elem_of_nil in Hl.

(** X12 at a file of five lines. *)
Lemma update_target_url_inline_witness :
  update_target_url
    (["name: x" +:+ LF] ++ ["  target-url:" +:+ LF]
     ++ ["    description: d" +:+ LF] ++ ["    value: http://old" +:+ LF]
     ++ ["  other: 1" +:+ LF]) "http://new"
  = (["name: x" +:+ LF] ++ ["  target-url:" +:+ LF]
     ++ ["    description: d" +:+ LF]
     ++ ["    " +:+ "value: " +:+ "http://new" +:+ LF]
     ++ ["  other: 1" +:+ LF], 0).
Proof.
  apply (update_target_url_inline ["name: x" +:+ LF]
           ["    description: d" +:+ LF] ["  other: 1" +:+ LF]
           ("  target-url:" +:+ LF) ("    value: http://old" +:+ LF)
           "http://new"); try reflexivity; each_line.
Defined.

(** X13 at a file of six lines. *)
Lemma update_target_url_block_witness :
  update_target_url
    (["name: x" +:+ LF] ++ ["  target-url:" +:+ LF]
     ++ ["    description: d" +:+ LF] ++ ["    value: >-" +:+ LF]
     ++ ["      http://old" +:+ LF] ++ ["  other: 1" +:+ LF]) "http://new"
  = (["name: x" +:+ LF] ++ ["  target-url:" +:+ LF]
     ++ ["    description: d" +:+ LF] ++ ["    value: >-" +:+ LF]
     ++ ["      " +:+ "http://new" +:+ LF]
     ++ ["  other: 1" +:+ LF], 0).
Proof.
  apply (update_target_url_block ["name: x" +:+ LF]
           ["    description: d" +:+ LF] ["  other: 1" +:+ LF]
           ("  target-url:" +:+ LF) ("    value: >-" +:+ LF)
           ("      http://old" +:+ LF) "http://new");
    try reflexivity; each_line.
Defined.

(** * merge_apis.py *)

Lemma insert_sorted_ascending (x : string) (l : list string) :
  ascending l → ascending (insert_sorted x l).
Proof.
  induction l as [|y l IH]; simpl; [done|].
  intros [Hy Hl]. destruct (String.leb x y) eqn:E.
  - simpl. rewrite E. done.
  - assert (String.leb y x = true) as Hyx.
    { destruct (String.leb_total x y); congruence. }
    specialize (IH Hl). simpl. split; [|exact IH].
    destruct l as [|z l]; simpl; [done|].
    by destruct (String.leb x z).
Qed.

Lemma sorted_ascending (l : list string) : ascending (sorted l).
Proof.
  induction l as [|x l IH]; simpl; [done|].
  by apply insert_sorted_ascending.
Qed.

Lemma merged_apis_elem (new_api_list : list string) (X : gset string)
    (x : string) :
  x ∈ foldl (fun (merged_apis : gset string) api =>
               if truthy api && truthy (strip api)
               then merged_apis ∪ {[ strip api ]}
               else merged_apis) X new_api_list
  ↔ x ∈ X ∨ ∃ api, api ∈ new_api_list ∧ strip api ≠ "" ∧ x = strip api.
Proof.
  assert (∀ api, truthy api && truthy (strip api) = true ↔ strip api ≠ "")
    as Htest.
  { intros api. rewrite andb_true_iff, !truthy_true. split; [by intros [_ ?]|].
    intros H. split; [|done]. intros ->. by apply H. }
  revert X. induction new_api_list as [|api l IH]; intros X; simpl.
  - split; [by left|]. intros [?|(api & H & _)]; [done|].
    by apply elem_of_nil in H.
  - rewrite IH. destruct (truthy api && truthy (strip api)) eqn:E.
    + apply Htest in E. rewrite elem_of_union, elem_of_singleton. split.
      * intros [[?| ->]|(api' & Hin & Hne & ->)]; [by left| |].
        -- right. exists api. split; [left|done].
        -- right. exists api'. split; [by right|done].
      * intros [?|(api' & Hin & Hne & ->)]; [by left; left|].
        apply elem_of_cons in Hin as [->|Hin]; [left; by right|].
        right. by exists api'.
    + assert (strip api = "") as Hs.
      { destruct (decide (strip api = "")) as [?|Hne]; [done|].
        apply Htest in Hne. congruence. }
      split.
      * intros [?|(api' & Hin & Hne & ->)]; [by left|].
        right. exists api'. split; [by right|done].
      * intros [?|(api' & Hin & Hne & ->)]; [by left|].
        apply elem_of_cons in Hin as [->|Hin]; [done|].
        right. by exists api'.
Qed.

(** X14. merge_apis returns, in ascending order and without duplicates,
    the names of the existing APIs together with the stripped form of
    every new name that is not blank. *)
Theorem merge_apis_sorted_union (new_api_list : list string)
    (existing_apis : dict bool) :
  ascending (merge_apis new_api_list existing_apis)
  ∧ NoDup (merge_apis new_api_list existing_apis)
  ∧ ∀ x, x ∈ merge_apis new_api_list existing_apis
         ↔ x ∈ keys existing_apis
           ∨ ∃ api, api ∈ new_api_list ∧ strip api ≠ "" ∧ x = strip api.
Proof.
  unfold merge_apis. split; [apply sorted_ascending|]. split.
  - rewrite sorted_perm. apply NoDup_elements.
  - intros x. rewrite sorted_perm, elem_of_elements, merged_apis_elem.
    by rewrite elem_of_list_to_set.
Qed.

(** * Data-Config/check_missing_services.py *)

Lemma services_names_elem (services : list service) (names : gset string)
    (n : string) :
  services_names services = Some names →
  n ∈ names ↔ ∃ e, e ∈ services ∧ get "API Name" e = Some n.
Proof.
  revert names. induction services as [|s t IH]; intros names; simpl.
  - intros [= <-]. split; [set_solver|]. intros (e & He & _).
    by apply elem_of_nil in He.
  - destruct (get "API Name" s) as [api_name|] eqn:E; [|done].
    destruct (services_names t) as [names'|]; [|done].
    intros [= <-]. rewrite elem_of_union, elem_of_singleton, (IH names' eq_refl).
    split.
    + intros [->|(e & He & Hn)]; [exists s; split; [left|done]|].
      exists e. split; [by right|done].
    + intros (e & He & Hn). apply elem_of_cons in He as [->|He].
      * left. congruence.
      * right. by exists e.
Qed.

(** X15. Run on the catalog that generate_api_catalog builds from the same
    two files, the checker reports a named service as missing from the
    catalog exactly when its name is no key of the mapping but a key of the
    mapping matches it: the services reached only through a prefix. *)
Theorem check_missing_services_prefix_only (services : list service)
    (m : dict (list string)) (r : missing_report) (n : string) :
  check_missing_services services m
    (generate_api_catalog m (convert_services_to_dict services)) = Some r →
  n ≠ "" →
  n ∈ missing_from_catalog r
  ↔ (∃ e, e ∈ services ∧ get "API Name" e = Some n)
    ∧ (n ∉ keys m)
    ∧ ∃ key, key ∈ keys m
             ∧ n ∈ map fst
                     (find_matching_services key
                        (convert_services_to_dict services)).
Proof.
  intros Hr Hn. unfold check_missing_services in Hr.
  destruct (services_names services) as [names|] eqn:En; [|done].
  injection Hr as <-. simpl.
  set (d := convert_services_to_dict services).
  rewrite sorted_perm, elem_of_elements, elem_of_difference, elem_of_union.
  rewrite !elem_of_list_to_set.
  change (catalog_REST ?x) with (cat_get REST x).
  change (catalog_SOAP ?x) with (cat_get SOAP x).
  rewrite !elem_keys_generate, (services_names_elem _ _ n En).
  split.
  - intros [Hname Hno]. split; [done|].
    assert (n ∈ keys d) as Hd.
    { apply contains_true, contains_convert. by split. }
    assert (∀ a, a ∈ appends m d → ap_group a ≠ n) as Hnone.
    { intros a Ha Hg. apply Hno. destruct (ap_category a) eqn:Ec.
      - left. by exists a.
      - right. by exists a. }
    apply keys_elem in Hd as [info Hd].
    split.
    + intros Hk. apply keys_elem in Hk as [fids Hk].
      destruct (entries_for_nonempty n info fids) as [e He].
      apply (Hnone (Append Matched (service_category info) n n e)); [|done].
      apply elem_of_appends. left. apply elem_of_matched_appends.
      exists n, fids, n, info, e. split; [done|]. split; [|done].
      apply (elem_get _ _ _ (wf_convert services)) in Hd.
      unfold find_matching_services. unfold d in *. rewrite Hd. left.
    + destruct (decide (n ∈ matched_names m d)) as [Hs|Hs].
      * apply elem_of_matched_names in Hs as (key & fids & info' & Hk & Hs).
        exists key. split; [by eapply elem_keys|].
        apply elem_of_map. by exists (n, info').
      * exfalso.
        apply (Hnone (Append Unmapped (service_category info) n n
                        (plain_entry n info
                           (lower (get_default "tag" "" info))))); [|done].
        apply elem_of_appends. right. apply elem_of_unmapped_appends.
        by exists n, info.
  - intros (Hname & Hk & key & Hkey & Hs). split; [done|].
    assert (∀ a, a ∈ appends m d → ap_group a ≠ n) as Hnone.
    { intros a Ha Hg. apply elem_of_appends in Ha as [Ha|Ha].
      - apply elem_of_matched_appends in Ha
          as (k' & fids & s & info & e & Hm & _ & _ & ->).
        simpl in Hg. subst k'. apply Hk. by eapply elem_keys.
      - apply elem_of_unmapped_appends in Ha as (s & info & _ & Hno & ->).
        simpl in Hg. subst s. apply Hno.
        apply keys_elem in Hkey as [fids Hkey].
        apply elem_of_map in Hs as ([n' info'] & -> & Hs).
        apply elem_of_matched_names. by exists key, fids, info'. }
    intros [(a & Ha & _ & Hg)|(a & Ha & _ & Hg)]; by apply (Hnone a).
Qed.

(** X15 at a registry of two services, one matched by the prefix "Get". *)
Lemma check_missing_services_prefix_only_witness :
  let services := [[("API Name", "Get A"); ("tag", "rest")];
                   [("API Name", "Other"); ("tag", "soap")]] in
  let m := [("Get", ["1"])] in
  let r := {| total_services := 2; total_function_ids := 1;
              total_catalog := 2; missing_from_catalog := ["Get A"];
              missing_from_function_ids := ["Get A"; "Other"];
              empty_services := [] |} in
  check_missing_services services m
    (generate_api_catalog m (convert_services_to_dict services)) = Some r
  ∧ ("Get A" ∈ missing_from_catalog r
     ↔ (∃ e, e ∈ services ∧ get "API Name" e = Some "Get A")
       ∧ ("Get A" ∉ keys m)
       ∧ ∃ key, key ∈ keys m
                ∧ "Get A"
                  ∈ map fst
                      (find_matching_services key
                         (convert_services_to_dict services))).
Proof.
  assert (check_missing_services
            [[("API Name", "Get A"); ("tag", "rest")];
             [("API Name", "Other"); ("tag", "soap")]] [("Get", ["1"])]
            (generate_api_catalog [("Get", ["1"])]
               (convert_services_to_dict
                  [[("API Name", "Get A"); ("tag", "rest")];
                   [("API Name", "Other"); ("tag", "soap")]]))
          = Some
              {| total_services := 2; total_function_ids := 1;
                 total_catalog := 2; missing_from_catalog := ["Get A"];
                 missing_from_function_ids := ["Get A"; "Other"];
                 empty_services := [] |}) as H
    by (vm_compute; reflexivity).
  split; [exact H|].
  apply (check_missing_services_prefix_only _ _ _ "Get A" H).
  discriminate.
Defined.

(** * Splitting and stripping *)

Lemma split_char_absent (c : ascii) (s : string) :
  str_in c s = false → split_char c s = [s].
Proof.
  induction s as [|a t IH]; simpl; [done|].
  intros H. apply orb_false_iff in H as [Ha Ht].
  by rewrite Ha, (IH Ht).
Qed.

Lemma split_char_cons (c : ascii) (a b : string) :
  str_in c a = false →
  split_char c (a +:+ String c b) = a :: split_char c b.
Proof.
  induction a as [|x a IH]; simpl.
  - intros _. by rewrite Ascii.eqb_refl.
  - intros H. apply orb_false_iff in H as [Hx Ha].
    by rewrite Hx, (IH Ha).
Qed.

Lemma split_char_join (c : ascii) (fields : list string) :
  fields ≠ [] → (∀ f, f ∈ fields → str_in c f = false) →
  split_char c (join (String c EmptyString) fields) = fields.
Proof.
  induction fields as [|f fields IH]; [done|]. intros _ Hno.
  destruct fields as [|g fields].
  - simpl. apply split_char_absent, Hno. left.
  - change (join (String c "") (f :: g :: fields))
      with (f +:+ String c (join (String c "") (g :: fields))).
    rewrite split_char_cons by (apply Hno; left).
    f_equal. apply IH; [done|]. intros x Hx. apply Hno. by right.
Qed.

Lemma split_char_parts (c : ascii) (s p : string) :
  p ∈ split_char c s → str_in c p = false.
Proof.
  revert p. induction s as [|a t IH]; simpl; intros p Hp.
  - by apply list_elem_of_singleton in Hp as ->.
  - destruct (Ascii.eqb a c) eqn:E.
    + apply elem_of_cons in Hp as [->|Hp]; [done|]. by apply IH.
    + destruct (split_char c t) as [|h r].
      * apply list_elem_of_singleton in Hp as ->. simpl. by rewrite E.
      * apply elem_of_cons in Hp as [->|Hp].
        -- simpl. rewrite E. apply IH. left.
        -- apply IH. by right.
Qed.

Lemma str_in_lstrip (c : ascii) (s : string) :
  str_in c s = false → str_in c (lstrip s) = false.
Proof.
  induction s as [|a t IH]; simpl; [done|].
  intros H. destruct (isspace a); [|done].
  apply orb_false_iff in H as [_ Ht]. by apply IH.
Qed.

Lemma str_in_rstrip (c : ascii) (s : string) :
  str_in c s = false → str_in c (rstrip s) = false.
Proof.
  induction s as [|a t IH]; simpl; [done|].
  intros H. apply orb_false_iff in H as [Ha Ht]. specialize (IH Ht).
  destruct (rstrip t) as [|b r].
  - destruct (isspace a); [done|]. simpl. by rewrite Ha.
  - simpl in *. by rewrite Ha, IH.
Qed.

Lemma str_in_strip (c : ascii) (s : string) :
  str_in c s = false → str_in c (strip s) = false.
Proof. intros H. by apply str_in_rstrip, str_in_lstrip. Qed.

Lemma length_lstrip (s : string) :
  (String.length (lstrip s) ≤ String.length s)%nat.
Proof.
  induction s as [|a t IH]; simpl; [done|].
  destruct (isspace a); simpl; lia.
Qed.




Lemma rstrip_app (a b : string) :
  rstrip b ≠ "" → rstrip (a +:+ b) = a +:+ rstrip b.
Proof.
  intros Hb. induction a as [|x a IH]; simpl; [done|].
  rewrite IH. destruct (a +:+ rstrip b) as [|y r] eqn:E.
  - destruct a; simpl in E; [done|discriminate].
  - by rewrite <- E.
Qed.

Lemma rstrip_app_blank (a b : string) :
  rstrip b = "" → rstrip (a +:+ b) = rstrip a.
Proof.
  intros Hb. induction a as [|x a IH]; simpl; [done|]. by rewrite IH.
Qed.


(** * parse_json_services.py *)

Lemma elem_of_names_lines (services : list service) (n : string) :
  n ∈ names_lines services
  ↔ ∃ e, e ∈ services ∧ get "API Name" e = Some n ∧ n ≠ "" ∧ n ≠ "null".
Proof.
  unfold names_lines. rewrite elem_of_flat_map. split.
  - intros (e & He & Hn). exists e. split; [done|].
    unfold get_default in Hn.
    destruct (get "API Name" e) as [x|] eqn:E; simpl in Hn.
    + destruct (truthy x && negb (x =? "null")) eqn:B;
        [|by apply elem_of_nil in Hn].
      apply list_elem_of_singleton in Hn as ->.
      apply andb_true_iff in B as [B1 B2]. apply truthy_true in B1.
      apply negb_true_iff, String.eqb_neq in B2. done.
    + by apply elem_of_nil in Hn.
  - intros (e & He & Hn & H1 & H2). exists e. split; [done|].
    unfold get_default. rewrite Hn.
    apply truthy_true in H1. apply String.eqb_neq in H2.
    rewrite H1, H2. simpl. left.
Qed.

(** X16. In the mode 'names', parse_services prints, with exit status 0,
    exactly the names that are keys of the registry that
    convert_services_to_dict builds from the same array, except the name
    "null". *)
Theorem parse_services_names (services : list service) :
  parse_services services "names" = (PrintedLines (names_lines services), 0)
  ∧ ∀ n, n ∈ names_lines services
         ↔ n ∈ keys (convert_services_to_dict services) ∧ n ≠ "null".
Proof.
  split; [reflexivity|]. intros n.
  rewrite elem_of_names_lines, <- contains_true, contains_convert.
  split.
  - intros (e & He & Hn & H1 & H2). split; [|done]. split; [done|].
    by exists e.
  - intros [[H1 (e & He & Hn)] H2]. by exists e.
Qed.

(** X17. In the mode 'full', every line printed comes from a service
    whose name and URL are neither empty nor "null"; its name is also
    printed in the mode 'names'; and when none of its four fields holds a
    "|", splitting the line at "|" gives back the name, the URL, the schema
    location and the tag ("rest" when the service has none). *)
Theorem parse_services_full (services : list service) (line : string) :
  parse_services services "full" = (PrintedLines (full_lines services), 0)
  ∧ (line ∈ full_lines services →
     ∃ e, e ∈ services
          ∧ let name := get_default "API Name" "" e in
            let url := get_default "Url" "" e in
            let schema := get_default "Schema Location" "" e in
            let tag := get_default "tag" "rest" e in
            line = name +:+ "|" +:+ url +:+ "|" +:+ schema +:+ "|" +:+ tag
            ∧ name ≠ "" ∧ name ≠ "null" ∧ url ≠ "" ∧ url ≠ "null"
            ∧ name ∈ names_lines services
            ∧ (str_in "|" name = false → str_in "|" url = false →
               str_in "|" schema = false → str_in "|" tag = false →
               split_char "|" line = [name; url; schema; tag])).
Proof.
  split; [reflexivity|]. unfold full_lines. rewrite elem_of_flat_map.
  intros (e & He & Hl). exists e. split; [done|]. simpl in *.
  destruct (negb (truthy (get_default "API Name" "" e))
            || (get_default "API Name" "" e =? "null")) eqn:B1;
    [by apply elem_of_nil in Hl|].
  destruct (negb (truthy (get_default "Url" "" e))
            || (get_default "Url" "" e =? "null")) eqn:B2;
    [by apply elem_of_nil in Hl|].
  apply list_elem_of_singleton in Hl as ->.
  apply orb_false_iff in B1 as [B1 B1'], B2 as [B2 B2'].
  apply negb_false_iff, truthy_true in B1, B2.
  apply String.eqb_neq in B1', B2'.
  repeat split; try done.
  - apply elem_of_names_lines. exists e. split; [done|].
    unfold get_default in *. by destruct (get "API Name" e).
  - intros H1 H2 H3 H4.
    apply (split_char_join "|"
             [get_default "API Name" "" e; get_default "Url" "" e;
              get_default "Schema Location" "" e;
              get_default "tag" "rest" e]); [done|].
    intros f Hf. repeat (apply elem_of_cons in Hf as [->|Hf]; [done|]).
    by apply elem_of_nil in Hf.
Qed.

(** * parse_services.py *)

Lemma parse_services_file_snoc (lines : list string) (line : string) :
  parse_services_file (lines ++ [line])
  = parse_services_line (parse_services_file lines) line.
Proof. unfold parse_services_file. by rewrite foldl_app. Qed.

Lemma parse_services_line_cases (st : list service * list string)
    (line : string) :
  parse_services_line st line = st
  ∨ (∃ w, parse_services_line st line = (fst st, snd st ++ [w]))
  ∨ ∃ name url schema,
      parse_services_line st line
      = (fst st ++ [service_of_fields (name, url, schema)], snd st)
      ∧ str_in "|" name = false ∧ str_in "|" url = false
      ∧ str_in "|" schema = false.
Proof.
  unfold parse_services_line.
  destruct (negb (truthy (strip line)) || startswith (strip line) "#");
    [left; by destruct st|].
  right.
  pose proof (split_char_parts "|" (strip line)) as Hparts.
  destruct (split_char "|" (strip line)) as [|p0 [|p1 [|p2 [|p3 l]]]];
    simpl; try (left; by eexists).
  right. exists (strip p0), (strip p1), (strip p2). split; [done|].
  repeat split; apply str_in_strip, Hparts.
  - left.
  - right; left.
  - right; right; left.
Qed.

(** X18. parse_services_file returns, for each line, at most one service
    or one warning; every service it returns has the four keys, with
    fields that hold no "|" and the tag "soap" when the lower-cased schema
    location contains "soap" and "rest" otherwise, so that the generator
    puts it in the category SOAP exactly in the first case. *)
Theorem parse_services_file_services (lines : list string) :
  (length (fst (parse_services_file lines))
   + length (snd (parse_services_file lines)) ≤ length lines)%nat
  ∧ ∀ s, s ∈ fst (parse_services_file lines) →
      ∃ name url schema,
        s = [("API Name", name); ("Url", url); ("Schema Location", schema);
             ("tag",
              if substr_in "soap" (lower schema) then "soap" else "rest")]
        ∧ str_in "|" name = false ∧ str_in "|" url = false
        ∧ str_in "|" schema = false
        ∧ service_category s
          = if substr_in "soap" (lower schema) then SOAP else REST.
Proof.
  induction lines as [|line lines [IH1 IH2]] using rev_ind.
  - split; [simpl; lia|]. intros s Hs. by apply elem_of_nil in Hs.
  - rewrite parse_services_file_snoc, length_app. simpl.
    destruct (parse_services_line_cases (parse_services_file lines) line)
      as [->|[(w & ->)|(name & url & schema & -> & H1 & H2 & H3)]]; simpl.
    + split; [lia|done].
    + split; [rewrite length_app; simpl; lia|done].
    + split; [rewrite length_app; simpl; lia|].
      intros s Hs. apply elem_of_app in Hs as [Hs|Hs]; [by apply IH2|].
      apply list_elem_of_singleton in Hs as ->.
      exists name, url, schema. split; [done|]. repeat split; try done.
      unfold service_category. by destruct (substr_in "soap" (lower schema)).
Qed.

Lemma lstrip_fixed_app (a b : string) :
  lstrip a = a → a ≠ "" → lstrip (a +:+ b) = a +:+ b.
Proof.
  destruct a as [|x a]; [done|]. intros H _.
  change (String x a +:+ b) with (String x (a +:+ b)).
  simpl in *. destruct (isspace x); [|done].
  pose proof (length_lstrip a) as Hl. rewrite H in Hl. simpl in Hl. lia.
Qed.

Lemma rstrip_nonspace_cons (a : ascii) (t : string) :
  isspace a = false → rstrip (String a t) = String a (rstrip t).
Proof. intros H. simpl. rewrite H. by destruct (rstrip t). Qed.





(** * convert_keys.py: reading the table *)

Lemma append_empty_r (s : string) : s +:+ "" = s.
Proof.
  induction s as [|a s IH]; [done|].
  change (String a s +:+ "") with (String a (s +:+ "")). by rewrite IH.
Qed.

Lemma split_ws_go_tokens (s : string) :
  has_space (fst (split_ws_go s)) = false
  ∧ ∀ w, w ∈ snd (split_ws_go s) → is_token w.
Proof.
  induction s as [|a t [IH1 IH2]]; simpl.
  - split; [done|]. intros w Hw. by apply elem_of_nil in Hw.
  - destruct (split_ws_go t) as [w ws]. simpl in *.
    destruct (isspace a) eqn:Ea; simpl.
    + split; [done|]. destruct (truthy w) eqn:Ew; [|done].
      intros x Hx. apply elem_of_cons in Hx as [->|Hx]; [|by apply IH2].
      split; [by apply truthy_true|done].
    + by rewrite Ea, IH1.
Qed.

Lemma split_ws_tokens (s w : string) : w ∈ split_ws s → is_token w.
Proof.
  unfold split_ws. destruct (split_ws_go_tokens s) as [H1 H2].
  destruct (split_ws_go s) as [x ws]. simpl in *.
  destruct (truthy x) eqn:Ex; [|apply H2].
  intros Hw. apply elem_of_cons in Hw as [->|Hw]; [|by apply H2].
  split; [by apply truthy_true|done].
Qed.

Lemma split_ws_go_token (w rest : string) :
  has_space w = false →
  split_ws_go (w +:+ rest)
  = (w +:+ fst (split_ws_go rest), snd (split_ws_go rest)).
Proof.
  induction w as [|a w IH]; intros H.
  - change ("" +:+ rest) with rest. by destruct (split_ws_go rest).
  - simpl in H. apply orb_false_iff in H as [Ha Hw].
    change (String a w +:+ rest) with (String a (w +:+ rest)).
    simpl. by rewrite (IH Hw), Ha.
Qed.

Lemma split_ws_join (tokens : list string) :
  (∀ w, w ∈ tokens → is_token w) →
  split_ws (join " " tokens) = tokens.
Proof.
  induction tokens as [|w tokens IH]; intros Htok; [done|].
  destruct (Htok w) as [Hne Hsp]; [left|].
  assert (truthy w = true) as Hw by by apply truthy_true.
  destruct tokens as [|y tokens].
  - simpl. unfold split_ws.
    rewrite <- (append_empty_r w), split_ws_go_token by done. simpl.
    by rewrite !append_empty_r, Hw.
  - change (join " " (w :: y :: tokens))
      with (w +:+ String " " (join " " (y :: tokens))).
    unfold split_ws. rewrite split_ws_go_token by done.
    assert (split_ws_go (String " " (join " " (y :: tokens)))
            = ("", split_ws (join " " (y :: tokens)))) as ->.
    { unfold split_ws. simpl.
      by destruct (split_ws_go _) as [x ws]. }
    simpl. rewrite append_empty_r, Hw. f_equal. apply IH.
    intros x Hx. apply Htok. by right.
Qed.

Lemma token_lstrip (w : string) : has_space w = false → lstrip w = w.
Proof.
  destruct w as [|a w]; simpl; [done|]. intros H.
  apply orb_false_iff in H as [Ha _]. by rewrite Ha.
Qed.

Lemma token_rstrip (w : string) : has_space w = false → rstrip w = w.
Proof.
  induction w as [|a w IH]; simpl; [done|]. intros H.
  apply orb_false_iff in H as [Ha Hw]. rewrite (IH Hw), Ha.
  by destruct w.
Qed.

Lemma str_in_append (c : ascii) (a b : string) :
  str_in c (a +:+ b) = str_in c a || str_in c b.
Proof.
  induction a as [|x a IH]; simpl; [done|]. by rewrite IH, orb_assoc.
Qed.

Lemma token_no_line_feed (w : string) :
  has_space w = false → str_in "010" w = false.
Proof.
  induction w as [|a w IH]; simpl; [done|]. intros H.
  apply orb_false_iff in H as [Ha Hw]. rewrite (IH Hw), orb_false_r.
  destruct (Ascii.eqb a "010") eqn:E; [|done].
  apply Ascii.eqb_eq in E as ->. discriminate Ha.
Qed.

Lemma join_no_line_feed (tokens : list string) :
  (∀ w, w ∈ tokens → is_token w) →
  str_in "010" (join " " tokens) = false.
Proof.
  induction tokens as [|w tokens IH]; intros Htok; [done|].
  destruct (Htok w) as [_ Hsp]; [left|].
  destruct tokens as [|y tokens]; [by apply token_no_line_feed|].
  change (join " " (w :: y :: tokens))
    with (w +:+ String " " (join " " (y :: tokens))).
  rewrite str_in_append, token_no_line_feed by done. simpl.
  apply IH. intros x Hx. apply Htok. by right.
Qed.

Lemma token_clean (w : string) :
  is_token w → starts_clean w ∧ ends_clean w.
Proof.
  intros [Hne Hsp]. split; split; try done.
  - by apply token_lstrip.
  - by apply token_rstrip.
Qed.

Lemma append_nonempty_r (a b : string) : b ≠ "" → a +:+ b ≠ "".
Proof. destruct a, b; done. Qed.

Lemma join_starts_clean (sep x : string) (l : list string) :
  starts_clean x → starts_clean (join sep (x :: l)).
Proof.
  intros [H1 H2]. destruct l as [|y l]; [done|].
  change (join sep (x :: y :: l)) with (x +:+ sep +:+ join sep (y :: l)).
  split; [by apply lstrip_fixed_app|]. by destruct x.
Qed.

Lemma join_ends_clean (sep : string) (l : list string) (x : string) :
  ends_clean x → ends_clean (join sep (l ++ [x])).
Proof.
  intros [H1 H2]. induction l as [|y l IH]; [done|].
  destruct IH as [IH1 IH2].
  change (join sep ((y :: l) ++ [x])) with (join sep (y :: (l ++ [x]))).
  destruct (l ++ [x]) as [|z r] eqn:E; [by destruct l|].
  change (join sep (y :: z :: r)) with (y +:+ sep +:+ join sep (z :: r)).
  assert (rstrip (sep +:+ join sep (z :: r)) = sep +:+ join sep (z :: r))
    as Hs by (rewrite rstrip_app by (by rewrite IH1); by rewrite IH1).
  split.
  - rewrite rstrip_app; rewrite Hs; [done|].
    by apply append_nonempty_r.
  - by apply append_nonempty_r, append_nonempty_r.
Qed.

Lemma row_line_facts (row : string * list string * string) :
  row_ok row →
  starts_clean (row_line row) ∧ ends_clean (row_line row)
  ∧ str_in "010" (row_line row) = false
  ∧ ∀ mapping, parse_mapping_line mapping (row_line row)
               = mapping ++ [row_pair row].
Proof.
  destruct row as [[index words] mapped]. intros (Hi & Hw & Hws & Hm).
  assert (∀ w, w ∈ index :: words ++ [mapped] → is_token w) as Htok.
  { intros w H. apply elem_of_cons in H as [->|H]; [done|].
    apply elem_of_app in H as [H|H]; [by apply Hws|].
    by apply list_elem_of_singleton in H as ->. }
  unfold row_line. split; [|split; [|split]].
  - apply join_starts_clean. by apply token_clean.
  - change (index :: words ++ [mapped]) with ((index :: words) ++ [mapped]).
    apply join_ends_clean. by apply token_clean.
  - by apply join_no_line_feed.
  - intros mapping. unfold parse_mapping_line.
    rewrite split_ws_join by done.
    destruct words as [|w words]; [done|].
    assert (Nat.ltb (length (index :: (w :: words) ++ [mapped])) 3 = false)
      as ->.
    { apply Nat.ltb_ge. simpl. rewrite length_app. simpl. lia. }
    assert (List.last (index :: (w :: words) ++ [mapped]) "" = mapped)
      as -> by apply (List.last_last (index :: w :: words)).
    assert (List.removelast (List.tl (index :: (w :: words) ++ [mapped]))
            = w :: words) as -> by apply List.removelast_last.
    done.
Qed.

Lemma strip_table_text (rows : list (string * list string * string)) :
  rows ≠ [] → (∀ row, row ∈ rows → row_ok row) →
  strip (table_text rows) = join LF (map row_line rows).
Proof.
  intros Hne Hrows.
  assert (starts_clean (join LF (map row_line rows))
          ∧ ends_clean (join LF (map row_line rows))) as [[Hl Hn] [Hr _]].
  { split.
    - destruct rows as [|row rows]; [done|]. simpl map.
      apply join_starts_clean. apply row_line_facts, Hrows. left.
    - destruct rows as [|row rows _] using rev_ind; [done|].
      rewrite map_app. simpl map. apply join_ends_clean.
      apply row_line_facts, Hrows, elem_of_app. right. left. }
  unfold strip, table_text.
  change (LF +:+ join LF (map row_line rows) +:+ LF)
    with (String "010" (join LF (map row_line rows) +:+ LF)).
  simpl lstrip. rewrite lstrip_fixed_app by done.
  by rewrite rstrip_app_blank.
Qed.

(** X20. Reading back a table written one row per line, with the index,
    the words of the original name and the mapped name separated by
    single spaces, gives for every row the original name (its words
    joined by single spaces) and the mapped name, in the order of the
    rows. *)
Theorem parse_mapping_round_trip
    (rows : list (string * list string * string)) :
  (∀ row, row ∈ rows → row_ok row) →
  parse_mapping (table_text rows) = map row_pair rows.
Proof.
  intros Hrows. unfold parse_mapping.
  destruct rows as [|row0 rows0] eqn:Erows; [reflexivity|].
  rewrite <- Erows in *.
  assert (rows ≠ []) as Hne by (by rewrite Erows).
  rewrite strip_table_text by done.
  change LF with (String "010" "") at 1.
  rewrite split_char_join.
  - clear Erows Hne.
    assert (∀ acc, foldl parse_mapping_line acc (map row_line rows)
                   = acc ++ map row_pair rows) as H; [|apply (H [])].
    induction rows as [|row rows IH]; intros acc; simpl.
    + by rewrite app_nil_r.
    + destruct (row_line_facts row) as (_ & _ & _ & ->); [apply Hrows; left|].
      rewrite IH; [by rewrite <- app_assoc|].
      intros r Hr. apply Hrows. by right.
  - rewrite Erows. done.
  - intros f Hf. apply elem_of_map in Hf as (row & -> & Hrow).
    by apply row_line_facts, Hrows.
Qed.

Ltac each_token :=
  let w := fresh "w" in
  let Hw := fresh "Hw" in
  intros w Hw;
  repeat (apply elem_of_cons in Hw as [->|Hw]; [by split|]);
  by apply elem_of_nil in Hw.

(** X20 at a table of two rows. *)
Lemma parse_mapping_round_trip_witness :
  parse_mapping
    (table_text [("47", ["Get"; "LOV"], "GetLOV"); ("93", ["Pay"], "Pay2")])
  = map row_pair [("47", ["Get"; "LOV"], "GetLOV"); ("93", ["Pay"], "Pay2")].
Proof.
  apply (parse_mapping_round_trip
           [("47", ["Get"; "LOV"], "GetLOV"); ("93", ["Pay"], "Pay2")]).
  intros row H.
  repeat (apply elem_of_cons in H as [->|H];
          [split; [by split|]; split; [done|];
           split; [each_token|by split]|]).
  by apply elem_of_nil in H.
Defined.

(** X21. Whatever the text, every pair that parse_mapping returns has a
    mapped name that is a token (not empty, no white space) and an
    original name made of one or more tokens joined by single spaces. *)
Theorem parse_mapping_normalised (text : string) (orig mapped : string) :
  (orig, mapped) ∈ parse_mapping text →
  is_token mapped
  ∧ ∃ words, words ≠ [] ∧ (∀ w, w ∈ words → is_token w)
             ∧ orig = join " " words.
Proof.
  unfold parse_mapping.
  assert (∀ lines acc,
            (orig, mapped) ∈ foldl parse_mapping_line acc lines →
            (orig, mapped) ∈ acc
            ∨ (is_token mapped
               ∧ ∃ words, words ≠ [] ∧ (∀ w, w ∈ words → is_token w)
                          ∧ orig = join " " words)) as H.
  { induction lines as [|line lines IH]; intros acc; simpl; [by left|].
    intros Hin. destruct (IH _ Hin) as [Hacc|?]; [|by right].
    unfold parse_mapping_line in Hacc.
    pose proof (split_ws_tokens line) as Htok.
    destruct (Nat.ltb (length (split_ws line)) 3) eqn:El; [by left|].
    apply elem_of_app in Hacc as [?|Hacc]; [by left|]. right.
    apply list_elem_of_singleton in Hacc as [= -> ->].
    apply Nat.ltb_ge in El.
    destruct (split_ws line) as [|index rest]; [simpl in El; lia|].
    destruct rest as [|x rest _] using rev_ind; [simpl in El; lia|].
    assert (List.last (index :: rest ++ [x]) "" = x)
      as -> by apply (List.last_last (index :: rest)).
    assert (List.removelast (List.tl (index :: rest ++ [x])) = rest)
      as -> by apply List.removelast_last.
    split.
    - apply Htok. right. apply elem_of_app. right. left.
    - exists rest. split.
      + intros ->. simpl in El. lia.
      + split; [|done]. intros w Hw. apply Htok. right.
        apply elem_of_app. by left. }
  intros Hin. destruct (H _ _ Hin) as [Hnil|?]; [|done].
  by apply elem_of_nil in Hnil.
Qed.

(** X21 at a line with an index, a two-word name and a mapped name, with
    spaces and tabs to spare. *)
Lemma parse_mapping_normalised_witness :
  ("Get LOV", "GetLOV") ∈ parse_mapping ("  47   Get  LOV   GetLOV  " +:+ LF)
  ∧ is_token "GetLOV"
  ∧ ∃ words, words ≠ [] ∧ (∀ w, w ∈ words → is_token w)
             ∧ "Get LOV" = join " " words.
Proof.
  assert (("Get LOV", "GetLOV")
          ∈ parse_mapping ("  47   Get  LOV   GetLOV  " +:+ LF)) as H.
  { replace (parse_mapping _) with [("Get LOV", "GetLOV")] by reflexivity.
    left. }
  split; [exact H|].
  exact (parse_mapping_normalised _ _ _ H).
Defined.

(** * convert_json_to_yaml.py *)

Lemma append_assoc (a b c : string) : (a +:+ b) +:+ c = a +:+ b +:+ c.
Proof.
  induction a as [|x a IH]; [done|].
  change ((String x a +:+ b) +:+ c) with (String x ((a +:+ b) +:+ c)).
  by rewrite IH.
Qed.

Lemma spaces_of_S (n : nat) : spaces_of (S n) = spaces_of n +:+ "  ".
Proof.
  induction n as [|n IH]; [done|].
  change (spaces_of (S (S n))) with ("  " +:+ spaces_of (S n)).
  rewrite IH at 1. by rewrite <- append_assoc.
Qed.

Lemma startswith_here (p rest : string) : startswith (p +:+ rest) p = true.
Proof. apply startswith_append. by exists rest. Qed.

Lemma startswith_spaces_S (line : string) (n : nat) :
  startswith line (spaces_of (S n)) = true →
  startswith line (spaces_of n) = true.
Proof.
  rewrite !startswith_append, spaces_of_S. intros [r ->].
  exists ("  " +:+ r). by rewrite append_assoc.
Qed.

Section JsonFacts.
Context {number : Type} (str_number : number → string).

Lemma json_induction (P : json number → Prop) :
  P JNull → (∀ b, P (JBool b)) → (∀ n, P (JNumber n)) →
  (∀ s, P (JString s)) →
  (∀ items, Forall P items → P (JList items)) →
  (∀ members, Forall (fun m => P (snd m)) members → P (JDict members)) →
  ∀ obj, P obj.
Proof.
  intros Hnull Hbool Hnum Hstr Hlist Hdict.
  fix IH 1. intros [| b | n | s | items | members].
  - exact Hnull.
  - apply Hbool.
  - apply Hnum.
  - apply Hstr.
  - apply Hlist. induction items as [|x items IHl]; constructor.
    + apply IH.
    + exact IHl.
  - apply Hdict. induction members as [|[k v] members IHl]; constructor.
    + apply IH.
    + exact IHl.
Qed.

Lemma value_lines_indented (nested : json number → list string)
    (n : nat) (key : string) (value : json number) (line : string) :
  (∀ l, l ∈ nested value → startswith l (spaces_of n) = true) →
  line ∈ value_lines str_number nested (spaces_of n) key value →
  startswith line (spaces_of n) = true.
Proof.
  intros Hn. unfold value_lines.
  destruct value as [| b | x | s | items | members];
    try (intros H; apply list_elem_of_singleton in H as ->;
         apply startswith_here).
  - destruct (needs_quotes s); intros H;
      apply list_elem_of_singleton in H as ->; apply startswith_here.
  - intros H. apply elem_of_cons in H as [->|H];
      [apply startswith_here | by apply Hn].
  - intros H. apply elem_of_cons in H as [->|H];
      [apply startswith_here | by apply Hn].
Qed.

Lemma item_lines_indented (nested : json number → list string)
    (spaces : string) (item : json number) (line : string) :
  line ∈ item_lines str_number nested spaces item →
  startswith line spaces = true.
Proof.
  assert (∀ l, line ∈ nested_item_lines spaces l →
            startswith line spaces = true) as Hnested.
  { intros [|first others]; simpl; intros H.
    - apply list_elem_of_singleton in H as ->. apply startswith_here.
    - apply elem_of_cons in H as [->|H]; [apply startswith_here|].
      apply elem_of_map in H as (x & -> & _). apply startswith_here. }
  unfold item_lines.
  destruct item as [| b | x | s | items | members];
    try (intros H; apply list_elem_of_singleton in H as ->;
         apply startswith_here); apply Hnested.
Qed.

(** X22. Every line that json_to_yaml returns starts with the indentation
    of its level, two spaces for each level. *)
Theorem json_to_yaml_indented (obj : json number) (indent : nat)
    (line : string) :
  line ∈ json_to_yaml str_number obj indent →
  startswith line (spaces_of indent) = true.
Proof.
  revert indent line.
  induction obj as [| b | n | s | items _ | members IH]
    using json_induction; intros indent line; simpl;
    try (intros H; by apply elem_of_nil in H).
  - rewrite elem_of_flat_map. intros (item & _ & H).
    by eapply item_lines_indented.
  - rewrite elem_of_flat_map. intros (key & _ & H).
    induction members as [|[k v] members IHm]; simpl in H;
      [by apply elem_of_nil in H|].
    apply Forall_cons in IH as [IHv IH].
    destruct (decide (k = key)) as [->|Hne]; [|by apply IHm].
    eapply value_lines_indented; [|exact H].
    intros l Hl. simpl in IHv. by apply startswith_spaces_S, IHv.
Qed.

Lemma mem_true (x : string) (l : list string) : mem x l = true ↔ x ∈ l.
Proof.
  unfold mem. rewrite existsb_exists. split.
  - intros (y & Hy & E). apply String.eqb_eq in E as ->.
    by apply list_elem_of_In.
  - intros H. exists x. split; [by apply list_elem_of_In|].
    apply String.eqb_refl.
Qed.

Lemma mem_filter (x : string) (f : string → bool) (l : list string) :
  mem x (List.filter f l) = mem x l && f x.
Proof.
  apply eq_true_iff_eq. rewrite andb_true_iff, !mem_true.
  by rewrite elem_of_List_filter.
Qed.

Lemma List_filter_filter {A : Type} (f g : A → bool) (l : list A) :
  (∀ x, f x = true → g x = true) →
  List.filter f (List.filter g l) = List.filter f l.
Proof.
  intros H. induction l as [|x l IH]; simpl; [done|].
  destruct (g x) eqn:G; simpl.
  - by rewrite IH.
  - rewrite IH. destruct (f x) eqn:F; [|done].
    apply H in F. congruence.
Qed.

Lemma yaml_keys_filter (ks : list string) :
  yaml_keys
    (List.filter (fun k => negb (mem k excluded_props)) ks)
  = yaml_keys ks.
Proof.
  unfold yaml_keys.
  assert (List.filter
            (fun prop =>
               mem prop
                 (List.filter (fun k => negb (mem k excluded_props)) ks)
               && negb (mem prop excluded_props)) property_order
          = List.filter
              (fun prop => mem prop ks && negb (mem prop excluded_props))
              property_order) as ->.
  { apply List.filter_ext. intros prop. rewrite mem_filter.
    by destruct (mem prop ks), (mem prop excluded_props). }
  f_equal. f_equal. apply List_filter_filter.
  intros k H. by apply andb_true_iff in H as [_ H].
Qed.

Lemma yaml_keys_not_excluded (ks : list string) (key : string) :
  key ∈ yaml_keys ks → mem key excluded_props = false.
Proof.
  unfold yaml_keys. rewrite elem_of_app, sorted_perm.
  rewrite !elem_of_List_filter.
  intros [[_ H]|[_ H]]; apply andb_true_iff in H as [_ H];
    by apply negb_true_iff in H.
Qed.

Lemma prune_container (obj : json number) :
  is_container (prune obj) = is_container obj.
Proof. by destruct obj. Qed.

Lemma value_lines_prune (nested : json number → list string)
    (spaces key : string) (value : json number) :
  nested (prune value) = nested value →
  value_lines str_number nested spaces key (prune value)
  = value_lines str_number nested spaces key value.
Proof. intros H. destruct value; simpl in *; try done; by rewrite H. Qed.

Lemma item_lines_prune (nested : json number → list string)
    (spaces : string) (item : json number) :
  nested (prune item) = nested item →
  item_lines str_number nested spaces (prune item)
  = item_lines str_number nested spaces item.
Proof. intros H. destruct item; simpl in *; try done; by rewrite H. Qed.

Lemma dict_entry_prune (nested : json number → list string)
    (spaces key : string) (members : list (string * json number)) :
  Forall (fun m => nested (prune (snd m)) = nested (snd m)) members →
  mem key excluded_props = false →
  dict_entry str_number nested spaces
    (flat_map
       (fun m =>
          if mem (fst m) excluded_props then []
          else [(fst m, prune (snd m))]) members) key
  = dict_entry str_number nested spaces members key.
Proof.
  intros Hall Hkey. induction members as [|[k v] members IH]; [done|].
  apply Forall_cons in Hall as [Hv Hall]. simpl.
  destruct (mem k excluded_props) eqn:Ek; simpl.
  - rewrite decide_False by congruence. by apply IH.
  - destruct (decide (k = key)); [by apply value_lines_prune|by apply IH].
Qed.

(** X23. The JSON-Schema-only properties "$schema", "$id", "$comment",
    "definitions" and "$defs" never reach the output, at any depth:
    json_to_yaml returns the same lines for a value and for the value
    without these properties. *)
Theorem json_to_yaml_prune (obj : json number) (indent : nat) :
  json_to_yaml str_number (prune obj) indent
  = json_to_yaml str_number obj indent.
Proof.
  revert indent.
  induction obj as [| b | n | s | items IH | members IH]
    using json_induction; intros indent; try reflexivity.
  - simpl. induction items as [|x items IHl]; [done|].
    apply Forall_cons in IH as [Hx IH]. simpl.
    rewrite (item_lines_prune _ _ x) by apply Hx. by rewrite (IHl IH).
  - simpl.
    assert (map fst
              (flat_map
                 (fun m : string * json number =>
                    if mem (fst m) excluded_props then []
                    else [(fst m, prune (snd m))]) members)
            = List.filter (fun k => negb (mem k excluded_props))
                (map fst members)) as ->.
    { clear IH. induction members as [|[k v] members IHm]; [done|]. simpl.
      destruct (mem k excluded_props); simpl; by rewrite IHm. }
    rewrite yaml_keys_filter.
    assert (∀ ks : list string,
              (∀ key, key ∈ ks → mem key excluded_props = false) →
              flat_map
                (dict_entry str_number
                   (fun value => json_to_yaml str_number value (S indent))
                   (spaces_of indent)
                   (flat_map
                      (fun m : string * json number =>
                         if mem (fst m) excluded_props then []
                         else [(fst m, prune (snd m))]) members)) ks
              = flat_map
                  (dict_entry str_number
                     (fun value => json_to_yaml str_number value (S indent))
                     (spaces_of indent) members) ks) as H.
    { induction ks as [|key ks IHk]; intros Hk; [done|]. simpl.
      rewrite dict_entry_prune.
      - rewrite IHk; [done|]. intros k Hin. apply Hk. by right.
      - eapply Forall_impl; [exact IH|]. intros m Hm. apply Hm.
      - apply Hk. left. }
    apply H. intros key. apply yaml_keys_not_excluded.
Qed.

Lemma dict_entry_get (nested : json number → list string)
    (spaces key : string) (members : list (string * json number))
    (value : json number) :
  get key members = Some value →
  dict_entry str_number nested spaces members key
  = value_lines str_number nested spaces key value.
Proof.
  induction members as [|[k v] members IH]; simpl; [done|].
  destruct (decide (k = key)); [by intros [= ->]|exact IH].
Qed.

Lemma List_filter_cons_true {A : Type} (f : A → bool) (x : A)
    (l : list A) :
  f x = true → List.filter f (x :: l) = x :: List.filter f l.
Proof. intros H. simpl. by rewrite H. Qed.

Lemma yaml_keys_type (ks : list string) :
  mem "type" ks = true → ∃ rest, yaml_keys ks = "type" :: rest.
Proof.
  intros Hmem. unfold yaml_keys.
  assert (property_order = "type" :: List.tl property_order) as ->
    by reflexivity.
  rewrite List_filter_cons_true.
  - eexists. reflexivity.
  - rewrite Hmem. reflexivity.
Qed.

Lemma value_lines_first (nested : json number → list string)
    (spaces key : string) (value : json number) :
  ∃ first others,
    value_lines str_number nested spaces key value = first :: others
    ∧ startswith first (spaces +:+ key +:+ ":") = true.
Proof.
  assert (∀ x, startswith (spaces +:+ key +:+ ":" +:+ x)
                 (spaces +:+ key +:+ ":") = true) as Hcolon.
  { intros x. apply startswith_append. exists x.
    by rewrite !append_assoc. }
  unfold value_lines. destruct value as [| b | n | s | items | ms].
  - eexists _, _. split; [done|]. apply (Hcolon " null").
  - eexists _, _. split; [done|].
    apply (Hcolon (" " +:+ (if b then "true" else "false"))).
  - eexists _, _. split; [done|]. apply (Hcolon (" " +:+ str_number n)).
  - destruct (needs_quotes s).
    + eexists _, _. split; [done|]. apply (Hcolon (" '" +:+ s +:+ "'")).
    + eexists _, _. split; [done|]. apply (Hcolon (" " +:+ s)).
  - eexists _, _. split; [done|]. rewrite <- (append_empty_r ":") at 1.
    apply (Hcolon "").
  - eexists _, _. split; [done|]. rewrite <- (append_empty_r ":") at 1.
    apply (Hcolon "").
Qed.

(** X24. An object with the property "type" gives first the line of that
    property: the indentation followed by "type:". *)
Theorem json_to_yaml_type_first (members : list (string * json number))
    (value : json number) (indent : nat) :
  get "type" members = Some value →
  ∃ first others,
    json_to_yaml str_number (JDict members) indent = first :: others
    ∧ startswith first (spaces_of indent +:+ "type" +:+ ":") = true.
Proof.
  intros Hget.
  assert (mem "type" (map fst members) = true) as Hmem.
  { apply mem_true. apply get_Some_elem in Hget.
    apply elem_of_map. by exists ("type", value). }
  destruct (yaml_keys_type _ Hmem) as [rest Hkeys].
  change (json_to_yaml str_number (JDict members) indent)
    with (flat_map
            (dict_entry str_number
               (fun value => json_to_yaml str_number value (S indent))
               (spaces_of indent) members)
            (yaml_keys (map fst members))).
  rewrite Hkeys.
  change (flat_map ?f ("type" :: rest)) with (f "type" ++ flat_map f rest).
  rewrite (dict_entry_get _ _ _ _ _ Hget).
  destruct (value_lines_first
              (fun value => json_to_yaml str_number value (S indent))
              (spaces_of indent) "type" value)
    as (first & others & -> & Hfirst).
  by exists first, (others ++ flat_map
                      (dict_entry str_number
                         (fun value =>
                            json_to_yaml str_number value (S indent))
                         (spaces_of indent) members) rest).
Qed.

Lemma lstrip_idem (s : string) : lstrip (lstrip s) = lstrip s.
Proof.
  induction s as [|a t IH]; [done|]. simpl.
  destruct (isspace a) eqn:E; [exact IH|]. simpl. by rewrite E.
Qed.

Lemma rstrip_idem (s : string) : rstrip (rstrip s) = rstrip s.
Proof.
  induction s as [|a t IH]; [done|]. simpl.
  destruct (rstrip t) as [|b r] eqn:E.
  - destruct (isspace a) eqn:Ea; [done|]. simpl. by rewrite Ea.
  - change (rstrip (String a (String b r)))
      with (match rstrip (String b r) with
            | "" => if isspace a then "" else String a ""
            | x => String a x
            end).
    by rewrite IH.
Qed.

Lemma lstrip_rstrip (y : string) :
  lstrip y = y → lstrip (rstrip y) = rstrip y.
Proof.
  destruct y as [|a t]; [done|]. intros H.
  assert (isspace a = false) as Ea.
  { simpl in H. destruct (isspace a); [|done].
    pose proof (length_lstrip t) as Hl. rewrite H in Hl. simpl in Hl. lia. }
  rewrite rstrip_nonspace_cons by done. simpl. by rewrite Ea.
Qed.

Lemma strip_idem (s : string) : strip (strip s) = strip s.
Proof.
  unfold strip. rewrite (lstrip_rstrip (lstrip s)) by apply lstrip_idem.
  apply rstrip_idem.
Qed.

Lemma item_lines_container (nested : json number → list string)
    (spaces : string) (item : json number) :
  is_container item = true →
  item_lines str_number nested spaces item
  = nested_item_lines spaces (nested item).
Proof. by destruct item. Qed.

(** X25. Inside an array, the lines of an item that is an object or an
    array are put at one column whatever their depth: the first after
    "- ", the others after two spaces, each stripped of its own
    indentation; an item without lines gives "-". *)
Theorem json_to_yaml_list_flat (items : list (json number)) (indent : nat)
    (line : string) :
  (∀ item, item ∈ items → is_container item = true) →
  line ∈ json_to_yaml str_number (JList items) indent →
  line = spaces_of indent +:+ "-"
  ∨ ∃ x, strip x = x
         ∧ (line = spaces_of indent +:+ "- " +:+ x
            ∨ line = spaces_of indent +:+ "  " +:+ x).
Proof.
  intros Hall.
  change (json_to_yaml str_number (JList items) indent)
    with (flat_map
            (item_lines str_number
               (fun item => json_to_yaml str_number item (S indent))
               (spaces_of indent)) items).
  rewrite elem_of_flat_map. intros (item & Hin & H).
  specialize (Hall item Hin).
  rewrite item_lines_container in H by done. cbv beta in H.
  rename H into Hn. unfold nested_item_lines in Hn.
  destruct (json_to_yaml str_number item (S indent)) as [|first others].
  - apply list_elem_of_singleton in Hn. by left.
  - right. apply elem_of_cons in Hn as [->|Hn].
    + exists (strip first). split; [apply strip_idem|by left].
    + apply elem_of_map in Hn as (x & -> & _).
      exists (strip x). split; [apply strip_idem|by right].
Qed.

End JsonFacts.

(** X22 at an object with a nested object, at level 1. *)
Lemma json_to_yaml_indented_witness :
  let obj : json nat :=
    JDict [("properties", JDict [("a", JDict [("type", JString "string")])])]
  in
  "      type: string" ∈ json_to_yaml (fun _ => "1") obj 1
  ∧ startswith "      type: string" (spaces_of 1) = true.
Proof.
  assert ("      type: string"
          ∈ json_to_yaml (fun _ : nat => "1")
              (JDict
                 [("properties",
                   JDict [("a", JDict [("type", JString "string")])])]) 1)
    as H.
  { replace (json_to_yaml _ _ _)
      with ["  properties:"; "    a:"; "      type: string"]
      by (vm_compute; reflexivity).
    right; right; left. }
  split; [exact H|].
  exact (json_to_yaml_indented _ _ _ _ H).
Defined.

(** X24 at an object whose "type" comes last in the file. *)
Lemma json_to_yaml_type_first_witness :
  let members : list (string * json nat) :=
    [("title", JString "T"); ("maxLength", JNumber 5);
     ("type", JString "string")] in
  get "type" members = Some (JString "string")
  ∧ ∃ first others,
      json_to_yaml (fun _ => "5") (JDict members) 0 = first :: others
      ∧ startswith first (spaces_of 0 +:+ "type" +:+ ":") = true.
Proof.
  split; [reflexivity|].
  apply (json_to_yaml_type_first (fun _ : nat => "5")
           [("title", JString "T"); ("maxLength", JNumber 5);
            ("type", JString "string")] (JString "string") 0).
  reflexivity.
Defined.

(** X25 at an array of one object with a nested object. *)
Lemma json_to_yaml_list_flat_witness :
  let items : list (json nat) :=
    [JDict [("a", JDict [("b", JNumber 1)])]] in
  "b: 1" = strip "b: 1"
  ∧ json_to_yaml (fun _ => "1") (JList items) 0 = ["- a:"; "  b: 1"]
  ∧ ("  b: 1" = spaces_of 0 +:+ "-"
     ∨ ∃ x, strip x = x
            ∧ ("  b: 1" = spaces_of 0 +:+ "- " +:+ x
               ∨ "  b: 1" = spaces_of 0 +:+ "  " +:+ x)).
Proof.
  split; [reflexivity|]. split; [vm_compute; reflexivity|].
  apply (json_to_yaml_list_flat (fun _ : nat => "1")
           [JDict [("a", JDict [("b", JNumber 1)])]] 0 "  b: 1").
  - intros item H. apply list_elem_of_singleton in H as ->. reflexivity.
  - replace (json_to_yaml _ _ _) with ["- a:"; "  b: 1"]
      by (vm_compute; reflexivity).
    right; left.
Defined.
